(** * xicsrt: coordinate frames and the mesh intersection engine

    A shallow embedding of [xicsrt/objects/_GeometryObject.py] and
    [xicsrt/optics/_XicsrtOpticMesh.py].

    numpy arrays are lists; a row of an [(N, 3)] array is a [vec3].  The
    code computes in binary64.  The embedding is written once over a
    [Scalar] interface and used at two instances: Rocq's primitive
    binary64 floats, on which the definitions run, and the real numbers,
    on which the algebraic laws hold exactly.  Operations that numpy
    refuses (a shape that cannot be broadcast, an index out of range, a
    missing dictionary key) return [Err]. *)

From Stdlib Require Import Reals Lra Psatz RNsatz PrimFloat Floats ZArith List Bool.
From stdpp Require Import gmap strings list.

Set Warnings "-inexact-float".

(** ** Exceptions and results *)

Inductive exn : Type :=
| ValueError          (* operands could not be broadcast together *)
| IndexError          (* index out of bounds, or boolean index of the wrong size *)
| KeyError (key : string)
| TypeError           (* None where an array is expected *)
| Exception (msg : string).

Inductive result (A : Type) : Type :=
| Ok (a : A)
| Err (e : exn).
Arguments Ok {A} a.
Arguments Err {A} e.

Definition rbind {A B} (r : result A) (k : A -> result B) : result B :=
  match r with
  | Ok a => k a
  | Err e => Err e
  end.

Definition of_option {A} (e : exn) (o : option A) : result A :=
  match o with
  | Some a => Ok a
  | None => Err e
  end.

Declare Scope result_scope.
Delimit Scope result_scope with res.
Notation "x <- c ; k" := (rbind c (fun x => k))
  (at level 20, c at level 100, k at level 200, only parsing) : result_scope.
Notation "' pat <- c ; k" := (rbind c (fun x => match x with pat => k end))
  (at level 20, pat pattern, c at level 100, k at level 200, only parsing) : result_scope.

(** ** Scalars *)

Class Scalar (T : Type) : Type := {
  s_zero : T;
  s_one : T;
  s_add : T -> T -> T;
  s_sub : T -> T -> T;
  s_mul : T -> T -> T;
  s_div : T -> T -> T;
  s_opp : T -> T;
  s_sqrt : T -> T;
  s_ltb : T -> T -> bool;
  s_leb : T -> T -> bool;
  (** the literals [1e-15] and [1e-10] of the source *)
  s_1em15 : T;
  s_1em10 : T
}.

Declare Scope scalar_scope.
Delimit Scope scalar_scope with sc.
Notation "x + y" := (s_add x y) : scalar_scope.
Notation "x - y" := (s_sub x y) : scalar_scope.
Notation "x * y" := (s_mul x y) : scalar_scope.
Notation "x / y" := (s_div x y) : scalar_scope.
Notation "- x" := (s_opp x) : scalar_scope.
Notation "x <? y" := (s_ltb x y) : scalar_scope.
Notation "x <=? y" := (s_leb x y) : scalar_scope.
Notation "x >? y" := (s_ltb y x) (only parsing) : scalar_scope.
Notation "x >=? y" := (s_leb y x) (only parsing) : scalar_scope.

(** binary64, round to nearest even: what numpy's float64 computes *)
#[export] Instance float_scalar : Scalar float := {|
  s_zero := 0%float;
  s_one := 1%float;
  s_add := PrimFloat.add;
  s_sub := PrimFloat.sub;
  s_mul := PrimFloat.mul;
  s_div := PrimFloat.div;
  s_opp := PrimFloat.opp;
  s_sqrt := PrimFloat.sqrt;
  s_ltb := PrimFloat.ltb;
  s_leb := PrimFloat.leb;
  s_1em15 := 1e-15%float;
  s_1em10 := 1e-10%float
|}.

Definition Rltb (x y : R) : bool := if Rlt_dec x y then true else false.
Definition Rleb (x y : R) : bool := if Rle_dec x y then true else false.

(** exact arithmetic *)
#[export] Instance real_scalar : Scalar R := {|
  s_zero := 0%R;
  s_one := 1%R;
  s_add := Rplus;
  s_sub := Rminus;
  s_mul := Rmult;
  s_div := Rdiv;
  s_opp := Ropp;
  s_sqrt := R_sqrt.sqrt;
  s_ltb := Rltb;
  s_leb := Rleb;
  s_1em15 := (/ 10 ^ 15)%R;
  s_1em10 := (/ 10 ^ 10)%R
|}.

(** ** Rows of an [(N, 3)] array *)

Record vec3 (T : Type) : Type := V3 { vx : T; vy : T; vz : T }.
Arguments V3 {T} vx vy vz.
Arguments vx {T} v.
Arguments vy {T} v.
Arguments vz {T} v.

Inductive axis : Type := A0 | A1 | A2.

Section Vec.
Context {T : Type} `{Scalar T}.
Local Open Scope scalar_scope.

Definition vget (v : vec3 T) (i : axis) : T :=
  match i with A0 => vx v | A1 => vy v | A2 => vz v end.

Definition build3 (f : axis -> T) : vec3 T := V3 (f A0) (f A1) (f A2).

(** a contraction over one axis, summed in index order *)
Definition sum3 (f : axis -> T) : T := f A0 + f A1 + f A2.

Definition vzero : vec3 T := V3 s_zero s_zero s_zero.

Definition vadd (a b : vec3 T) : vec3 T :=
  V3 (vx a + vx b) (vy a + vy b) (vz a + vz b).

Definition vsub (a b : vec3 T) : vec3 T :=
  V3 (vx a - vx b) (vy a - vy b) (vz a - vz b).

Definition vscale (t : T) (a : vec3 T) : vec3 T :=
  V3 (t * vx a) (t * vy a) (t * vz a).

(** [np.cross] *)
Definition cross (a b : vec3 T) : vec3 T :=
  V3 (vy a * vz b - vz a * vy b)
     (vz a * vx b - vx a * vz b)
     (vx a * vy b - vy a * vx b).

(** [np.einsum('i,i->', a, b)] *)
Definition dot (a b : vec3 T) : T := sum3 (fun i => vget a i * vget b i).

(** [np.linalg.norm] along the last axis *)
Definition norm (a : vec3 T) : T := s_sqrt (dot a a).

End Vec.

(** ** [_GeometryObject.py] *)

(** A 3x3 array, row by row. *)
Record mat3 (T : Type) : Type := M3 { row0 : vec3 T; row1 : vec3 T; row2 : vec3 T }.
Arguments M3 {T} row0 row1 row2.
Arguments row0 {T} m.
Arguments row1 {T} m.
Arguments row2 {T} m.

(** What [to_ndarray] hands to the transforms: an array of rank 1 (one
    3-vector), of rank 2 (a batch, trailing axis 3), or of another rank.
    [last_ok] says whether the trailing axis of an array of rank 3 or more
    broadcasts against a 3-vector. *)
Inductive ndarray (T : Type) : Type :=
| Arr0 (s : T)
| Arr1 (v : vec3 T)
| Arr2 (rows : list (vec3 T))
| ArrHigh (extra_rank : nat) (last_ok : bool).
Arguments Arr0 {T} s.
Arguments Arr1 {T} v.
Arguments Arr2 {T} rows.
Arguments ArrHigh {T} extra_rank last_ok.

Definition ndim {T} (a : ndarray T) : nat :=
  match a with
  | Arr0 _ => 0
  | Arr1 _ => 1
  | Arr2 _ => 2
  | ArrHigh k _ => 3 + k
  end.

Module GeometryObject.

Record t (T : Type) : Type := Build {
  origin : vec3 T;
  (** rows: the local x, y and z axes in external coordinates *)
  orientation : mat3 T
}.
Arguments Build {T} origin orientation.
Arguments origin {T} _.
Arguments orientation {T} _.

Section Geometry.
Context {T : Type} `{Scalar T}.
Local Open Scope scalar_scope.

(** [orientation[i, j]] *)
Definition mget (M : mat3 T) (i j : axis) : T :=
  vget (match i with A0 => row0 M | A1 => row1 M | A2 => row2 M end) j.

Definition transpose (M : mat3 T) : mat3 T :=
  M3 (build3 (fun j => mget M j A0))
     (build3 (fun j => mget M j A1))
     (build3 (fun j => mget M j A2)).

(** [np.einsum('ij,i->j', M, v)]: the repeated label [i] is the first
    index of [M], the one that numbers its rows. *)
Definition einsum_ij_i_j (M : mat3 T) (v : vec3 T) : vec3 T :=
  build3 (fun j => sum3 (fun i => mget M i j * vget v i)).

(** [np.einsum('ji,i->j', M, v)]: the repeated label [i] is the second
    index of [M], the one that numbers its columns. *)
Definition einsum_ji_i_j (M : mat3 T) (v : vec3 T) : vec3 T :=
  build3 (fun j => sum3 (fun i => mget M j i * vget v i)).

(** [xaxis /= np.linalg.norm(xaxis)] *)
Definition vdiv (a : vec3 T) (n : T) : vec3 T := V3 (vx a / n) (vy a / n) (vz a / n).

(** [np.all(xaxis == 0.0)], with [==] read through the order *)
Definition is_zero (x : T) : bool := (s_zero <=? x) && (x <=? s_zero).
Definition all_zero (a : vec3 T) : bool := is_zero (vx a) && is_zero (vy a) && is_zero (vz a).

Definition get_default_xaxis (zaxis : vec3 T) : vec3 T :=
  let xaxis := cross (V3 s_zero s_zero s_one) zaxis in
  if negb (all_zero xaxis) then vdiv xaxis (norm xaxis)
  else V3 s_one s_zero s_zero.

Definition set_orientation (self : t T) (zaxis : vec3 T) (xaxis : option (vec3 T)) : t T :=
  let xaxis := match xaxis with Some x => x | None => get_default_xaxis zaxis end in
  Build (origin self) (M3 xaxis (cross zaxis xaxis) zaxis).

(** The transforms write their result into the argument ([vector[:] = ...])
    and return it; the embedding returns the new contents. *)
Definition vector_to_external (self : t T) (vector : ndarray T) : result (ndarray T) :=
  match vector with
  | Arr2 rows => Ok (Arr2 (map (einsum_ij_i_j (orientation self)) rows))
  | Arr1 v => Ok (Arr1 (einsum_ij_i_j (orientation self) v))
  | _ => Err (Exception "vector.ndim must be 1 or 2")
  end.

Definition vector_to_local (self : t T) (vector : ndarray T) : result (ndarray T) :=
  match vector with
  | Arr2 rows => Ok (Arr2 (map (einsum_ji_i_j (orientation self)) rows))
  | Arr1 v => Ok (Arr1 (einsum_ji_i_j (orientation self) v))
  | _ => Err (Exception "vector.ndim must be 1 or 2")
  end.

(** [a + self.origin] and [a - self.origin] with numpy's broadcasting: a
    scalar becomes a 3-vector. *)
Definition broadcast_origin (op : T -> T -> T) (a : ndarray T) (o : vec3 T)
  : result (ndarray T) :=
  let row v := V3 (op (vx v) (vx o)) (op (vy v) (vy o)) (op (vz v) (vz o)) in
  match a with
  | Arr0 s => Ok (Arr1 (row (V3 s s s)))
  | Arr1 v => Ok (Arr1 (row v))
  | Arr2 rows => Ok (Arr2 (map row rows))
  | ArrHigh k true => Ok (ArrHigh k true)
  | ArrHigh k false => Err ValueError
  end.

Definition point_to_external (self : t T) (point_local : ndarray T) : result (ndarray T) :=
  (v <- vector_to_external self point_local;
   broadcast_origin s_add v (origin self))%res.

Definition point_to_local (self : t T) (point_external : ndarray T) : result (ndarray T) :=
  (d <- broadcast_origin s_sub point_external (origin self);
   vector_to_local self d)%res.

End Geometry.

(** The invariant of the frame: rows of unit length, mutually orthogonal,
    right-handed ([y = z x x], as [set_orientation] builds it). *)
Definition orthonormal (M : mat3 R) : Prop :=
  dot (row0 M) (row0 M) = 1%R /\ dot (row1 M) (row1 M) = 1%R /\
  dot (row2 M) (row2 M) = 1%R /\
  dot (row0 M) (row1 M) = 0%R /\ dot (row0 M) (row2 M) = 0%R /\
  dot (row1 M) (row2 M) = 0%R /\
  row1 M = cross (row2 M) (row0 M).

End GeometryObject.

(** ** numpy operations along the leading axis *)

Section Arrays.
Context {A B C : Type}.

(** A binary ufunc on two arrays: equal lengths pair up, an array of
    length 1 is broadcast, anything else is refused. *)
Definition broadcast2 (op : A -> B -> C) (a : list A) (b : list B) : result (list C) :=
  if Nat.eqb (length a) (length b) then Ok (zip_with op a b)
  else match a, b with
       | [x], _ => Ok (map (op x) b)
       | _, [y] => Ok (map (fun x => op x y) a)
       | _, _ => Err ValueError
       end.

(** [a[m]] for a boolean array [m]: the rows of [a] where [m] holds.  The
    boolean index must be as long as [a]. *)
Fixpoint select (a : list A) (m : list bool) : list A :=
  match a, m with
  | x :: a', b :: m' => if b then x :: select a' m' else select a' m'
  | _, _ => []
  end.

Definition mask_select (a : list A) (m : list bool) : result (list A) :=
  if Nat.eqb (length a) (length m) then Ok (select a m) else Err IndexError.

(** [a[m] = v] for one value [v] *)
Definition mask_fill (a : list A) (m : list bool) (v : A) : result (list A) :=
  if Nat.eqb (length a) (length m)
  then Ok (zip_with (fun x (b : bool) => if b then v else x) a m)
  else Err IndexError.

(** [a[m] = vals]: the values go, in order, to the places where [m] holds *)
Fixpoint scatter (a : list A) (m : list bool) (vals : list A) : list A :=
  match a, m with
  | x :: a', true :: m' =>
      match vals with
      | v :: vals' => v :: scatter a' m' vals'
      | [] => x :: scatter a' m' []
      end
  | x :: a', false :: m' => x :: scatter a' m' vals
  | _, _ => a
  end.

Definition count_true (m : list bool) : nat := length (List.filter (fun b : bool => b) m).

Definition mask_assign (a : list A) (m : list bool) (vals : list A) : result (list A) :=
  if negb (Nat.eqb (length a) (length m)) then Err IndexError
  else if Nat.eqb (length vals) (count_true m) then Ok (scatter a m vals)
  else match vals with
       | [v] => Ok (zip_with (fun x (b : bool) => if b then v else x) a m)
       | _ => Err ValueError
       end.

(** [a[idx]] for an integer array [idx] *)
Fixpoint take (a : list A) (idx : list nat) : result (list A) :=
  match idx with
  | [] => Ok []
  | i :: idx' =>
      (x <- of_option IndexError (a !! i);
       xs <- take a idx';
       Ok (x :: xs))%res
  end.

Fixpoint map_res (f : A -> result B) (l : list A) : result (list B) :=
  match l with
  | [] => Ok []
  | a :: l' =>
      (b <- f a;
       bs <- map_res f l';
       Ok (b :: bs))%res
  end.

(** Two arrays of one shape combined entry by entry; shapes that differ
    are refused (numpy would still broadcast an axis of length 1, which
    no caller in this module passes). *)
Definition zip_exact (op : A -> B -> C) (a : list A) (b : list B) : result (list C) :=
  if Nat.eqb (length a) (length b) then Ok (zip_with op a b) else Err ValueError.

End Arrays.

(** [m &= c]: the result is written into [m], so it keeps the shape of [m];
    [c] may be as long as [m] or have length 1. *)
Definition iand (m c : list bool) : result (list bool) :=
  if Nat.eqb (length c) (length m) then Ok (zip_with andb m c)
  else match c with
       | [y] => Ok (map (fun x => x && y) m)
       | _ => Err ValueError
       end.

Definition np_any (m : list bool) : bool := existsb (fun b : bool => b) m.

(** [np.argmax] of a boolean column: the first [True], 0 when there is
    none, refused on an empty column. *)
Fixpoint first_true (c : list bool) : nat :=
  match c with
  | [] => 0
  | true :: _ => 0
  | false :: c' => if np_any c' then S (first_true c') else 0
  end.

Definition argmax (c : list bool) : result nat :=
  match c with
  | [] => Err ValueError
  | _ => Ok (first_true c)
  end.

(** A two-dimensional array of shape [(K, N)] whose second axis numbers
    the rays or the vertices is kept column by column: the outer list has
    [N] entries, each the [K] values of one column. *)
Abbreviation table A := (list (list A)) (only parsing).

(** ** [_XicsrtOpticMesh.py] *)

(** The ray batch: a dictionary of parallel arrays.  [mask] is the array
    the intersection tests update in place. *)
Record RayBatch (T : Type) : Type := Rays {
  rays_origin : list (vec3 T);
  rays_direction : list (vec3 T);
  rays_mask : list bool;
  rays_wavelength : list T;
  rays_weight : list T
}.
Arguments Rays {T} _ _ _ _ _.
Arguments rays_origin {T} _.
Arguments rays_direction {T} _.
Arguments rays_mask {T} _.
Arguments rays_wavelength {T} _.
Arguments rays_weight {T} _.

Definition set_mask {T} (rays : RayBatch T) (m : list bool) : RayBatch T :=
  Rays (rays_origin rays) (rays_direction rays) m (rays_wavelength rays) (rays_weight rays).

(** A row of the [(F, 3)] integer array [faces]. *)
Definition face : Type := nat * nat * nat.
Definition face0 (f : face) : nat := fst (fst f).
Definition face1 (f : face) : nat := snd (fst f).
Definition face2 (f : face) : nat := snd f.

(** The four interpolators of [mesh['interp']], each called on the [x]
    and [y] columns. *)
Record Interp (T : Type) : Type := MkInterp {
  interp_z : T -> T -> T;
  interp_normal_x : T -> T -> T;
  interp_normal_y : T -> T -> T;
  interp_normal_z : T -> T -> T
}.
Arguments MkInterp {T} _ _ _ _.
Arguments interp_z {T} _.
Arguments interp_normal_x {T} _.
Arguments interp_normal_y {T} _.
Arguments interp_normal_z {T} _.

(** scipy, as far as this module uses it: [cKDTree(points).query(x)[1]],
    the index of a point nearest to [x], and the interpolator built from
    scattered [(x, y)] sites and their values. *)
Class Scipy (T : Type) : Type := {
  cKDTree_query : list (vec3 T) -> vec3 T -> nat;
  Interpolator : list (T * T) -> list T -> T -> T -> T
}.

(** The dictionary [_mesh_precalc] returns ([faces_center] is written
    there and never read again; it is left out). *)
Record Mesh (T : Type) : Type := MkMesh {
  mesh_faces : list face;
  mesh_points : list (vec3 T);
  mesh_normals_in : option (list (vec3 T));
  mesh_interp : option (Interp T);
  faces_normal : list (vec3 T);
  points_tree : vec3 T -> nat;
  p_faces_idx : table nat;
  p_faces_mask : table bool
}.
Arguments MkMesh {T} _ _ _ _ _ _ _ _.
Arguments mesh_faces {T} _.
Arguments mesh_points {T} _.
Arguments mesh_normals_in {T} _.
Arguments mesh_interp {T} _.
Arguments faces_normal {T} _.
Arguments points_tree {T} _.
Arguments p_faces_idx {T} _.
Arguments p_faces_mask {T} _.

(** What [self.log] receives. *)
Inductive LogRecord : Type :=
| Debug_rays_on (n : nat)
| Debug_rays_from (n : nat)
| Warning_rays_lost (num_rays_lost : Z) (num_rays_coarse : nat).

Module XicsrtOpticMesh.

Section Mesh.
Context {T : Type} `{Scalar T}.
Local Open Scope scalar_scope.
Local Open Scope res.

(** *** [mesh_intersect_1] *)

(** The arrays the face loop updates. *)
Record loop_state : Type := LoopState {
  m_temp_2 : list bool;
  hits : list (option nat);   (* [np.empty]: [None] where nothing was written *)
  X : list (vec3 T)
}.

Definition epsilon : T := s_1em15.

(** One pass of the loop over the faces, for the face [ii] with corners
    [p0[ii]], [p1[ii]], [p2[ii]].  A [continue] returns the state as it
    is. *)
Definition face_body (O D : list (vec3 T)) (m : list bool)
    (ii : nat) (P0 P1 P2 : vec3 T) (st : loop_state) : result loop_state :=
  let m_temp := m in
  let edge1 := vsub P1 P0 in
  let edge2 := vsub P2 P0 in
  D_m <- mask_select D m_temp;
  let h := map (fun d => cross d edge2) D_m in
  let f := map (fun hj => dot edge1 hj) h in
  m_temp <- iand m_temp (map (fun fj => negb ((fj >? - epsilon) && (fj <? epsilon))) f);
  if negb (np_any m_temp) then Ok st else
  let f := map (fun fj => s_one / fj) f in
  let s := map (fun o => vsub o P0) O in
  sh <- broadcast2 dot s h;
  u <- broadcast2 s_mul f sh;
  m_temp <- iand m_temp (map (fun uj => negb ((uj <? s_zero) || (uj >? s_one))) u);
  if negb (np_any m_temp) then Ok st else
  let q := map (fun sj => cross sj edge1) s in
  Dq <- broadcast2 dot D q;
  v <- broadcast2 s_mul f Dq;
  upv <- broadcast2 s_add u v;
  out <- broadcast2 orb (map (fun vj => vj <? s_zero) v) (map (fun x => x >? s_one) upv);
  m_temp <- iand m_temp (map negb out);
  if negb (np_any m_temp) then Ok st else
  let e2q := map (fun qj => dot edge2 qj) q in
  t <- broadcast2 s_mul f e2q;
  (* Update overall hit array and hit mask. *)
  mm <- mask_select m_temp m_temp;
  m_temp_2' <- mask_assign (m_temp_2 st) m_temp mm;
  hits' <- mask_fill (hits st) m_temp (Some ii);
  O_m <- mask_select O m_temp;
  t_m <- mask_select t m_temp;
  D_m <- mask_select D m_temp;
  tD <- broadcast2 vscale t_m D_m;
  rhs <- broadcast2 vadd O_m tD;
  X' <- mask_assign (X st) m_temp rhs;
  Ok (LoopState m_temp_2' hits' X').

(** [for ii in range(faces.shape[0])] *)
Fixpoint face_loop (O D : list (vec3 T)) (m : list bool) (ii : nat)
    (p0 p1 p2 : list (vec3 T)) (st : loop_state) : result loop_state :=
  match p0, p1, p2 with
  | P0 :: p0', P1 :: p1', P2 :: p2' =>
      st' <- face_body O D m ii P0 P1 P2 st;
      face_loop O D m (S ii) p0' p1' p2' st'
  | _, _, _ => Ok st
  end.

(** The result of the call and the batch as the call leaves it.  The only
    write to the batch is the last statement, [m &= m_temp_2]; a call that
    raises before it leaves the batch as it was. *)
Definition mesh_intersect_1 (rays : RayBatch T) (mesh : Mesh T)
  : result (list (vec3 T) * list (option nat)) * RayBatch T :=
  let O := rays_origin rays in
  let D := rays_direction rays in
  let m := rays_mask rays in
  let X0 := replicate (length D) vzero in
  let run :=
    p0 <- take (mesh_points mesh) (map face0 (mesh_faces mesh));
    p1 <- take (mesh_points mesh) (map face1 (mesh_faces mesh));
    p2 <- take (mesh_points mesh) (map face2 (mesh_faces mesh));
    let num_rays := length m in
    let st0 := LoopState (replicate num_rays false) (replicate num_rays None) X0 in
    st <- face_loop O D m 0 p0 p1 p2 st0;
    m' <- iand m (m_temp_2 st);
    Ok (st, m') in
  match run with
  | Ok (st, m') => (Ok (X st, hits st), set_mask rays m')
  | Err e => (Err e, rays)
  end.

(** *** [mesh_intersect_2] *)

(** One entry of the gathered arrays [p0], [p1], [p2] and [n]: the corners
    and the normal of one candidate face of one ray. *)
Record candidate : Type := Cand {
  c_p0 : vec3 T;
  c_p1 : vec3 T;
  c_p2 : vec3 T;
  c_n : vec3 T
}.

(** [faces = mesh['faces'][faces_idx]], [p0 = mesh['points'][faces[..., 0], :]]
    (and [p1], [p2]), [n = mesh['faces_normal'][faces_idx]], at one entry
    of [faces_idx]; an index out of range raises. *)
Definition gather_candidate (mesh : Mesh T) (fi : nat) : result candidate :=
  f <- of_option IndexError (mesh_faces mesh !! fi);
  P0 <- of_option IndexError (mesh_points mesh !! face0 f);
  P1 <- of_option IndexError (mesh_points mesh !! face1 f);
  P2 <- of_option IndexError (mesh_points mesh !! face2 f);
  n <- of_option IndexError (faces_normal mesh !! fi);
  Ok (Cand P0 P1 P2 n).

(** [np.einsum('jk,ij->ijk', D, dist)] at one entry *)
Definition vscale_r (d : vec3 T) (dist : T) : vec3 T :=
  V3 (vx d * dist) (vy d * dist) (vz d * dist).

(** The arrays [dist], [intersect] and [diff] at the entry of the ray with
    origin [o] and direction [d] and the candidate [c]. *)
Definition cand_dist (o d : vec3 T) (c : candidate) : T :=
  let t1 := dot (vsub (c_p0 c) o) (c_n c) in
  let t2 := dot d (c_n c) in
  t1 / t2.

Definition cand_intersect (o d : vec3 T) (c : candidate) : vec3 T :=
  vadd (vscale_r d (cand_dist o d c)) o.

Definition cand_diff (o d : vec3 T) (c : candidate) : T :=
  let intersect := cand_intersect o d c in
  let a := vsub intersect (c_p0 c) in
  let b := vsub intersect (c_p1 c) in
  let c' := vsub intersect (c_p2 c) in
  norm (cross b c') + norm (cross c' a) + norm (cross a b)
  - norm (cross (vsub (c_p0 c) (c_p1 c)) (vsub (c_p0 c) (c_p2 c))).

(** [(diff < 1e-10) & (dist >= 0)] *)
Definition cand_inside (o d : vec3 T) (c : candidate) : bool :=
  (cand_diff o d c <? s_1em10) && (cand_dist o d c >=? s_zero).

(** The rows of a [(K, N)] table; a table without columns is taken to be
    one of [find_point_faces], which has 8 rows. *)
Definition table_rows {A} (tbl : table A) : nat :=
  match tbl with
  | c :: _ => length c
  | [] => 8
  end.

(** The result of the call and the batch as the call leaves it.  The mask
    is written by [m &= np.any(test, axis=0)]; what raises before leaves
    the batch as it was, what raises after leaves the new mask. *)
Definition mesh_intersect_2 (rays : RayBatch T) (mesh : Mesh T)
    (faces_idx : table nat) (faces_mask : table bool)
  : result (list (vec3 T) * list (option nat)) * RayBatch T :=
  let O := rays_origin rays in
  let D := rays_direction rays in
  let m := rays_mask rays in
  let num_rays := length m in
  let X0 := replicate (length D) vzero in
  let hits0 : list (option nat) := replicate num_rays None in
  let tested :=
    cands <- map_res (map_res (gather_candidate mesh)) faces_idx;
    OD <- zip_exact pair O D;
    intersect <- zip_exact (fun od col => map (cand_intersect od.1 od.2) col) OD cands;
    inside <- zip_exact (fun od col => map (cand_inside od.1 od.2) col) OD cands;
    test <- zip_exact (zip_exact andb) inside faces_mask;
    test <- map_res (fun r => r) test;
    m' <- iand m (map np_any test);
    Ok (intersect, test, m') in
  match tested with
  | Err e => (Err e, rays)
  | Ok (intersect, test, m') =>
      let picked :=
        (* idx_hits tells us which of the 8 faces had a hit. *)
        test_m <- mask_select test m';
        idx_hits <- (if Nat.eqb (table_rows test) 0 then Err ValueError
                     else map_res argmax test_m);
        (* Now index the faces_idx to get the actual face number. *)
        fidx_m <- mask_select faces_idx m';
        hit_faces <- zip_exact (fun (col : list nat) i => of_option IndexError (col !! i))
                       fidx_m idx_hits;
        hit_faces <- map_res (fun r => r) hit_faces;
        hits' <- mask_assign hits0 m' (map Some hit_faces);
        int_m <- mask_select intersect m';
        hit_X <- zip_exact (fun (col : list (vec3 T)) i => of_option IndexError (col !! i))
                   int_m idx_hits;
        hit_X <- map_res (fun r => r) hit_X;
        X' <- mask_assign X0 m' hit_X;
        Ok (X', hits') in
      (picked, set_mask rays m')
  end.

(** *** [mesh_interpolate] *)

(** [mask] is accepted and not used: every row of [X] is interpolated. *)
Definition mesh_interpolate (X : list (vec3 T)) (mesh : Mesh T) (mask : list bool)
  : result (list (vec3 T) * list (vec3 T)) :=
  interp <- of_option (KeyError "interp") (mesh_interp mesh);
  (* X[:, 2] = mesh['interp']['z'](X[:, 0], X[:, 1]) *)
  let X := map (fun p => V3 (vx p) (vy p) (interp_z interp (vx p) (vy p))) X in
  let normals :=
    map (fun p => V3 (interp_normal_x interp (vx p) (vy p))
                     (interp_normal_y interp (vx p) (vy p))
                     (interp_normal_z interp (vx p) (vy p))) X in
  (* np.einsum('i,ij->ij', np.linalg.norm(normals, axis=1), normals) *)
  let normals := map (fun n => vscale (norm n) n) normals in
  Ok (X, normals).

(** *** [find_point_faces] *)

(** [np.nonzero(np.equal(faces, p))[0]]: the row of every entry of
    [faces] equal to [p], in row-major order. *)
Fixpoint nonzero_rows (row : nat) (faces : list face) (p : nat) : list nat :=
  match faces with
  | [] => []
  | f :: faces' =>
      (if Nat.eqb (face0 f) p then [row] else []) ++
      (if Nat.eqb (face1 f) p then [row] else []) ++
      (if Nat.eqb (face2 f) p then [row] else []) ++
      nonzero_rows (S row) faces' p
  end.

(** The adjacency degree of the vertex [p]: the number of entries of
    [faces] that name it. *)
Definition degree (faces : list face) (p : nat) : nat := length (nonzero_rows 0 faces p).

(** [col[:stop] = vals]: the slice stops at the end of the column; the
    values must fill it exactly, or be a single value. *)
Definition slice_assign {A} (col : list A) (stop : nat) (vals : list A) : result (list A) :=
  let n := Nat.min stop (length col) in
  if Nat.eqb (length vals) n then Ok (vals ++ drop n col)
  else match vals with
       | [v] => Ok (replicate n v ++ drop n col)
       | _ => Err ValueError
       end.

(** [col[:stop] = v] for one value *)
Definition slice_fill {A} (col : list A) (stop : nat) (v : A) : list A :=
  let n := Nat.min stop (length col) in
  replicate n v ++ drop n col.

Definition point_faces_step (p_idx : list nat) (faces : list face)
    (tbl : table nat * table bool) (ii_p : nat) : result (table nat * table bool) :=
  p <- of_option IndexError (p_idx !! ii_p);
  let ii_f := nonzero_rows 0 faces p in
  let faces_num := length ii_f in
  col <- of_option IndexError (tbl.1 !! ii_p);
  col' <- slice_assign col faces_num ii_f;
  colm <- of_option IndexError (tbl.2 !! ii_p);
  Ok (<[ii_p := col']> (tbl.1), <[ii_p := slice_fill colm faces_num true]> (tbl.2)).

Fixpoint point_faces_loop (p_idx : list nat) (faces : list face)
    (todo : list nat) (tbl : table nat * table bool) : result (table nat * table bool) :=
  match todo with
  | [] => Ok tbl
  | ii_p :: todo' =>
      tbl' <- point_faces_step p_idx faces tbl ii_p;
      point_faces_loop p_idx faces todo' tbl'
  end.

Definition find_point_faces (p_idx : list nat) (faces : list face)
    (mask : option (list bool)) : result (table nat * table bool) :=
  let m := match mask with
           | None => replicate (length p_idx) true
           | Some m => m
           end in
  let p_faces_idx := replicate (length m) (replicate 8 0) in
  let p_faces_mask := replicate (length m) (replicate 8 false) in
  point_faces_loop p_idx faces p_idx (p_faces_idx, p_faces_mask).

(** *** [find_near_faces] *)

Definition find_near_faces (X : list (vec3 T)) (mesh : Mesh T)
  : result (table nat * table bool) :=
  let idx := map (points_tree mesh) X in
  faces_idx <- take (p_faces_idx mesh) idx;
  faces_mask <- take (p_faces_mask mesh) idx;
  Ok (faces_idx, faces_mask).

(** *** [_mesh_precalc] *)

Definition _mesh_precalc `{Scipy T} (mesh_interpolate : bool)
    (points : list (vec3 T)) (normals : option (list (vec3 T))) (faces : list face)
  : result (Mesh T) :=
  interp <-
    (if mesh_interpolate then
       match normals with
       | None => Err TypeError
       | Some ns =>
           let xy := map (fun p => (vx p, vy p)) points in
           Ok (Some (MkInterp (Interpolator xy (map vz points))
                              (Interpolator xy (map vx ns))
                              (Interpolator xy (map vy ns))
                              (Interpolator xy (map vz ns))))
       end
     else Ok None);
  p0 <- take points (map face0 faces);
  p1 <- take points (map face1 faces);
  p2 <- take points (map face2 faces);
  (* Calculate the normals at each face. *)
  e01 <- zip_exact vsub p0 p1;
  e21 <- zip_exact vsub p2 p1;
  fn <- zip_exact cross e01 e21;
  let faces_normal := map (fun n => GeometryObject.vdiv n (norm n)) fn in
  (* Build up a lookup table for the faces around each point. *)
  let points_idx := seq 0 (length points) in
  pf <- find_point_faces points_idx faces None;
  Ok (MkMesh faces points normals interp faces_normal (cKDTree_query points) pf.1 pf.2).

(** *** [trace]: the intersection stage *)

(** The entries of [self.param] the stage reads. *)
Record Param : Type := MkParam {
  param_mesh_refine : option bool;
  param_mesh : Mesh T;
  param_mesh_coarse : option (Mesh T)
}.

(** What the stage changes: the batch and the log. *)
Record World : Type := MkWorld {
  w_rays : RayBatch T;
  w_log : list LogRecord
}.

Definition log_append (w : World) (r : LogRecord) : World :=
  MkWorld (w_rays w) (w_log w ++ [r]).

Definition set_rays (w : World) (rays : RayBatch T) : World :=
  MkWorld rays (w_log w).

(** [np.sum(rays['mask'])] *)
Definition num_rays (w : World) : nat := count_true (rays_mask (w_rays w)).

(** The [else] branch of [if not self.param['mesh_refine']]. *)
Definition trace_refine (param : Param) (w : World)
  : result (list (vec3 T) * list (option nat)) * World :=
  match param_mesh_coarse param with
  | None => (Err (KeyError "mesh_coarse"), w)
  | Some mesh_coarse =>
      let '(r1, rays) := mesh_intersect_1 (w_rays w) mesh_coarse in
      let w := set_rays w rays in
      match r1 with
      | Err e => (Err e, w)
      | Ok (X_c, hits_c) =>
          let num_rays_coarse := num_rays w in
          match find_near_faces X_c (param_mesh param) with
          | Err e => (Err e, w)
          | Ok (faces_idx, faces_mask) =>
              let '(r2, rays) :=
                mesh_intersect_2 (w_rays w) (param_mesh param) faces_idx faces_mask in
              let w := set_rays w rays in
              match r2 with
              | Err e => (Err e, w)
              | Ok (X, hits) =>
                  let num_rays_fine := num_rays w in
                  let num_rays_lost := (Z.of_nat num_rays_coarse - Z.of_nat num_rays_fine)%Z in
                  let w := if negb (Z.eqb num_rays_lost 0)
                           then log_append w (Warning_rays_lost num_rays_lost num_rays_coarse)
                           else w in
                  (Ok (X, hits), w)
              end
          end
      end
  end.


End Mesh.

(** *** [get_default_config] and [check_param] *)

(** The values of the configuration this module looks at. *)
Inductive pyval : Type :=
| PyNone
| PyBool (b : bool)
| PyArray (name : string).

Definition is_None (v : pyval) : bool :=
  match v with PyNone => true | _ => false end.

(** [d[key]] *)
Definition getitem (d : gmap string pyval) (key : string) : result pyval :=
  of_option (KeyError key) (d !! key).

(** The entries this class adds to [super().get_default_config()]. *)
Definition get_default_config (super_config : gmap string pyval) : gmap string pyval :=
  let config := super_config in
  let config := <["use_meshgrid" := PyBool false]> config in
  let config := <["mesh_points" := PyNone]> config in
  let config := <["mesh_faces" := PyNone]> config in
  let config := <["mesh_normals" := PyNone]> config in
  let config := <["mesh_coarse_points" := PyNone]> config in
  let config := <["mesh_coarse_faces" := PyNone]> config in
  let config := <["mesh_coarse_normals" := PyNone]> config in
  let config := <["mesh_interpolate" := PyBool true]> config in
  let config := <["mesh_refine" := PyNone]> config in
  config.

(** The body of [check_param] after [super().check_param()], on
    [self.param]. *)
Definition check_param (param : gmap string pyval) : result (gmap string pyval) :=
  (mesh_normals <- getitem param "mesh_normals";
   let param := if is_None mesh_normals
                then <["mesh_interpolate" := PyBool false]> param
                else param in
   mesh_refine <- getitem param "mesh_refine";
   if is_None mesh_refine then
     mesh_course_points <- getitem param "mesh_course_points";
     if negb (is_None mesh_course_points)
     then Ok (<["mesh_refine" := PyBool true]> param)
     else Ok param
   else Ok param)%res.

End XicsrtOpticMesh.

(** ** The exhaustive test seen from one ray

    What the arrays of the face loop of [mesh_intersect_1] hold in the row
    of one ray with origin [o] and direction [d], for one face.  [dh] is
    the row of [D[m_temp]] that [h] and [f] were computed from; for a ray
    that is active it is the ray's own direction. *)

Record triangle (T : Type) : Type := Tri { t_p0 : vec3 T; t_p1 : vec3 T; t_p2 : vec3 T }.
Arguments Tri {T} _ _ _.
Arguments t_p0 {T} _.
Arguments t_p1 {T} _.
Arguments t_p2 {T} _.

Section RayView.
Context {T : Type} `{Scalar T}.
Local Open Scope scalar_scope.
Import XicsrtOpticMesh.

Definition mt_edge1 (tri : triangle T) : vec3 T := vsub (t_p1 tri) (t_p0 tri).
Definition mt_edge2 (tri : triangle T) : vec3 T := vsub (t_p2 tri) (t_p0 tri).

Definition mt_h (dh : vec3 T) (tri : triangle T) : vec3 T := cross dh (mt_edge2 tri).

(** [f] before [f = 1.0 / f] *)
Definition mt_f (dh : vec3 T) (tri : triangle T) : T := dot (mt_edge1 tri) (mt_h dh tri).

Definition mt_s (o : vec3 T) (tri : triangle T) : vec3 T := vsub o (t_p0 tri).
Definition mt_q (o : vec3 T) (tri : triangle T) : vec3 T := cross (mt_s o tri) (mt_edge1 tri).

Definition mt_u (o dh : vec3 T) (tri : triangle T) : T :=
  (s_one / mt_f dh tri) * dot (mt_s o tri) (mt_h dh tri).

Definition mt_v (o d dh : vec3 T) (tri : triangle T) : T :=
  (s_one / mt_f dh tri) * dot d (mt_q o tri).

Definition mt_t (o dh : vec3 T) (tri : triangle T) : T :=
  (s_one / mt_f dh tri) * dot (mt_edge2 tri) (mt_q o tri).

(** the three tests: each is [true] on a ray the face rejects *)
Definition near_parallel (dh : vec3 T) (tri : triangle T) : bool :=
  (mt_f dh tri >? - epsilon) && (mt_f dh tri <? epsilon).

Definition u_outside (o dh : vec3 T) (tri : triangle T) : bool :=
  (mt_u o dh tri <? s_zero) || (mt_u o dh tri >? s_one).

Definition v_outside (o d dh : vec3 T) (tri : triangle T) : bool :=
  (mt_v o d dh tri <? s_zero) || (mt_u o dh tri + mt_v o d dh tri >? s_one).

Definition accepts_h (o d dh : vec3 T) (tri : triangle T) : bool :=
  negb (near_parallel dh tri) && negb (u_outside o dh tri) && negb (v_outside o d dh tri).

Definition hit_point_h (o d dh : vec3 T) (tri : triangle T) : vec3 T :=
  vadd o (vscale (mt_t o dh tri) d).

(** for the ray's own direction *)
Definition accepts (o d : vec3 T) (tri : triangle T) : bool := accepts_h o d d tri.
Definition hit_point (o d : vec3 T) (tri : triangle T) : vec3 T := hit_point_h o d d tri.

(** The entries of [m_temp_2], [hits] and [X] of one ray. *)
Definition ray_state : Type := bool * option nat * vec3 T.

Definition ray_step (active : bool) (o d : vec3 T) (ii : nat) (tri : triangle T)
    (st : ray_state) : ray_state :=
  if active && accepts o d tri then (true, Some ii, hit_point o d tri) else st.

Fixpoint ray_scan (active : bool) (o d : vec3 T) (ii : nat) (tris : list (triangle T))
    (st : ray_state) : ray_state :=
  match tris with
  | [] => st
  | tri :: tris' => ray_scan active o d (S ii) tris' (ray_step active o d ii tri st)
  end.

(** The last face, in the order of the loop, that accepts the ray: its
    index (counted from [ii]) and its corners. *)
Fixpoint last_hit (o d : vec3 T) (ii : nat) (tris : list (triangle T))
  : option (nat * triangle T) :=
  match tris with
  | [] => None
  | tri :: tris' =>
      match last_hit o d (S ii) tris' with
      | Some h => Some h
      | None => if accepts o d tri then Some (ii, tri) else None
      end
  end.

(** The corners of the faces: [p0], [p1], [p2] of [mesh_intersect_1], row
    by row. *)
Definition mesh_triangles (mesh : Mesh T) : result (list (triangle T)) :=
  (p0 <- take (mesh_points mesh) (map face0 (mesh_faces mesh));
   p1 <- take (mesh_points mesh) (map face1 (mesh_faces mesh));
   p2 <- take (mesh_points mesh) (map face2 (mesh_faces mesh));
   Ok (zip_with (fun P0 P12 => Tri P0 P12.1 P12.2) p0 (zip p1 p2)))%res.

(** A batch is well formed when its arrays have one length. *)
Definition rays_wf (rays : RayBatch T) : Prop :=
  length (rays_origin rays) = length (rays_mask rays) /\
  length (rays_direction rays) = length (rays_mask rays).

(** The masks the first in-place update of the loop accepts: every ray
    active, or exactly one. *)
Definition mask_shape_ok (m : list bool) : Prop :=
  count_true m = length m \/ count_true m = 1.

(** One ray of the batch with its row of the loop state; [r_dh] as above. *)
Record row : Type := Row {
  r_o : vec3 T;
  r_d : vec3 T;
  r_dh : vec3 T;
  r_m : bool;
  r_mt2 : bool;
  r_hit : option nat;
  r_x : vec3 T
}.

Definition row_state (r : row) : ray_state := (r_mt2 r, r_hit r, r_x r).

Definition set_state (r : row) (st : ray_state) : row :=
  Row (r_o r) (r_d r) (r_dh r) (r_m r) st.1.1 st.1.2 st.2.

Definition step_row (ii : nat) (tri : triangle T) (r : row) : row :=
  set_state r (ray_step (r_m r) (r_o r) (r_d r) ii tri (row_state r)).

Definition scan_row (ii : nat) (tris : list (triangle T)) (r : row) : row :=
  set_state r (ray_scan (r_m r) (r_o r) (r_d r) ii tris (row_state r)).

Definition state_of (rows : list row) : loop_state :=
  LoopState (map r_mt2 rows) (map r_hit rows) (map r_x rows).

(** The rows of a batch on entry to the loop. *)
Fixpoint mk_rows (O D Dh : list (vec3 T)) (m : list bool) : list row :=
  match O, D, Dh, m with
  | o :: O', d :: D', dh :: Dh', b :: m' =>
      Row o d dh b false None vzero :: mk_rows O' D' Dh' m'
  | _, _, _, _ => []
  end.

(** *** What a test may do to the rays that are inactive on entry *)

(** The batch after a call, against the batch before it: nothing but the
    mask has changed, and the mask has only lost entries. *)
Definition frame_kept (rays rays' : RayBatch T) : Prop :=
  rays_origin rays' = rays_origin rays /\
  rays_direction rays' = rays_direction rays /\
  rays_wavelength rays' = rays_wavelength rays /\
  rays_weight rays' = rays_weight rays /\
  length (rays_mask rays') = length (rays_mask rays) /\
  forall j, rays_mask rays !! j = Some false -> rays_mask rays' !! j = Some false.

(** The rows of [X] and [hits] of the rays inactive on entry were never
    written: the zero row of [np.zeros] and the unwritten [np.empty]. *)
Definition untouched (r : result (list (vec3 T) * list (option nat)))
    (m : list bool) : Prop :=
  forall X hits, r = Ok (X, hits) ->
  forall j, m !! j = Some false -> X !! j = Some vzero /\ hits !! j = Some None.

(** Two batches that differ at most in the origins and directions of the
    inactive rays (and in the ancillary arrays). *)
Definition same_active (rays1 rays2 : RayBatch T) : Prop :=
  rays_mask rays2 = rays_mask rays1 /\
  forall j, rays_mask rays1 !! j = Some true ->
    rays_origin rays2 !! j = rays_origin rays1 !! j /\
    rays_direction rays2 !! j = rays_direction rays1 !! j.

(** *** The candidate-restricted test seen from one ray *)

(** The column of [test] of one ray: [(diff < 1e-10) & (dist >= 0) &
    faces_mask], candidate by candidate. *)
Definition cand_tests (o d : vec3 T) (cands : list candidate) (valid : list bool)
  : list bool :=
  zip_with andb (map (cand_inside o d) cands) valid.

(** The inside test as the specification words it: the areas of the three
    triangles that the point [intersect] spans with the edges, summed,
    differ from the area of the face by less than [1e-10]; the area of a
    triangle is half the norm of the cross product of two of its edge
    vectors. *)
Definition triangle_area (a b : vec3 T) : T :=
  s_one / (s_one + s_one) * norm (cross a b).

Definition spec_area_diff (o d : vec3 T) (c : candidate) : T :=
  let P := cand_intersect o d c in
  triangle_area (vsub P (c_p1 c)) (vsub P (c_p2 c))
  + triangle_area (vsub P (c_p2 c)) (vsub P (c_p0 c))
  + triangle_area (vsub P (c_p0 c)) (vsub P (c_p1 c))
  - triangle_area (vsub (c_p0 c) (c_p1 c)) (vsub (c_p0 c) (c_p2 c)).

Definition spec_cand_passes (o d : vec3 T) (c : candidate) (valid : bool) : bool :=
  valid && (cand_dist o d c >=? s_zero)
  && (spec_area_diff o d c <? s_1em10) && (spec_area_diff o d c >? - s_1em10).

(** All shapes of the call agree: one column of [K] candidates per ray. *)
Definition candidates_wf (rays : RayBatch T) (K : nat)
    (faces_idx : table nat) (faces_mask : table bool) : Prop :=
  rays_wf rays /\
  length faces_idx = length (rays_mask rays) /\
  length faces_mask = length (rays_mask rays) /\
  0 < K /\
  Forall (fun c => length c = K) faces_idx /\
  Forall (fun c => length c = K) faces_mask.

(** One ray of the batch with its columns of the candidate tables. *)
Record cand_row : Type := CandRow {
  q_o : vec3 T;
  q_d : vec3 T;
  q_m : bool;
  q_idx : list nat;
  q_valid : list bool;
  q_cands : list (@candidate T)
}.

Fixpoint mk_rows2 (O D : list (vec3 T)) (m : list bool) (fi : table nat)
    (fm : table bool) (cands : table (@candidate T)) : list cand_row :=
  match O, D, m, fi, fm, cands with
  | o :: O', d :: D', a :: m', ci :: fi', cm :: fm', cc :: cands' =>
      CandRow o d a ci cm cc :: mk_rows2 O' D' m' fi' fm' cands'
  | _, _, _, _, _, _ => []
  end.

Definition q_test (r : cand_row) : list bool := cand_tests (q_o r) (q_d r) (q_cands r) (q_valid r).

(** the new mask entry of the ray *)
Definition q_hit (r : cand_row) : bool := q_m r && np_any (q_test r).

(** the column of [intersect] of the ray *)
Definition q_intersect (r : cand_row) : list (vec3 T) :=
  map (cand_intersect (q_o r) (q_d r)) (q_cands r).

(** the entries of [hits] and [X] of the ray after the call *)
Definition q_face (r : cand_row) : option nat :=
  if q_hit r then Some (nth (first_true (q_test r)) (q_idx r) 0) else None.

Definition q_X (r : cand_row) : vec3 T :=
  if q_hit r then nth (first_true (q_test r)) (q_intersect r) vzero else vzero.

(** *** The refinement stage *)

(** What [_mesh_precalc] leaves in a mesh that the refinement can use:
    one adjacency column of [K] slots per vertex in either table, every
    slot the index of a face whose corners and normal exist, and a tree
    that answers with the index of a vertex. *)
Definition mesh_tables_wf (mesh : Mesh T) (K : nat) : Prop :=
  0 < K /\
  length (p_faces_mask mesh) = length (p_faces_idx mesh) /\
  Forall (fun c => length c = K) (p_faces_idx mesh) /\
  Forall (fun c => length c = K) (p_faces_mask mesh) /\
  (forall col fi, In col (p_faces_idx mesh) -> In fi col ->
     exists c, gather_candidate mesh fi = Ok c) /\
  (forall x, points_tree mesh x < length (p_faces_idx mesh)).

End RayView.

(** [a] has the shape of [map g l], or is a single value that every row
    of [l] shares: what broadcasting against an array over [l] accepts. *)
Definition bcast {R A} (a : list A) (g : R -> A) (l : list R) : Prop :=
  a = map g l \/ exists c, a = [c] /\ forall r, In r l -> g r = c.

(** The adjacency column of a vertex when it fits: its faces, then padding. *)
Definition full_column (faces : list face) (v : nat) : list nat :=
  XicsrtOpticMesh.nonzero_rows 0 faces v
  ++ replicate (8 - XicsrtOpticMesh.degree faces v) 0.

Definition full_mask (faces : list face) (v : nat) : list bool :=
  replicate (XicsrtOpticMesh.degree faces v) true
  ++ replicate (8 - XicsrtOpticMesh.degree faces v) false.

(** The tables while the loop of [find_point_faces] runs: one column of 8
    slots per vertex, and behind the first [degree] slots only padding. *)
Definition tables_ok (n : nat) (faces : list face) (tbl : table nat * table bool) : Prop :=
  length tbl.1 = n /\ length tbl.2 = n /\
  (forall v col, tbl.1 !! v = Some col ->
     length col = 8 /\
     drop (XicsrtOpticMesh.degree faces v) col
     = replicate (8 - XicsrtOpticMesh.degree faces v) 0) /\
  (forall v col, tbl.2 !! v = Some col ->
     length col = 8 /\
     drop (XicsrtOpticMesh.degree faces v) col
     = replicate (8 - XicsrtOpticMesh.degree faces v) false).

(** ** [_GeometryObject.py]: set-up and the axis shortcuts *)

Module GeometrySetup.
Import GeometryObject.

Section Setup.
Context {T : Type} `{Scalar T}.

(** The entries of [self.param] that [setup] reads. *)
Record config : Type := Config {
  cfg_origin : vec3 T;
  cfg_zaxis : vec3 T;
  cfg_xaxis : option (vec3 T)
}.

(** The entries this class adds to [super().get_default_config()]. *)
Definition get_default_config : config :=
  Config (V3 s_zero s_zero s_zero) (V3 s_zero s_zero s_one) None.

(** [setup] after [super().setup()]: it stores the origin and calls
    [set_orientation], which gives [self.orientation] its first value. *)
Definition setup (param : config) : GeometryObject.t T :=
  let self := Build (cfg_origin param) (M3 vzero vzero vzero) in
  set_orientation self (cfg_zaxis param) (cfg_xaxis param).

(** What an attribute lookup that falls through to [__getattr__] gives. *)
Inductive attribute : Type :=
| Attr (v : vec3 T)
| AttributeError (key : string).

Definition __getattr__ (self : GeometryObject.t T) (key : string) : attribute :=
  if String.eqb key "xaxis" then Attr (row0 (orientation self))
  else if String.eqb key "yaxis" then Attr (row1 (orientation self))
  else if String.eqb key "zaxis" then Attr (row2 (orientation self))
  else AttributeError key.

End Setup.
End GeometrySetup.

(** ** [_GeometryObject.py]: the transforms as they act on the caller's arrays

    The transforms write into the array they are given.  Here the arrays
    of the caller live in a store and are named by references, so that
    what a call leaves behind in them can be stated.  The frame's own
    arrays ([self.origin], [self.orientation]) are not in the store: a
    caller that passes one of those is outside this model. *)

Module GeometryStore.
Import GeometryObject.

Section Store.
Context {T : Type} `{Scalar T}.

Definition ref : Type := nat.

(** The arrays by reference; the references below [next] are in use. *)
Record store : Type := Store {
  cell : ref -> ndarray T;
  next : ref
}.

Definition write (h : store) (l : ref) (a : ndarray T) : store :=
  Store (fun l' => if Nat.eqb l' l then a else cell h l') (next h).

(** a new array *)
Definition alloc (h : store) (a : ndarray T) : ref * store :=
  (next h, Store (fun l' => if Nat.eqb l' (next h) then a else cell h l') (S (next h))).

(** The cells below [n] are the same in both stores, and no reference
    has been released. *)
Definition kept_below (n : nat) (h h' : store) : Prop :=
  next h <= next h' /\ forall l, l < n -> cell h' l = cell h l.

(** What a caller passes where an array is expected: an ndarray, or a
    list, tuple or number with the contents [a]. *)
Inductive arg : Type :=
| ByRef (l : ref)
| ByValue (a : ndarray T).

(** [to_ndarray]: an ndarray is returned as it is, anything else is
    converted by [np.array] into a new one. *)
Definition to_ndarray (vector_in : arg) (h : store) : ref * store :=
  match vector_in with
  | ByRef l => (l, h)
  | ByValue a => alloc h a
  end.

(** [vector[:] = np.einsum(...)]; [return vector] *)
Definition vector_to_external (self : GeometryObject.t T) (vector : arg) (h : store)
  : result ref * store :=
  let '(l, h) := to_ndarray vector h in
  match GeometryObject.vector_to_external self (cell h l) with
  | Ok a => (Ok l, write h l a)
  | Err e => (Err e, h)
  end.

Definition vector_to_local (self : GeometryObject.t T) (vector : arg) (h : store)
  : result ref * store :=
  let '(l, h) := to_ndarray vector h in
  match GeometryObject.vector_to_local self (cell h l) with
  | Ok a => (Ok l, write h l a)
  | Err e => (Err e, h)
  end.

(** [self.vector_to_external(point_local) + self.origin]: the sum is a new
    array. *)
Definition point_to_external (self : GeometryObject.t T) (point_local : arg) (h : store)
  : result ref * store :=
  let '(r, h) := vector_to_external self point_local h in
  match r with
  | Err e => (Err e, h)
  | Ok l =>
      match broadcast_origin s_add (cell h l) (origin self) with
      | Ok a => let '(l', h) := alloc h a in (Ok l', h)
      | Err e => (Err e, h)
      end
  end.

(** [self.vector_to_local(point_external - self.origin)]: the difference
    is a new array, and it is the one that is written into. *)
Definition point_to_local (self : GeometryObject.t T) (point_external : arg) (h : store)
  : result ref * store :=
  let a := match point_external with
           | ByRef l => cell h l
           | ByValue a => a
           end in
  match broadcast_origin s_sub a (origin self) with
  | Ok d => let '(l', h) := alloc h d in vector_to_local self (ByRef l') h
  | Err e => (Err e, h)
  end.

(** The ray dictionary: the arrays under 'origin' and 'direction', and
    the other entries, which the transforms do not look at. *)
Record raydict (E : Type) : Type := RayDict {
  rd_origin : ref;
  rd_direction : ref;
  rd_others : E
}.
Arguments RayDict {E} _ _ _.
Arguments rd_origin {E} _.
Arguments rd_direction {E} _.
Arguments rd_others {E} _.

(** [deepcopy]: every array is copied once, so two keys that share an
    array share the copy. *)
Definition deepcopy {E} (ray : raydict E) (h : store) : raydict E * store :=
  let '(lo, h) := alloc h (cell h (rd_origin ray)) in
  if Nat.eqb (rd_direction ray) (rd_origin ray) then (RayDict lo lo (rd_others ray), h)
  else let '(ld, h) := alloc h (cell h (rd_direction ray)) in
       (RayDict lo ld (rd_others ray), h).

(** The result of a call on a ray dictionary: what is returned or raised,
    the dictionary the caller passed as the call leaves it, and the
    store. *)
Definition ray_outcome (E : Type) : Type := result (raydict E) * raydict E * store.

Definition ray_to_external {E} (self : GeometryObject.t T) (ray_local : raydict E)
    (copy : bool) (h : store) : ray_outcome E :=
  let '(ray_external, h) := if copy then deepcopy ray_local h else (ray_local, h) in
  let caller (ray : raydict E) := if copy then ray_local else ray in
  let '(r, h) := point_to_external self (ByRef (rd_origin ray_external)) h in
  match r with
  | Err e => (Err e, caller ray_external, h)
  | Ok lo =>
      let ray_external := RayDict lo (rd_direction ray_external) (rd_others ray_external) in
      let '(r, h) := vector_to_external self (ByRef (rd_direction ray_external)) h in
      match r with
      | Err e => (Err e, caller ray_external, h)
      | Ok ld =>
          let ray_external := RayDict (rd_origin ray_external) ld (rd_others ray_external) in
          (Ok ray_external, caller ray_external, h)
      end
  end.

Definition ray_to_local {E} (self : GeometryObject.t T) (ray_external : raydict E)
    (copy : bool) (h : store) : ray_outcome E :=
  let '(ray_local, h) := if copy then deepcopy ray_external h else (ray_external, h) in
  let caller (ray : raydict E) := if copy then ray_external else ray in
  let '(r, h) := point_to_local self (ByRef (rd_origin ray_local)) h in
  match r with
  | Err e => (Err e, caller ray_local, h)
  | Ok lo =>
      let ray_local := RayDict lo (rd_direction ray_local) (rd_others ray_local) in
      let '(r, h) := vector_to_local self (ByRef (rd_direction ray_local)) h in
      match r with
      | Err e => (Err e, caller ray_local, h)
      | Ok ld =>
          let ray_local := RayDict (rd_origin ray_local) ld (rd_others ray_local) in
          (Ok ray_local, caller ray_local, h)
      end
  end.

End Store.

Arguments RayDict {E} _ _ _.
Arguments rd_origin {E} _.
Arguments rd_direction {E} _.
Arguments rd_others {E} _.

End GeometryStore.

(** ** [_XicsrtOpticMesh.py]: the remaining mesh methods *)

(** The face [f] has the vertex [v] as a corner. *)
Definition face_has (f : face) (v : nat) : Prop :=
  face0 f = v \/ face1 f = v \/ face2 f = v.

(** Every corner of every face is the index of one of [n] points. *)
Definition faces_in_range (faces : list face) (n : nat) : Prop :=
  forall f, In f faces -> face0 f < n /\ face1 f < n /\ face2 f < n.

Module XicsrtOpticMeshSetup.
Import XicsrtOpticMesh.

(** *** [mesh_get_index] *)

(** [np.all(np.equal(ff, hits), axis=1)] at one row of [hits]. *)
Definition face_eqb (ff h : face) : bool :=
  Nat.eqb (face0 ff) (face0 h) && Nat.eqb (face1 ff) (face1 h)
  && Nat.eqb (face2 ff) (face2 h).

(** [for ii, ff in enumerate(faces)] *)
Fixpoint get_index_loop (ii : nat) (faces hits : list face)
    (idx_hits : list (option nat)) : result (list (option nat)) :=
  match faces with
  | [] => Ok idx_hits
  | ff :: faces' =>
      (let m_temp := map (face_eqb ff) hits in
       idx_hits' <- mask_fill idx_hits m_temp (Some ii);
       get_index_loop (S ii) faces' hits idx_hits')%res
  end.

(** [hits] holds one face, as a triple of vertex indices, per row;
    [idx_hits] starts as [np.empty]: [None] where nothing was written. *)
Definition mesh_get_index (hits faces : list face) : result (list (option nat)) :=
  get_index_loop 0 faces hits (replicate (length hits) None).

(** The index of the last row of [faces] equal to [h], counted from [ii]. *)
Fixpoint last_index (ii : nat) (faces : list face) (h : face) : option nat :=
  match faces with
  | [] => None
  | ff :: faces' =>
      match last_index (S ii) faces' h with
      | Some k => Some k
      | None => if face_eqb ff h then Some ii else None
      end
  end.

(** The array [faces_normal] of [_mesh_precalc], from the gathered
    corners [p0], [p1], [p2]. *)
Definition normals_of {T} `{Scalar T} (p0 p1 p2 : list (vec3 T)) : list (vec3 T) :=
  map (fun n => GeometryObject.vdiv n (norm n))
      (zip_with cross (zip_with vsub p0 p1) (zip_with vsub p2 p1)).

(** *** [mesh_initialize] *)

Section Initialize.
Context {T : Type} `{Scalar T} `{Scipy T}.




End Initialize.

End XicsrtOpticMeshSetup.

(** ** [_XicsrtSourceGeneric.py]: where the rays of a batch start *)

(** The random draws the source makes: [np.random.uniform(low, high, size)]
    and [xicsrt_math.vector_dist_uniform(theta, number)], each threading
    the state [G] of the generator. *)
Class Random (T G : Type) : Type := {
  random_uniform : T -> T -> nat -> G -> list T * G;
  vector_dist_uniform : T -> nat -> G -> list (vec3 T) * G
}.

Module XicsrtSourceGeneric.
Import GeometryObject.

Section Source.
Context {T : Type} `{Scalar T} {G : Type} `{Random T G}.
Local Open Scope scalar_scope.

(** The entries of [self.param] the generators read; [intensity] is the
    integer [initialize] leaves there. *)
Record SourceParam : Type := MkSourceParam {
  width : T;
  height : T;
  depth : T;
  spread : T;
  intensity : nat;
  zaxis : vec3 T
}.

Definition two : T := s_one + s_one.

(** [np.einsum('i,j', offset, axis)] *)
Definition outer (offset : list T) (axis : vec3 T) : list (vec3 T) :=
  map (fun w => vscale w axis) offset.

Definition generate_origin (self : GeometryObject.t T) (param : SourceParam) (g : G)
  : result (list (vec3 T)) * G :=
  let '(w_offset, g) :=
    random_uniform (- s_one * width param / two) (width param / two) (intensity param) g in
  let '(h_offset, g) :=
    random_uniform (- s_one * height param / two) (height param / two) (intensity param) g in
  let '(d_offset, g) :=
    random_uniform (- s_one * depth param / two) (depth param / two) (intensity param) g in
  let xaxis := row0 (orientation self) in
  let yaxis := row1 (orientation self) in
  let zaxis := row2 (orientation self) in
  ((let a := map (vadd (origin self)) (outer w_offset xaxis) in
    b <- broadcast2 vadd a (outer h_offset yaxis);
    broadcast2 vadd b (outer d_offset zaxis))%res, g).

(** [array[:] = self.param['zaxis']], then every row divided by its norm *)
Definition make_normal (param : SourceParam) : list (vec3 T) :=
  let array := replicate (intensity param) (zaxis param) in
  map (fun a => vdiv a (norm a)) array.

(** [R[:, k, :] = rows]: [rows] has one row per ray, or a single row. *)
Definition assign_rows {A} (n : nat) (rows : list A) : result (list A) :=
  if Nat.eqb (length rows) n then Ok rows
  else match rows with
       | [x] => Ok (replicate n x)
       | _ => Err ValueError
       end.

Definition random_direction (param : SourceParam) (normal : list (vec3 T)) (g : G)
  : result (list (vec3 T)) * G :=
  let rad_spread := spread param in
  let '(dir_local, g) := vector_dist_uniform rad_spread (intensity param) g in
  let o_1 := map (fun n => vadd (cross n (V3 s_zero s_zero s_one))
                                (cross n (V3 s_zero s_one s_zero))) normal in
  let o_1 := map (fun a => vdiv a (norm a)) o_1 in
  let o_2 := zip_with cross normal o_1 in
  let o_2 := map (fun a => vdiv a (norm a)) o_2 in
  ((R0 <- assign_rows (intensity param) o_1;
    R1 <- assign_rows (intensity param) o_2;
    R2 <- assign_rows (intensity param) normal;
    let R := zip_with (fun r0 r12 => M3 r0 r12.1 r12.2) R0 (zip R1 R2) in
    (* np.einsum('ij,ijk->ik', dir_local, R) *)
    broadcast2 (fun v M => einsum_ij_i_j M v) dir_local R)%res, g).

Definition generate_direction (param : SourceParam) (origin : list (vec3 T)) (g : G)
  : result (list (vec3 T)) * G :=
  let normal := make_normal param in
  random_direction param normal g.






End Source.
End XicsrtSourceGeneric.

(** ** Concrete inputs used by the examples below *)

(** A frame built by [set_orientation] from z = (0,0,1) and x = (0,1,0),
    placed at (1,2,3): over the reals and in binary64. *)
Definition frame_quarter_turn : GeometryObject.t R :=
  GeometryObject.set_orientation
    (GeometryObject.Build (V3 1 2 3) (M3 vzero vzero vzero))%R
    (V3 0 0 1)%R (Some (V3 0 1 0)%R).

Definition frame_quarter_turn_f : GeometryObject.t float :=
  GeometryObject.set_orientation
    (GeometryObject.Build (V3 1 2 3) (M3 vzero vzero vzero))%float
    (V3 0 0 1)%float (Some (V3 0 1 0)%float).

(** A stand-in for scipy on binary64, good enough to run the module: the
    tree query scans for the first point at the least squared distance,
    and the interpolator returns the value at the nearest site (it
    reproduces constant data, as any interpolator does). *)
Fixpoint argmin_from (best : nat) (best_d : float) (i : nat) (ds : list float) : nat :=
  match ds with
  | [] => best
  | d :: ds' =>
      if PrimFloat.ltb d best_d then argmin_from i d (S i) ds'
      else argmin_from best best_d (S i) ds'
  end.

Definition argmin (ds : list float) : nat :=
  match ds with
  | [] => 0
  | d :: ds' => argmin_from 0 d 1 ds'
  end.

Definition nearest_point (points : list (vec3 float)) (x : vec3 float) : nat :=
  argmin (map (fun p => dot (vsub p x) (vsub p x)) points).

Definition nearest_value (sites : list (float * float)) (values : list float)
    (x y : float) : float :=
  let d2 (s : float * float) := ((s.1 - x) * (s.1 - x) + (s.2 - y) * (s.2 - y))%float in
  match values !! argmin (map d2 sites) with
  | Some v => v
  | None => PrimFloat.nan
  end.

#[export] Instance nearest_scipy : Scipy float := {|
  cKDTree_query := nearest_point;
  Interpolator := nearest_value
|}.

Definition empty_mesh : Mesh float :=
  MkMesh [] [] None None [] (fun _ => 0) [] [].

Definition mesh_or_empty (r : result (Mesh float)) : Mesh float :=
  match r with
  | Ok mesh => mesh
  | Err _ => empty_mesh
  end.

(** The single triangle (0,0,0), (1,0,0), (0,1,0), without normals. *)
Definition triangle_points : list (vec3 float) :=
  [V3 0 0 0; V3 1 0 0; V3 0 1 0]%float.

Definition triangle_mesh : Mesh float :=
  mesh_or_empty (XicsrtOpticMesh._mesh_precalc false triangle_points None [(0, 1, 2)]).

(** Rays pointing straight down, with a wavelength and a weight each. *)
Definition ray_down (o : vec3 float) (active : bool) : RayBatch float :=
  Rays [o] [V3 0 0 (-1)]%float [active] [1.5]%float [1]%float.

Definition rays_append {T} (a b : RayBatch T) : RayBatch T :=
  Rays (rays_origin a ++ rays_origin b) (rays_direction a ++ rays_direction b)
       (rays_mask a ++ rays_mask b) (rays_wavelength a ++ rays_wavelength b)
       (rays_weight a ++ rays_weight b).

Definition ray_inside : RayBatch float := ray_down (V3 0.2 0.2 1)%float true.
Definition ray_outside : RayBatch float := ray_down (V3 2 2 1)%float true.

(** The same triangle with the unit vertex normals (1,0,0), (0,1,0) and
    (0,0,1).  On one triangle the interpolant of each normal component is
    the plane through its three vertex values. *)
Definition triangle_interp : Interp float :=
  MkInterp (fun x y => 0)%float
           (fun x y => 1 - x - y)%float
           (fun x y => x)%float
           (fun x y => y)%float.

Definition triangle_mesh_smooth : Mesh float :=
  MkMesh (mesh_faces triangle_mesh) (mesh_points triangle_mesh)
         (Some [V3 1 0 0; V3 0 1 0; V3 0 0 1]%float) (Some triangle_interp)
         (faces_normal triangle_mesh) (points_tree triangle_mesh)
         (p_faces_idx triangle_mesh) (p_faces_mask triangle_mesh).

(** Nine triangles around the vertex 0: faces (0,1,2), (0,2,3), ... ,
    (0,9,10) over eleven vertices. *)
Definition fan_faces : list face :=
  map (fun k => (0, S k, S (S k))) (seq 0 9).

Definition fan_points : list (vec3 float) :=
  [V3 0 0 0; V3 1 0 0; V3 0.8 0.6 0; V3 0.6 0.8 0; V3 0 1 0; V3 (-0.6) 0.8 0;
   V3 (-0.8) 0.6 0; V3 (-1) 0 0; V3 (-0.8) (-0.6) 0; V3 (-0.6) (-0.8) 0;
   V3 0 (-1) 0]%float.

(** A ray that meets the plane of the triangle just outside the edge from
    (0,0,0) to (1,0,0), at (0.25, -7.5e-11, 0). *)
Definition ray_grazing : RayBatch float := ray_down (V3 0.25 (-7.5e-11) 1)%float true.

(** The candidates of the vertex 0 of [triangle_mesh]: face 0 and padding. *)
Definition vertex0_faces : list nat := [0; 0; 0; 0; 0; 0; 0; 0].
Definition vertex0_valid : list bool :=
  [true; false; false; false; false; false; false; false].

Definition triangle_candidate : @XicsrtOpticMesh.candidate float :=
  (XicsrtOpticMesh.Cand (V3 0 0 0) (V3 1 0 0) (V3 0 1 0) (V3 0 0 (-1)))%float.

(** Batches of three rays over the triangle: one that hits, one that
    misses, and a third one that is inactive on entry. *)
Definition rays_two_active : RayBatch float :=
  rays_append ray_inside
    (rays_append ray_outside (ray_down (V3 0.2 0.2 1)%float false)).

Definition rays_one_active : RayBatch float :=
  rays_append ray_inside
    (rays_append (ray_down (V3 2 2 1)%float false) (ray_down (V3 0.2 0.2 1)%float false)).

(** The batch [rays_one_active] with other origins and directions in its
    two inactive rows. *)
Definition rays_one_active_moved : RayBatch float :=
  Rays [V3 0.2 0.2 1; V3 5 5 5; V3 (-3) 0 2]%float
       [V3 0 0 (-1); V3 1 0 0; V3 0 1 1]%float
       [true; false; false] [2.5; 2.5; 2.5]%float [1; 1; 1]%float.

(** A coarse companion of the triangle: one large triangle around it. *)
Definition coarse_mesh : Mesh float :=
  mesh_or_empty (XicsrtOpticMesh._mesh_precalc false
                   [V3 (-1) (-1) 0; V3 3 (-1) 0; V3 (-1) 3 0]%float None [(0, 1, 2)]).

Definition refine_param : @XicsrtOpticMesh.Param float :=
  XicsrtOpticMesh.MkParam (Some true) triangle_mesh (Some coarse_mesh).

(** Two active rays: one hits the triangle, one only its coarse companion. *)
Definition refine_world : @XicsrtOpticMesh.World float :=
  XicsrtOpticMesh.MkWorld
    (rays_append ray_inside (ray_down (V3 0.25 (-0.5) 1)%float true)) [].

(** Over the reals: a mesh whose interpolators return the height 0 and
    the normal (0, 3, 4) everywhere. *)
Definition slanted_interp : Interp R :=
  MkInterp (fun _ _ => 0%R) (fun _ _ => 0%R) (fun _ _ => 3%R) (fun _ _ => 4%R).

Definition slanted_mesh : Mesh R :=
  MkMesh [] [] None (Some slanted_interp) [] (fun _ => 0) [] [].

(** ** Further concrete inputs *)

(** The single triangle (0,0,0), (1,0,0), (0,1,0) over the reals, with
    the face normal and the adjacency tables [_mesh_precalc] computes for
    it, and a tree that answers every query with vertex 0. *)
Definition triangle_exact : triangle R :=
  Tri (V3 0 0 0)%R (V3 1 0 0)%R (V3 0 1 0)%R.

Definition triangle_mesh_exact : Mesh R :=
  MkMesh [(0, 1, 2)] [V3 0 0 0; V3 1 0 0; V3 0 1 0]%R None None [V3 0 0 (-1)]%R
         (fun _ => 0) [vertex0_faces; vertex0_faces; vertex0_faces]
         [vertex0_valid; vertex0_valid; vertex0_valid].

(** One active ray from (1/5, 1/5, 1) straight down. *)
Definition ray_inside_exact : RayBatch R :=
  Rays [V3 (1/5) (1/5) 1]%R [V3 0 0 (-1)]%R [true] [3/2]%R [1]%R.

Definition candidate_exact : @XicsrtOpticMesh.candidate R :=
  (XicsrtOpticMesh.Cand (V3 0 0 0) (V3 1 0 0) (V3 0 1 0) (V3 0 0 (-1)))%R.

(** A stand-in for scipy over the reals: the tree answers with vertex 0,
    the interpolator with 0. *)
Definition first_point_scipy : Scipy R :=
  {| cKDTree_query := fun _ _ => 0; Interpolator := fun _ _ _ _ => 0%R |}.


(** Two arrays of the caller, origins at reference 0 and directions at
    reference 1, in binary64 and over the reals; and the dictionary that
    holds them. *)
Definition two_arrays : @GeometryStore.store float :=
  GeometryStore.Store
    (fun l => if Nat.eqb l 0 then Arr2 [V3 1 2 3; V3 0 0 1]%float
              else Arr2 [V3 0 0 (-1); V3 0 1 0]%float) 2.

Definition two_arrays_exact : @GeometryStore.store R :=
  GeometryStore.Store
    (fun l => if Nat.eqb l 0 then Arr2 [V3 1 2 3; V3 0 0 1]%R
              else Arr2 [V3 0 0 (-1); V3 0 1 0]%R) 2.

Definition ray_dict : GeometryStore.raydict unit := GeometryStore.RayDict 0 1 tt.

(** Generators that return the midpoint of the interval and the sample
    (0, 0, 1) every time. *)
Definition midpoint_random : Random R unit :=
  {| random_uniform := fun lo hi n g => (replicate n ((lo + hi) / 2)%R, g);
     vector_dist_uniform := fun _ n g => (replicate n (V3 0 0 1)%R, g) |}.

Definition midpoint_random_f : Random float unit :=
  {| random_uniform := fun lo hi n g => (replicate n ((lo + hi) / 2)%float, g);
     vector_dist_uniform := fun _ n g => (replicate n (V3 0 0 1)%float, g) |}.

(** A source of three rays, two wide and four high, pointing along z; one
    of two rays in binary64; and one pointing along (0, 1, 1). *)
Definition source_exact : @XicsrtSourceGeneric.SourceParam R :=
  XicsrtSourceGeneric.MkSourceParam 2%R 4%R 0%R 1%R 3 (V3 0 0 1)%R.


Definition source_diagonal : @XicsrtSourceGeneric.SourceParam float :=
  XicsrtSourceGeneric.MkSourceParam 2%float 4%float 0%float 1%float 2 (V3 0 1 1)%float.


(** * Properties of the coordinate frame *)

Section GeometryFacts.
Import GeometryObject.

Local Ltac vec_ext :=
  repeat match goal with
         | v : vec3 _ |- _ => destruct v
         | M : mat3 _ |- _ => destruct M
         end;
  cbv [einsum_ij_i_j einsum_ji_i_j transpose build3 sum3 mget vget dot cross
       vadd vsub vx vy vz row0 row1 row2] in *.

Lemma einsum_ji_transpose {T} `{Scalar T} (M : mat3 T) (v : vec3 T) :
  einsum_ji_i_j M v = einsum_ij_i_j (transpose M) v.
Proof. vec_ext. reflexivity. Qed.

Lemma einsum_ij_transpose {T} `{Scalar T} (M : mat3 T) (v : vec3 T) :
  einsum_ij_i_j M v = einsum_ji_i_j (transpose M) v.
Proof. vec_ext. reflexivity. Qed.

Lemma orthonormal_local_external (M : mat3 R) (v : vec3 R) :
  orthonormal M -> einsum_ji_i_j M (einsum_ij_i_j M v) = v.
Proof.
  unfold orthonormal. intros (H00 & H11 & H22 & H01 & H02 & H12 & _).
  vec_ext. cbn [s_add s_mul real_scalar] in *. f_equal; nsatz.
Qed.

Lemma orthonormal_external_local (M : mat3 R) (v : vec3 R) :
  orthonormal M -> einsum_ij_i_j M (einsum_ji_i_j M v) = v.
Proof.
  unfold orthonormal. intros (H00 & H11 & H22 & H01 & H02 & H12 & Hy).
  vec_ext. cbn [s_add s_mul s_sub real_scalar] in *.
  injection Hy as -> -> ->. f_equal; nsatz.
Qed.

Lemma map_fixed {A} (f : A -> A) (l : list A) :
  (forall a, f a = a) -> map f l = l.
Proof.
  intros Hf. induction l as [|a l IH]; cbn; [reflexivity|].
  now rewrite Hf, IH.
Qed.

Lemma origin_add_sub (o v : vec3 R) :
  V3 (vx v + vx o - vx o)%R (vy v + vy o - vy o)%R (vz v + vz o - vz o)%R = v.
Proof. destruct v; cbn. f_equal; ring. Qed.

Lemma origin_sub_add (o v : vec3 R) :
  V3 (vx v - vx o + vx o)%R (vy v - vy o + vy o)%R (vz v - vz o + vz o)%R = v.
Proof. destruct v; cbn. f_equal; ring. Qed.

Lemma einsum_ij_sub_add (M : mat3 R) (o v : vec3 R) :
  orthonormal M ->
  let w := einsum_ij_i_j M
             (einsum_ji_i_j M (V3 (vx v - vx o)%R (vy v - vy o)%R (vz v - vz o)%R)) in
  V3 (vx w + vx o)%R (vy w + vy o)%R (vz w + vz o)%R = v.
Proof.
  intros HM. cbv zeta. rewrite orthonormal_external_local by exact HM.
  cbn. apply origin_sub_add.
Qed.

Lemma einsum_ji_add_sub (M : mat3 R) (o v : vec3 R) :
  orthonormal M ->
  let w := einsum_ij_i_j M v in
  einsum_ji_i_j M (V3 (vx w + vx o - vx o)%R (vy w + vy o - vy o)%R (vz w + vz o - vz o)%R)
  = v.
Proof.
  intros HM. cbv zeta. rewrite origin_add_sub. now apply orthonormal_local_external.
Qed.

(** C3.  In exact arithmetic the transforms of an orthonormal frame are
    inverse to each other: for an array of rank 1 or 2, external after
    local and local after external give the array back, for vectors and
    for points. *)
Theorem frame_roundtrip_identity (self : GeometryObject.t R) (v : ndarray R) :
  orthonormal (orientation self) ->
  ndim v = 1 \/ ndim v = 2 ->
  rbind (vector_to_external self v) (vector_to_local self) = Ok v /\
  rbind (vector_to_local self v) (vector_to_external self) = Ok v /\
  rbind (point_to_external self v) (point_to_local self) = Ok v /\
  rbind (point_to_local self v) (point_to_external self) = Ok v.
Proof.
  intros HM Hrank.
  destruct v as [s|v|rows|k b]; cbn in Hrank;
    try (exfalso; destruct Hrank as [Hr|Hr]; discriminate Hr).
  - (* rank 1 *)
    repeat split; cbn.
    + now rewrite orthonormal_local_external.
    + now rewrite orthonormal_external_local.
    + do 2 f_equal. now apply einsum_ji_add_sub.
    + do 2 f_equal. now apply einsum_ij_sub_add.
  - (* rank 2: the same, row by row *)
    repeat split; cbn; do 2 f_equal.
    + rewrite map_map. apply map_fixed. intros a. now apply orthonormal_local_external.
    + rewrite map_map. apply map_fixed. intros a. now apply orthonormal_external_local.
    + rewrite !map_map. apply map_fixed. intros a. now apply einsum_ji_add_sub.
    + rewrite !map_map. apply map_fixed. intros a. now apply einsum_ij_sub_add.
Qed.

Lemma frame_quarter_turn_orthonormal : orthonormal (orientation frame_quarter_turn).
Proof.
  unfold orthonormal; cbn. unfold dot, sum3; cbn.
  repeat split; try lra.
Defined.

Lemma frame_roundtrip_identity_witness :
  let v := Arr2 [V3 1 0 0; V3 (1/2) (-3) 7]%R in
  rbind (vector_to_external frame_quarter_turn v) (vector_to_local frame_quarter_turn) = Ok v /\
  rbind (vector_to_local frame_quarter_turn v) (vector_to_external frame_quarter_turn) = Ok v /\
  rbind (point_to_external frame_quarter_turn v) (point_to_local frame_quarter_turn) = Ok v /\
  rbind (point_to_local frame_quarter_turn v) (point_to_external frame_quarter_turn) = Ok v.
Proof.
  apply frame_roundtrip_identity.
  - exact frame_quarter_turn_orthonormal.
  - right. reflexivity.
Defined.

(** C5 (as amended).  Each component of the local vector sums over the
    second index of the orientation matrix, the one that numbers its
    columns: it is a row dotted with the input.  Each component of the
    external vector sums over the first index, the one that numbers the
    rows.  A batch is transformed row by row, and either transform is the
    other one taken on the transposed matrix. *)
Theorem transform_contractions {T} `{Scalar T}
    (self : GeometryObject.t T) (v : vec3 T) (rows : list (vec3 T)) (a : ndarray T) :
  let M := orientation self in
  let self' := GeometryObject.Build (origin self) (transpose M) in
  (exists w, vector_to_local self (Arr1 v) = Ok (Arr1 w) /\
     forall j, vget w j = sum3 (fun i => s_mul (mget M j i) (vget v i))) /\
  (exists w, vector_to_external self (Arr1 v) = Ok (Arr1 w) /\
     forall j, vget w j = sum3 (fun i => s_mul (mget M i j) (vget v i))) /\
  vector_to_local self (Arr2 rows)
    = Ok (Arr2 (map (fun r => build3 (fun j => dot (build3 (mget M j)) r)) rows)) /\
  vector_to_external self (Arr2 rows)
    = Ok (Arr2 (map (fun r => build3 (fun j => dot (build3 (fun i => mget M i j)) r)) rows)) /\
  vector_to_local self a = vector_to_external self' a /\
  vector_to_external self a = vector_to_local self' a.
Proof.
  cbv zeta. refine (conj _ (conj _ (conj _ (conj _ (conj _ _))))).
  - eexists. split; [reflexivity|]. intros []; reflexivity.
  - eexists. split; [reflexivity|]. intros []; reflexivity.
  - reflexivity.
  - reflexivity.
  - destruct a as [s|w|l|k b]; reflexivity.
  - destruct a as [s|w|l|k b]; reflexivity.
Qed.

(** C5 as the spec words it fails: in the frame with x = (0,1,0),
    y = (-1,0,0), z = (0,0,1) the external vector (1,0,0) has the local
    coordinates (0,-1,0), while the contraction along the row index gives
    (0,1,0); that one is what [vector_to_external] returns. *)
Lemma transform_contractions_counterexample :
  (let M := orientation frame_quarter_turn_f in
   let v := V3 1 0 0 in
   M = M3 (V3 0 1 0) (V3 (-1) 0 0) (V3 0 0 1) /\
   vector_to_local frame_quarter_turn_f (Arr1 v) = Ok (Arr1 (V3 0 (-1) 0)) /\
   build3 (fun j => sum3 (fun i => s_mul (mget M i j) (vget v i))) = V3 0 1 0 /\
   vector_to_external frame_quarter_turn_f (Arr1 v) = Ok (Arr1 (V3 0 1 0)) /\
   build3 (fun j => sum3 (fun i => s_mul (mget M j i) (vget v i))) = V3 0 (-1) 0 /\
   PrimFloat.eqb (-1) 1 = false)%float.
Proof. vm_compute. repeat split. Qed.

End GeometryFacts.

(** * Properties of the mesh intersection engine *)

Section MeshExamples.
Import XicsrtOpticMesh.

(** C7.  On the mesh of the single triangle (0,0,0), (1,0,0), (0,1,0) the
    exhaustive test, computed in binary64, sends the ray from (0.2,0.2,1)
    along (0,0,-1) to the hit point (0.2,0.2,0) on face 0 and keeps it
    active, and it deactivates the ray from (2,2,1); so it does on each
    ray alone and on the batch of both. *)
Theorem single_triangle_case :
  (mesh_points triangle_mesh = [V3 0 0 0; V3 1 0 0; V3 0 1 0] /\
   mesh_faces triangle_mesh = [(0, 1, 2)%nat] /\
   rays_origin ray_inside = [V3 0.2 0.2 1] /\
   rays_direction ray_inside = [V3 0 0 (-1)] /\
   rays_origin ray_outside = [V3 2 2 1] /\
   rays_direction ray_outside = [V3 0 0 (-1)] /\
   mesh_intersect_1 ray_inside triangle_mesh
     = (Ok ([V3 0.2 0.2 0], [Some 0%nat]), set_mask ray_inside [true]) /\
   mesh_intersect_1 ray_outside triangle_mesh
     = (Ok ([V3 0 0 0], [None]), set_mask ray_outside [false]) /\
   mesh_intersect_1 (rays_append ray_inside ray_outside) triangle_mesh
     = (Ok ([V3 0.2 0.2 0; V3 0 0 0], [Some 0%nat; None]),
        set_mask (rays_append ray_inside ray_outside) [true; false]))%float.
Proof. vm_compute. repeat split. Qed.

(** C4, at a failing input.  The triangle carries the unit vertex normals
    (1,0,0), (0,1,0), (0,0,1); at the hit point (0.25,0.25) the
    interpolated normal is (0.5,0.25,0.25).  [mesh_interpolate] multiplies
    it by its norm: the normal it returns has norm 0.375, not 1. *)
Theorem mesh_interpolate_not_unit :
  (exists n,
     mesh_interpolate [V3 0.25 0.25 0] triangle_mesh_smooth [true]
       = Ok ([V3 0.25 0.25 0], [n]) /\
     n = vscale (norm (V3 0.5 0.25 0.25)) (V3 0.5 0.25 0.25) /\
     PrimFloat.ltb (norm n) 0.3750001 = true /\
     PrimFloat.ltb 0.3749999 (norm n) = true /\
     PrimFloat.eqb (norm n) 1 = false)%float.
Proof. eexists. vm_compute. repeat split. Qed.

End MeshExamples.

Section InterpolateFacts.
Import XicsrtOpticMesh.

Lemma dot_self_nonneg (n : vec3 R) : (0 <= dot n n)%R.
Proof. destruct n; cbn. unfold dot, sum3; cbn. nra. Qed.

Lemma norm_scaled_by_norm (n : vec3 R) : norm (vscale (norm n) n) = dot n n.
Proof.
  pose proof (dot_self_nonneg n) as Hn.
  unfold norm at 1.
  assert (Hd : dot (vscale (norm n) n) (vscale (norm n) n) = (dot n n * dot n n)%R).
  { unfold norm. cbn [s_sqrt real_scalar].
    pose proof (sqrt_sqrt (dot n n) Hn) as Hs.
    destruct n as [x y z]; unfold vscale, dot, sum3 in *; cbn in *.
    set (c := R_sqrt.sqrt (x * x + y * y + z * z)) in *.
    transitivity ((c * c) * (x * x + y * y + z * z))%R; [ring|].
    now rewrite Hs. }
  rewrite Hd. cbn [s_sqrt real_scalar]. now apply sqrt_square.
Qed.

(** In exact arithmetic every normal [mesh_interpolate] returns is the
    interpolated one times its own norm, so its norm is the square of the
    interpolated normal's. *)
Lemma mesh_interpolate_norm_squared (X : list (vec3 R)) (mesh : Mesh R)
    (mask : list bool) (it : Interp R) :
  mesh_interp mesh = Some it ->
  exists X' normals,
    mesh_interpolate X mesh mask = Ok (X', normals) /\
    length normals = length X /\
    forall i p, X !! i = Some p ->
      let n := V3 (interp_normal_x it (vx p) (vy p))
                  (interp_normal_y it (vx p) (vy p))
                  (interp_normal_z it (vx p) (vy p)) in
      exists n', normals !! i = Some n' /\ n' = vscale (norm n) n /\
                 norm n' = (norm n * norm n)%R.
Proof.
  intros Hit. unfold mesh_interpolate. rewrite Hit. cbn [of_option rbind].
  eexists _, _. split; [reflexivity|]. split.
  - now rewrite !length_map.
  - intros i p Hp. cbv zeta. eexists. split.
    + rewrite !list_lookup_fmap, Hp. reflexivity.
    + cbn [vx vy vz]. split; [reflexivity|].
      rewrite norm_scaled_by_norm. unfold norm. cbn [s_sqrt real_scalar].
      symmetry. apply sqrt_sqrt, dot_self_nonneg.
Qed.

Lemma mesh_interpolate_norm_squared_witness :
  exists X' normals,
    mesh_interpolate [V3 1 2 5]%R slanted_mesh [true] = Ok (X', normals) /\
    length normals = 1 /\
    exists n', normals !! 0 = Some n' /\
      norm n' = (norm (V3 0 3 4) * norm (V3 0 3 4))%R.
Proof.
  destruct (mesh_interpolate_norm_squared [V3 1 2 5]%R slanted_mesh [true]
              slanted_interp eq_refl) as (X' & normals & Hrun & Hlen & Hn).
  exists X', normals. split; [exact Hrun|]. split; [exact Hlen|].
  destruct (Hn 0 (V3 1 2 5)%R eq_refl) as (n' & Hn' & _ & Hnorm).
  exists n'. split; [exact Hn'|exact Hnorm].
Defined.

End InterpolateFacts.

Section AdjacencyFacts.
Import XicsrtOpticMesh.

Lemma tables_ok_init n faces :
  tables_ok n faces (replicate n (replicate 8 0), replicate n (replicate 8 false)).
Proof.
  unfold tables_ok; cbn [fst snd]. rewrite !length_replicate.
  split; [reflexivity|]. split; [reflexivity|].
  split; intros v col Hv; apply lookup_replicate in Hv as [-> _];
    (split; [apply length_replicate|now rewrite drop_replicate]).
Qed.

Lemma step_overfull n faces tbl v :
  tables_ok n faces tbl -> v < n -> 8 < degree faces v ->
  point_faces_step (seq 0 n) faces tbl v = Err ValueError.
Proof.
  intros (Hl1 & Hl2 & Hc1 & Hc2) Hv Hdeg. unfold point_faces_step.
  rewrite lookup_seq_lt by exact Hv. cbn [of_option rbind Nat.add].
  destruct (lookup_lt_is_Some_2 tbl.1 v) as [col Hcol]; [lia|].
  rewrite Hcol. cbn [of_option rbind].
  destruct (Hc1 _ _ Hcol) as [Hlen _].
  unfold slice_assign. rewrite Hlen. fold (degree faces v).
  replace (Nat.min (degree faces v) 8) with 8 by lia.
  destruct (Nat.eqb_spec (degree faces v) 8) as [He|_]; [lia|].
  unfold degree in Hdeg.
  destruct (nonzero_rows 0 faces v) as [|a [|b l]]; cbn in Hdeg; try lia; reflexivity.
Qed.

Lemma step_fits n faces tbl v :
  tables_ok n faces tbl -> v < n -> degree faces v <= 8 ->
  exists tbl',
    point_faces_step (seq 0 n) faces tbl v = Ok tbl' /\
    tables_ok n faces tbl' /\
    tbl'.1 !! v = Some (full_column faces v) /\
    tbl'.2 !! v = Some (full_mask faces v) /\
    (forall w, w <> v -> tbl'.1 !! w = tbl.1 !! w /\ tbl'.2 !! w = tbl.2 !! w).
Proof.
  intros (Hl1 & Hl2 & Hc1 & Hc2) Hv Hdeg. unfold point_faces_step.
  rewrite lookup_seq_lt by exact Hv. cbn [of_option rbind Nat.add].
  destruct (lookup_lt_is_Some_2 tbl.1 v) as [col Hcol]; [lia|].
  destruct (lookup_lt_is_Some_2 tbl.2 v) as [colm Hcolm]; [lia|].
  rewrite Hcol. cbn [of_option rbind].
  destruct (Hc1 _ _ Hcol) as [Hlen Hpad].
  destruct (Hc2 _ _ Hcolm) as [Hlenm Hpadm].
  unfold slice_assign, slice_fill. rewrite Hlen. fold (degree faces v).
  replace (Nat.min (degree faces v) 8) with (degree faces v) by lia.
  unfold degree at 1. rewrite Nat.eqb_refl. cbn [rbind].
  rewrite Hcolm. cbn [of_option rbind]. rewrite Hlenm.
  replace (Nat.min (degree faces v) 8) with (degree faces v) by lia.
  rewrite Hpad, Hpadm.
  eexists. split; [reflexivity|]. cbn [fst snd].
  fold (full_column faces v). fold (full_mask faces v).
  assert (Hfc : length (full_column faces v) = 8).
  { unfold full_column. rewrite length_app, length_replicate. fold (degree faces v). lia. }
  assert (Hfm : length (full_mask faces v) = 8).
  { unfold full_mask. rewrite length_app, !length_replicate. lia. }
  split; [|split; [|split]].
  - unfold tables_ok; cbn [fst snd]. rewrite !length_insert.
    split; [exact Hl1|]. split; [exact Hl2|]. split.
    + intros w c Hw. destruct (decide (v = w)) as [<-|Hne].
      * rewrite list_lookup_insert_eq in Hw by lia. injection Hw as <-.
        split; [exact Hfc|]. unfold full_column.
        rewrite drop_app_length'; [reflexivity|reflexivity].
      * rewrite list_lookup_insert_ne in Hw by exact Hne. now apply Hc1.
    + intros w c Hw. destruct (decide (v = w)) as [<-|Hne].
      * rewrite list_lookup_insert_eq in Hw by lia. injection Hw as <-.
        split; [exact Hfm|]. unfold full_mask.
        rewrite drop_app_length'; [reflexivity|now rewrite length_replicate].
      * rewrite list_lookup_insert_ne in Hw by exact Hne. now apply Hc2.
  - apply list_lookup_insert_eq. lia.
  - apply list_lookup_insert_eq. lia.
  - intros w Hw. split; apply list_lookup_insert_ne; congruence.
Qed.

Lemma loop_overfull n faces todo : forall tbl,
  tables_ok n faces tbl ->
  (forall v, In v todo -> v < n) ->
  (exists v, In v todo /\ 8 < degree faces v) ->
  point_faces_loop (seq 0 n) faces todo tbl = Err ValueError.
Proof.
  induction todo as [|v0 todo IH]; intros tbl Hok Hin [v [Hv Hdeg]].
  - destruct Hv.
  - cbn [point_faces_loop].
    destruct (le_lt_dec (degree faces v0) 8) as [Hfit|Hover].
    + destruct (step_fits n faces tbl v0 Hok) as (tbl' & -> & Hok' & _);
        [apply Hin; now left|exact Hfit|].
      cbn [rbind]. apply IH; [exact Hok'|intros w Hw; apply Hin; now right|].
      destruct Hv as [->|Hv]; [lia|]. now exists v.
    + rewrite (step_overfull n faces tbl v0 Hok); [reflexivity|apply Hin; now left|exact Hover].
Qed.

Lemma loop_fits n faces todo : forall tbl,
  tables_ok n faces tbl ->
  (forall v, In v todo -> v < n /\ degree faces v <= 8) ->
  exists tbl',
    point_faces_loop (seq 0 n) faces todo tbl = Ok tbl' /\
    tables_ok n faces tbl' /\
    (forall v, In v todo \/ (tbl.1 !! v = Some (full_column faces v) /\
                            tbl.2 !! v = Some (full_mask faces v)) ->
       tbl'.1 !! v = Some (full_column faces v) /\
       tbl'.2 !! v = Some (full_mask faces v)).
Proof.
  induction todo as [|v0 todo IH]; intros tbl Hok Hin.
  - exists tbl. split; [reflexivity|]. split; [exact Hok|].
    intros v [[]|Hv]. exact Hv.
  - cbn [point_faces_loop].
    destruct (Hin v0 (or_introl eq_refl)) as [Hv0 Hd0].
    destruct (step_fits n faces tbl v0 Hok Hv0 Hd0) as (tbl1 & -> & Hok1 & Hc & Hm & Hoth).
    cbn [rbind].
    destruct (IH tbl1 Hok1) as (tbl' & Hloop & Hok' & Hcols).
    { intros w Hw. apply Hin. now right. }
    exists tbl'. split; [exact Hloop|]. split; [exact Hok'|].
    intros v Hv. apply Hcols.
    destruct (decide (v = v0)) as [->|Hne]; [right; now split|].
    destruct Hv as [[Heq|Hv]|Hv]; [congruence|now left|].
    right. destruct (Hoth v Hne) as [-> ->]. exact Hv.
Qed.

(** C6 (as amended).  Building the table for the vertices 0..n-1 never
    truncates.  When some vertex is named by more than 8 entries of
    [faces], the assignment of its face list into the 8 slots of its
    column raises a [ValueError] and no table is returned.  When no vertex
    is, the table is returned and the column of every vertex lists all of
    its faces, padded to 8 slots, with the validity mask set on exactly
    those. *)
Theorem find_point_faces_capacity (n : nat) (faces : list face) :
  ((exists v, v < n /\ 8 < degree faces v) ->
   find_point_faces (seq 0 n) faces None = Err ValueError) /\
  ((forall v, v < n -> degree faces v <= 8) ->
   exists tbl,
     find_point_faces (seq 0 n) faces None = Ok tbl /\
     length tbl.1 = n /\ length tbl.2 = n /\
     forall v, v < n ->
       tbl.1 !! v = Some (nonzero_rows 0 faces v ++ replicate (8 - degree faces v) 0) /\
       tbl.2 !! v = Some (replicate (degree faces v) true
                          ++ replicate (8 - degree faces v) false)).
Proof.
  unfold find_point_faces. rewrite length_replicate, length_seq.
  pose proof (tables_ok_init n faces) as Hinit.
  split.
  - intros (v & Hv & Hdeg). apply loop_overfull; [exact Hinit| |].
    + intros w Hw. apply in_seq in Hw. lia.
    + exists v. split; [apply in_seq; lia|exact Hdeg].
  - intros Hfit.
    destruct (loop_fits n faces (seq 0 n) _ Hinit) as (tbl & Hloop & Hok & Hcols).
    { intros w Hw. apply in_seq in Hw. split; [lia|apply Hfit; lia]. }
    exists tbl. split; [exact Hloop|].
    destruct Hok as (Hl1 & Hl2 & _). split; [exact Hl1|]. split; [exact Hl2|].
    intros v Hv. apply Hcols. left. apply in_seq. lia.
Qed.

(** C6 as the spec words it fails: with nine faces around vertex 0 the
    construction of the table, alone or inside [_mesh_precalc], ends in a
    [ValueError]; it does not return a table cut to 8 entries. *)
Lemma find_point_faces_counterexample :
  degree fan_faces 0 = 9 /\
  find_point_faces (seq 0 11) fan_faces None = Err ValueError /\
  length fan_points = 11 /\
  _mesh_precalc false fan_points None fan_faces = Err ValueError.
Proof. vm_compute. repeat split. Qed.

Lemma find_point_faces_capacity_witness :
  find_point_faces (seq 0 11) fan_faces None = Err ValueError /\
  exists tbl,
    find_point_faces (seq 0 10) (firstn 8 fan_faces) None = Ok tbl /\
    tbl.1 !! 0 = Some [0; 1; 2; 3; 4; 5; 6; 7].
Proof.
  split.
  - apply (proj1 (find_point_faces_capacity 11 fan_faces)).
    exists 0. split; [lia|]. vm_compute. lia.
  - destruct (proj2 (find_point_faces_capacity 10 (firstn 8 fan_faces))) as (tbl & Ht & _ & _ & Hc).
    + intros v Hv.
      do 10 (destruct v as [|v]; [vm_compute; lia|]). lia.
    + exists tbl. split; [exact Ht|]. apply (Hc 0). lia.
Defined.

End AdjacencyFacts.

Section ConfigFacts.
Import XicsrtOpticMesh.

Lemma default_config_course (super_config : gmap string pyval) :
  super_config !! "mesh_course_points" = None ->
  get_default_config super_config !! "mesh_course_points" = None.
Proof.
  intros Hs. unfold get_default_config. cbv zeta.
  repeat (rewrite lookup_insert_ne by discriminate). exact Hs.
Qed.

Lemma default_config_refine (super_config : gmap string pyval) :
  get_default_config super_config !! "mesh_refine" = Some PyNone.
Proof. unfold get_default_config. cbv zeta. apply lookup_insert_eq. Qed.

Lemma default_config_normals (super_config : gmap string pyval) :
  get_default_config super_config !! "mesh_normals" = Some PyNone.
Proof.
  unfold get_default_config. cbv zeta.
  repeat (rewrite lookup_insert_ne by discriminate). apply lookup_insert_eq.
Qed.

Lemma default_config_coarse (super_config : gmap string pyval) :
  get_default_config super_config !! "mesh_coarse_points" = Some PyNone.
Proof.
  unfold get_default_config. cbv zeta.
  repeat (rewrite lookup_insert_ne by discriminate). apply lookup_insert_eq.
Qed.

(** C10.  [self.param] is the default configuration with the user's
    entries written over it.  When neither the base class nor the user
    supplies a key 'mesh_course_points' and 'mesh_refine' is left at
    [None], [check_param] raises [KeyError] on 'mesh_course_points',
    whatever is stored under 'mesh_coarse_points'; the default
    configuration itself has the key 'mesh_coarse_points' and not the
    other. *)
Theorem check_param_missing_key (super_config user : gmap string pyval) :
  super_config !! "mesh_course_points" = None ->
  user !! "mesh_course_points" = None ->
  user !! "mesh_refine" = None \/ user !! "mesh_refine" = Some PyNone ->
  get_default_config super_config !! "mesh_course_points" = None /\
  get_default_config super_config !! "mesh_coarse_points" = Some PyNone /\
  check_param (user ∪ get_default_config super_config)
    = Err (KeyError "mesh_course_points").
Proof.
  intros Hs Hu Hr.
  split; [now apply default_config_course|].
  split; [apply default_config_coarse|].
  set (param := user ∪ get_default_config super_config).
  assert (Hn : exists v, param !! "mesh_normals" = Some v).
  { unfold param. rewrite lookup_union.
    rewrite default_config_normals. destruct (user !! "mesh_normals"); eauto. }
  assert (Hrefine : param !! "mesh_refine" = Some PyNone).
  { unfold param. rewrite lookup_union, default_config_refine.
    destruct Hr as [-> | ->]; reflexivity. }
  assert (Hcourse : param !! "mesh_course_points" = None).
  { unfold param. rewrite lookup_union, Hu, default_config_course by exact Hs.
    reflexivity. }
  destruct Hn as [v Hv]. unfold check_param, getitem.
  rewrite Hv. cbn [of_option rbind].
  destruct (is_None v).
  - rewrite lookup_insert_ne by discriminate. rewrite Hrefine. cbn [of_option rbind is_None].
    rewrite lookup_insert_ne by discriminate. rewrite Hcourse. reflexivity.
  - rewrite Hrefine. cbn [of_option rbind is_None]. rewrite Hcourse. reflexivity.
Qed.

Lemma check_param_missing_key_witness :
  let user : gmap string pyval :=
    <["mesh_coarse_points" := PyArray "coarse points"]>
      (<["mesh_normals" := PyArray "normals"]> ∅) in
  get_default_config ∅ !! "mesh_course_points" = None /\
  get_default_config ∅ !! "mesh_coarse_points" = Some PyNone /\
  check_param (user ∪ get_default_config ∅) = Err (KeyError "mesh_course_points").
Proof.
  cbv zeta. apply check_param_missing_key.
  - reflexivity.
  - reflexivity.
  - left. reflexivity.
Defined.

End ConfigFacts.

(** * The array operations on arrays that are views of one list of rows

    In the intersection tests every array over the rays is the image
    [map g rows] of one list [rows], one entry per ray.  On such arrays the
    numpy operations act row by row. *)

Section ArrayFacts.
Context {R : Type}.

Lemma bcast_refl {A} (g : R -> A) (l : list R) : bcast (map g l) g l.
Proof. now left. Qed.

Lemma bcast_map {A B} (k : A -> B) (a : list A) (g : R -> A) (l : list R) :
  bcast a g l -> bcast (map k a) (fun r => k (g r)) l.
Proof.
  intros [-> | (c & -> & Hc)].
  - left. now rewrite map_map.
  - right. exists (k c). split; [reflexivity|]. intros r Hr. now rewrite Hc.
Qed.

Lemma zip_with_map_rows {A B C} (op : A -> B -> C) (g1 : R -> A) (g2 : R -> B) (l : list R) :
  zip_with op (map g1 l) (map g2 l) = map (fun r => op (g1 r) (g2 r)) l.
Proof. induction l as [|r l IH]; cbn; [reflexivity|]. now rewrite IH. Qed.

Lemma broadcast2_bcast_l {A B C} (op : A -> B -> C) a (g1 : R -> A) (g2 : R -> B) l :
  bcast a g1 l ->
  broadcast2 op a (map g2 l) = Ok (map (fun r => op (g1 r) (g2 r)) l).
Proof.
  intros [-> | (c & -> & Hc)]; unfold broadcast2.
  - rewrite !length_map, Nat.eqb_refl. now rewrite zip_with_map_rows.
  - assert (Hm : map (fun r => op c (g2 r)) l = map (fun r => op (g1 r) (g2 r)) l).
    { apply map_ext_in. intros r Hr. now rewrite Hc. }
    rewrite <- Hm. destruct (Nat.eqb _ _) eqn:He.
    + apply Nat.eqb_eq in He. rewrite length_map in He.
      destruct l as [|r [|r' l]]; try discriminate He. reflexivity.
    + now rewrite map_map.
Qed.

Lemma broadcast2_bcast_r {A B C} (op : A -> B -> C) b (g1 : R -> A) (g2 : R -> B) l :
  bcast b g2 l ->
  broadcast2 op (map g1 l) b = Ok (map (fun r => op (g1 r) (g2 r)) l).
Proof.
  intros [-> | (c & -> & Hc)]; unfold broadcast2.
  - rewrite !length_map, Nat.eqb_refl. now rewrite zip_with_map_rows.
  - assert (Hm : map (fun r => op (g1 r) c) l = map (fun r => op (g1 r) (g2 r)) l).
    { apply map_ext_in. intros r Hr. now rewrite Hc. }
    rewrite <- Hm. destruct (Nat.eqb _ _) eqn:He.
    + apply Nat.eqb_eq in He. rewrite length_map in He.
      destruct l as [|r [|r' l]]; try discriminate He. reflexivity.
    + apply Nat.eqb_neq in He. rewrite length_map in He.
      destruct l as [|r [|r' l]]; cbn in *; try lia; now rewrite ?map_map.
Qed.

Lemma broadcast2_map {A B C} (op : A -> B -> C) (g1 : R -> A) (g2 : R -> B) l :
  broadcast2 op (map g1 l) (map g2 l) = Ok (map (fun r => op (g1 r) (g2 r)) l).
Proof. apply broadcast2_bcast_l, bcast_refl. Qed.

Lemma iand_bcast c (gm g : R -> bool) l :
  bcast c g l ->
  iand (map gm l) c = Ok (map (fun r => gm r && g r) l).
Proof.
  intros [-> | (b & -> & Hc)]; unfold iand.
  - rewrite !length_map, Nat.eqb_refl. now rewrite zip_with_map_rows.
  - assert (Hm : map (fun r => gm r && b) l = map (fun r => gm r && g r) l).
    { apply map_ext_in. intros r Hr. now rewrite Hc. }
    rewrite <- Hm. destruct (Nat.eqb _ _) eqn:He.
    + apply Nat.eqb_eq in He. rewrite length_map in He.
      destruct l as [|r [|r' l]]; try discriminate He. reflexivity.
    + now rewrite map_map.
Qed.

Lemma iand_map (gm g : R -> bool) l :
  iand (map gm l) (map g l) = Ok (map (fun r => gm r && g r) l).
Proof. apply iand_bcast, bcast_refl. Qed.

Lemma select_map {A} (g : R -> A) (gm : R -> bool) l :
  select (map g l) (map gm l) = map g (List.filter gm l).
Proof.
  induction l as [|r l IH]; cbn; [reflexivity|].
  destruct (gm r); cbn; now rewrite IH.
Qed.

Lemma mask_select_map {A} (g : R -> A) (gm : R -> bool) l :
  mask_select (map g l) (map gm l) = Ok (map g (List.filter gm l)).
Proof. unfold mask_select. now rewrite !length_map, Nat.eqb_refl, select_map. Qed.

Lemma mask_fill_map {A} (g : R -> A) (gm : R -> bool) l v :
  mask_fill (map g l) (map gm l) v = Ok (map (fun r => if gm r then v else g r) l).
Proof.
  unfold mask_fill. rewrite !length_map, Nat.eqb_refl. now rewrite zip_with_map_rows.
Qed.

Lemma count_true_map (gm : R -> bool) l :
  count_true (map gm l) = length (List.filter gm l).
Proof.
  unfold count_true. induction l as [|r l IH]; cbn; [reflexivity|].
  destruct (gm r); cbn; now rewrite IH.
Qed.

Lemma scatter_map {A} (g val : R -> A) (gm : R -> bool) l :
  scatter (map g l) (map gm l) (map val (List.filter gm l))
  = map (fun r => if gm r then val r else g r) l.
Proof.
  induction l as [|r l IH]; cbn; [reflexivity|].
  destruct (gm r); cbn; now rewrite IH.
Qed.

Lemma mask_assign_map {A} (g val : R -> A) (gm : R -> bool) l :
  mask_assign (map g l) (map gm l) (map val (List.filter gm l))
  = Ok (map (fun r => if gm r then val r else g r) l).
Proof.
  unfold mask_assign. rewrite !length_map, Nat.eqb_refl. cbn [negb].
  rewrite count_true_map, Nat.eqb_refl. now rewrite scatter_map.
Qed.

Lemma np_any_map_false (gm : R -> bool) l :
  np_any (map gm l) = false -> forall r, In r l -> gm r = false.
Proof.
  unfold np_any. induction l as [|a l IH]; cbn; [intros _ r []|].
  intros Hor r [<-|Hr].
  - now destruct (gm a).
  - apply IH; [|exact Hr]. now destruct (gm a).
Qed.

End ArrayFacts.

(** * The exhaustive test, ray by ray *)

Section Intersect1Facts.
Context {T : Type} `{Scalar T}.
Import XicsrtOpticMesh.

(** When no ray survives one of the tests the pass leaves the state alone;
    so does the row-wise step. *)
Lemma step_row_rejected ii tri (r : row) :
  (r_m r = true -> r_dh r = r_d r) ->
  r_m r && accepts_h (r_o r) (r_d r) (r_dh r) tri = false ->
  row_state (step_row ii tri r) = row_state r.
Proof.
  intros Hown Hrej. unfold step_row, ray_step, accepts.
  destruct (r_m r) eqn:Hm; cbn [andb] in *.
  - rewrite (Hown eq_refl) in Hrej. rewrite Hrej. now destruct r.
  - now destruct r.
Qed.

Lemma step_row_accepted ii tri (r : row) :
  (r_m r = true -> r_dh r = r_d r) ->
  r_m r && accepts_h (r_o r) (r_d r) (r_dh r) tri = true ->
  row_state (step_row ii tri r) = (true, Some ii, hit_point_h (r_o r) (r_d r) (r_dh r) tri).
Proof.
  intros Hown Hacc. unfold step_row, ray_step, accepts, hit_point.
  destruct (r_m r) eqn:Hm; cbn [andb] in *; [|discriminate].
  rewrite (Hown eq_refl) in Hacc. rewrite Hacc. now rewrite (Hown eq_refl).
Qed.

Lemma state_of_unchanged (rows : list (@row T)) (f : @row T -> @row T) :
  (forall r, In r rows -> row_state (f r) = row_state r) ->
  state_of rows = state_of (map f rows).
Proof.
  intros Hf. unfold state_of. rewrite !map_map. f_equal; apply map_ext_in; intros r Hr;
    specialize (Hf r Hr); unfold row_state in Hf; congruence.
Qed.

Lemma face_body_rows (rows : list row) ii (tri : triangle T) :
  bcast (map r_d (List.filter r_m rows)) r_dh rows ->
  (forall r, In r rows -> r_m r = true -> r_dh r = r_d r) ->
  face_body (map r_o rows) (map r_d rows) (map r_m rows) ii
            (t_p0 tri) (t_p1 tri) (t_p2 tri) (state_of rows)
  = Ok (state_of (map (step_row ii tri) rows)).
Proof.
  intros Hb Hown. unfold face_body. cbv zeta.
  rewrite mask_select_map. cbn [rbind].
  set (h := map (fun d : vec3 T => cross d (vsub (t_p2 tri) (t_p0 tri)))
                (map r_d (List.filter r_m rows))).
  set (f := map (fun hj : vec3 T => dot (vsub (t_p1 tri) (t_p0 tri)) hj) h).
  set (fi := map (fun fj : T => s_div s_one fj) f).
  assert (Hh : bcast h (fun r => mt_h (r_dh r) tri) rows).
  { exact (bcast_map (fun d : vec3 T => cross d (vsub (t_p2 tri) (t_p0 tri))) _ _ _ Hb). }
  assert (Hf : bcast f (fun r => mt_f (r_dh r) tri) rows).
  { exact (bcast_map (fun hj : vec3 T => dot (vsub (t_p1 tri) (t_p0 tri)) hj) _ _ _ Hh). }
  assert (Hfi : bcast fi (fun r => s_div s_one (mt_f (r_dh r) tri)) rows).
  { exact (bcast_map (fun fj : T => s_div s_one fj) _ _ _ Hf). }
  clearbody h f fi.
  (* the near-parallel test *)
  rewrite (iand_bcast _ r_m _ rows (bcast_map _ _ _ _ Hf)). cbn [rbind].
  match goal with |- context [np_any ?l] => destruct (np_any l) eqn:Hany1 end; cbn [negb].
  2:{ f_equal. apply state_of_unchanged. intros r Hr.
      apply step_row_rejected; [now apply Hown|].
      pose proof (np_any_map_false _ _ Hany1 r Hr) as Hr1. cbv beta in Hr1.
      unfold accepts_h, near_parallel.
      destruct (r_m r); [|reflexivity]. cbn [andb] in *. now rewrite Hr1. }
  (* the test on u *)
  rewrite !map_map.
  rewrite (broadcast2_bcast_r dot _ _ _ rows Hh). cbn [rbind].
  rewrite (broadcast2_bcast_l s_mul _ _ _ rows Hfi). cbn [rbind].
  rewrite map_map, iand_map. cbn [rbind].
  match goal with |- context [np_any ?l] => destruct (np_any l) eqn:Hany2 end; cbn [negb].
  2:{ f_equal. apply state_of_unchanged. intros r Hr.
      apply step_row_rejected; [now apply Hown|].
      pose proof (np_any_map_false _ _ Hany2 r Hr) as Hr2. cbv beta in Hr2.
      unfold accepts_h, near_parallel, u_outside, mt_u, mt_s.
      destruct (r_m r); [|reflexivity]. cbn [andb] in *.
      destruct (negb _) in Hr2 |- *; cbn [andb] in *; [|reflexivity].
      now rewrite Hr2. }
  (* the test on v *)
  rewrite broadcast2_map. cbn [rbind].
  rewrite (broadcast2_bcast_l s_mul _ _ _ rows Hfi). cbn [rbind].
  rewrite broadcast2_map. cbn [rbind].
  rewrite !map_map, broadcast2_map. cbn [rbind].
  rewrite map_map, iand_map. cbn [rbind].
  match goal with |- context [np_any ?l] => destruct (np_any l) eqn:Hany3 end; cbn [negb].
  2:{ f_equal. apply state_of_unchanged. intros r Hr.
      apply step_row_rejected; [now apply Hown|].
      pose proof (np_any_map_false _ _ Hany3 r Hr) as Hr3. cbv beta in Hr3.
      unfold accepts_h, near_parallel, u_outside, v_outside, mt_u, mt_v, mt_q, mt_s.
      rewrite <- !andb_assoc in Hr3. rewrite <- !andb_assoc. exact Hr3. }
  (* the ray parameter, and the update of the state *)
  rewrite (broadcast2_bcast_l s_mul _ _ _ rows Hfi). cbn [rbind].
  unfold state_of. cbn [m_temp_2 hits X].
  rewrite mask_select_map. cbn [rbind].
  rewrite mask_assign_map. cbn [rbind].
  rewrite mask_fill_map. cbn [rbind].
  rewrite !mask_select_map. cbn [rbind].
  rewrite broadcast2_map. cbn [rbind].
  rewrite broadcast2_map. cbn [rbind].
  rewrite mask_assign_map. cbn [rbind].
  rewrite !map_map.
  assert (Hrow : forall r, In r rows ->
            (row_state (step_row ii tri r) =
             if r_m r && accepts_h (r_o r) (r_d r) (r_dh r) tri
             then (true, Some ii, hit_point_h (r_o r) (r_d r) (r_dh r) tri)
             else row_state r)).
  { intros r Hr. destruct (r_m r && accepts_h _ _ _ _) eqn:E.
    - now apply step_row_accepted; [apply Hown|].
    - now apply step_row_rejected; [apply Hown|]. }
  do 2 f_equal; apply map_ext_in; intros r Hr; specialize (Hrow r Hr);
    match goal with
    | |- (if ?c then _ else _) = _ =>
        assert (Hc : c = r_m r && accepts_h (r_o r) (r_d r) (r_dh r) tri)
          by (unfold accepts_h, near_parallel, u_outside, v_outside,
                mt_u, mt_v, mt_q, mt_s; now rewrite <- !andb_assoc);
        rewrite Hc
    end;
    unfold row_state, step_row, set_state in Hrow |- *;
    cbn [r_mt2 r_hit r_x] in Hrow |- *;
    destruct (r_m r && accepts_h _ _ _ _); injection Hrow as H1 H2 H3;
    first [exact (eq_sym H1) | exact (eq_sym H2) | exact (eq_sym H3)].
Qed.


Lemma set_state_row_state (r : @row T) : set_state r (row_state r) = r.
Proof. now destruct r. Qed.

Lemma row_state_set_state (r : @row T) st : row_state (set_state r st) = st.
Proof. now destruct st as [[a b] c]. Qed.

Lemma scan_row_cons ii tri tris (r : @row T) :
  scan_row (S ii) tris (step_row ii tri r) = scan_row ii (tri :: tris) r.
Proof.
  unfold scan_row, step_row. rewrite row_state_set_state. cbn [ray_scan].
  now destruct r.
Qed.

Lemma bcast_step_rows {A} (a : list A) (g : @row T -> A) (upd : @row T -> @row T) rows :
  (forall r, g (upd r) = g r) ->
  bcast a g rows -> bcast a g (map upd rows).
Proof.
  intros Hg [-> | (c & -> & Hc)].
  - left. rewrite map_map. apply map_ext. intros r. now rewrite Hg.
  - right. exists c. split; [reflexivity|]. intros r' Hr'.
    apply in_map_iff in Hr' as (r & <- & Hr). rewrite Hg. now apply Hc.
Qed.

Lemma filter_map_rows (upd : @row T -> @row T) (g : @row T -> bool) rows :
  (forall r, g (upd r) = g r) ->
  List.filter g (map upd rows) = map upd (List.filter g rows).
Proof.
  intros Hg. induction rows as [|r rows IH]; cbn; [reflexivity|].
  rewrite Hg. destruct (g r); cbn; now rewrite IH.
Qed.

Lemma face_loop_rows (tris : list (triangle T)) : forall ii (rows : list (@row T)),
  bcast (map r_d (List.filter r_m rows)) r_dh rows ->
  (forall r, In r rows -> r_m r = true -> r_dh r = r_d r) ->
  face_loop (map r_o rows) (map r_d rows) (map r_m rows) ii
            (map t_p0 tris) (map t_p1 tris) (map t_p2 tris) (state_of rows)
  = Ok (state_of (map (scan_row ii tris) rows)).
Proof.
  induction tris as [|tri tris IH]; intros ii rows Hb Hown; cbn [map face_loop].
  - f_equal. apply state_of_unchanged. intros r _. unfold scan_row. cbn [ray_scan].
    now rewrite set_state_row_state.
  - rewrite face_body_rows by assumption. cbn [rbind].
    set (rows' := map (step_row ii tri) rows).
    assert (Ho : map r_o rows = map r_o rows') by (unfold rows'; now rewrite map_map).
    assert (Hd : map r_d rows = map r_d rows') by (unfold rows'; now rewrite map_map).
    assert (Hm : map r_m rows = map r_m rows') by (unfold rows'; now rewrite map_map).
    rewrite Ho, Hd, Hm. rewrite IH.
    + f_equal. unfold rows'. rewrite map_map. f_equal. apply map_ext. intros r.
      apply scan_row_cons.
    + unfold rows'. rewrite filter_map_rows by reflexivity. rewrite map_map.
      apply bcast_step_rows; [reflexivity|]. exact Hb.
    + intros r' Hr'. unfold rows' in Hr'. apply in_map_iff in Hr' as (r & <- & Hr).
      exact (Hown r Hr).
Qed.

(** *** From the arrays of a batch to its rows *)

Lemma mk_rows_lookup (O D Dh : list (vec3 T)) (m : list bool) : forall j o d dh a,
  O !! j = Some o -> D !! j = Some d -> Dh !! j = Some dh -> m !! j = Some a ->
  mk_rows O D Dh m !! j = Some (Row o d dh a false None vzero).
Proof.
  revert D Dh m. induction O as [|o0 O IH]; intros D Dh m j o d dh a HO HD HDh Hm.
  - discriminate HO.
  - destruct D as [|d0 D]; [discriminate HD|].
    destruct Dh as [|dh0 Dh]; [discriminate HDh|].
    destruct m as [|a0 m]; [discriminate Hm|].
    destruct j as [|j]; cbn in *.
    + congruence.
    + now apply IH.
Qed.

Lemma mk_rows_maps (n : nat) : forall (O D Dh : list (vec3 T)) (m : list bool),
  length O = n -> length D = n -> length Dh = n -> length m = n ->
  map r_o (mk_rows O D Dh m) = O /\ map r_d (mk_rows O D Dh m) = D /\
  map r_dh (mk_rows O D Dh m) = Dh /\ map r_m (mk_rows O D Dh m) = m /\
  map r_mt2 (mk_rows O D Dh m) = replicate n false /\
  map r_hit (mk_rows O D Dh m) = replicate n None /\
  map r_x (mk_rows O D Dh m) = replicate n vzero.
Proof.
  induction n as [|n IH]; intros O D Dh m HO HD HDh Hm;
    destruct O as [|o O]; try discriminate HO;
    destruct D as [|d D]; try discriminate HD;
    destruct Dh as [|dh Dh]; try discriminate HDh;
    destruct m as [|a m]; try discriminate Hm.
  - repeat split.
  - cbn in HO, HD, HDh, Hm.
    destruct (IH O D Dh m) as (H1 & H2 & H3 & H4 & H5 & H6 & H7); try lia.
    cbn. now rewrite H1, H2, H3, H4, H5, H6, H7.
Qed.

Lemma count_true_le (m : list bool) : count_true m <= length m.
Proof.
  unfold count_true. induction m as [|b m IH]; cbn; [lia|]. destruct b; cbn; lia.
Qed.

Lemma select_all {A} (a : list A) (m : list bool) :
  length a = length m -> count_true m = length m -> select a m = a.
Proof.
  revert a. induction m as [|b m IH]; intros [|x a] Hlen Hall; try discriminate Hlen;
    [reflexivity|].
  pose proof (count_true_le m) as Hle. unfold count_true in *. cbn in *.
  destruct b; cbn in *; [|lia]. f_equal. apply IH; lia.
Qed.

Lemma length_select {A} (a : list A) (m : list bool) :
  length a = length m -> length (select a m) = count_true m.
Proof.
  revert a. induction m as [|b m IH]; intros [|x a] Hlen; try discriminate Hlen;
    [reflexivity|].
  unfold count_true in *. cbn in *. destruct b; cbn; rewrite IH; lia.
Qed.

Lemma select_lookup_active {A} (a : list A) (m : list bool) : forall j x,
  a !! j = Some x -> m !! j = Some true -> In x (select a m).
Proof.
  revert a. induction m as [|b m IH]; intros [|y a] j x Ha Hm; try discriminate.
  destruct j as [|j]; cbn in *.
  - injection Ha as ->. injection Hm as ->. now left.
  - destruct b; [right|]; now apply (IH a j).
Qed.

Lemma take_length {A} (a : list A) (idx : list nat) l :
  take a idx = Ok l -> length l = length idx.
Proof.
  revert l. induction idx as [|i idx IH]; intros l; cbn.
  - now intros [= <-].
  - destruct (a !! i); cbn; [|discriminate].
    destruct (take a idx) as [xs|]; cbn; [|discriminate].
    intros [= <-]. cbn. now rewrite (IH xs).
Qed.

Lemma triangles_corners (p0 p1 p2 : list (vec3 T)) :
  length p1 = length p0 -> length p2 = length p0 ->
  let tris := zip_with (fun P0 (P12 : vec3 T * vec3 T) => Tri P0 P12.1 P12.2) p0 (zip p1 p2) in
  map t_p0 tris = p0 /\ map t_p1 tris = p1 /\ map t_p2 tris = p2.
Proof.
  revert p1 p2. induction p0 as [|a p0 IH]; intros [|b p1] [|c p2] H1 H2;
    try discriminate; cbn; [repeat split|].
  destruct (IH p1 p2) as (E0 & E1 & E2); [cbn in *; lia..|].
  cbn in E0, E1, E2. now rewrite E0, E1, E2.
Qed.

Lemma mesh_triangles_corners (mesh : Mesh T) (tris : list (triangle T)) :
  mesh_triangles mesh = Ok tris ->
  take (mesh_points mesh) (map face0 (mesh_faces mesh)) = Ok (map t_p0 tris) /\
  take (mesh_points mesh) (map face1 (mesh_faces mesh)) = Ok (map t_p1 tris) /\
  take (mesh_points mesh) (map face2 (mesh_faces mesh)) = Ok (map t_p2 tris) /\
  length tris = length (mesh_faces mesh).
Proof.
  unfold mesh_triangles.
  destruct (take _ (map face0 _)) as [p0|] eqn:E0; cbn [rbind]; [|discriminate].
  destruct (take _ (map face1 _)) as [p1|] eqn:E1; cbn [rbind]; [|discriminate].
  destruct (take _ (map face2 _)) as [p2|] eqn:E2; cbn [rbind]; [|discriminate].
  intros [= <-].
  apply take_length in E0, E1, E2. rewrite length_map in E0, E1, E2.
  destruct (triangles_corners p0 p1 p2) as (H0 & H1 & H2); [lia..|].
  cbv zeta in H0, H1, H2. rewrite H0, H1, H2. repeat split.
  rewrite <- E0. rewrite <- H0 at 2. now rewrite length_map.
Qed.

Lemma in_replicate {A} (n : nat) (c x : A) : In x (replicate n c) -> x = c.
Proof. induction n as [|n IH]; cbn; [intros []|]. intros [<-|Hx]; [reflexivity|now apply IH]. Qed.

Lemma replicate_map_const {A B} (l : list A) (c : B) :
  replicate (length l) c = map (fun _ => c) l.
Proof. induction l as [|a l IH]; cbn; [reflexivity|]. now rewrite IH. Qed.

Lemma in_lookup {A} (l : list A) (x : A) : In x l -> exists j, l !! j = Some x.
Proof.
  induction l as [|a l IH]; [intros []|]. intros [<-|Hx].
  - now exists 0.
  - destruct (IH Hx) as [j Hj]. now exists (S j).
Qed.

(** The whole call on a batch whose shape the first mask update accepts:
    [Dh] is [D[m]] broadcast to the length of the batch. *)
Lemma intersect_1_rows (rays : RayBatch T) (mesh : Mesh T) tris (Dh : list (vec3 T)) :
  rays_wf rays ->
  mesh_triangles mesh = Ok tris ->
  length Dh = length (rays_mask rays) ->
  (select (rays_direction rays) (rays_mask rays) = Dh \/
   exists c, select (rays_direction rays) (rays_mask rays) = [c] /\
             Dh = replicate (length (rays_mask rays)) c) ->
  (forall j, rays_mask rays !! j = Some true -> Dh !! j = rays_direction rays !! j) ->
  let rows := mk_rows (rays_origin rays) (rays_direction rays) Dh (rays_mask rays) in
  mesh_intersect_1 rays mesh
  = (Ok (map (fun r => r_x (scan_row 0 tris r)) rows,
         map (fun r => r_hit (scan_row 0 tris r)) rows),
     set_mask rays (map (fun r => r_m r && r_mt2 (scan_row 0 tris r)) rows)).
Proof.
  intros [HO HD] Htris HDh Hsel Hact rows.
  destruct (mesh_triangles_corners mesh tris Htris) as (E0 & E1 & E2 & _).
  destruct (mk_rows_maps (length (rays_mask rays)) (rays_origin rays)
              (rays_direction rays) Dh (rays_mask rays) HO HD HDh eq_refl)
    as (Ro & Rd & Rdh & Rm & Rmt2 & Rhit & Rx).
  fold rows in Ro, Rd, Rdh, Rm, Rmt2, Rhit, Rx.
  unfold mesh_intersect_1. cbv zeta. rewrite E0, E1, E2. cbn [rbind].
  rewrite HD, <- Rmt2, <- Rhit, <- Rx. rewrite <- Ro, <- Rd, <- Rm.
  change (LoopState (map r_mt2 rows) (map r_hit rows) (map r_x rows)) with (state_of rows).
  rewrite face_loop_rows.
  - cbn [rbind]. unfold state_of. cbn [m_temp_2 hits X]. rewrite !map_map.
    rewrite iand_map. cbn [rbind]. reflexivity.
  - rewrite <- select_map, Rd, Rm.
    destruct Hsel as [Hs | (c & Hs & Hc)]; rewrite Hs.
    + left. now rewrite Rdh.
    + right. exists c. split; [reflexivity|]. intros r Hr.
      apply (in_replicate (length (rays_mask rays))). rewrite <- Hc, <- Rdh.
      now apply in_map.
  - intros r Hr Hrm. destruct (in_lookup _ _ Hr) as [j Hj].
    assert (Hmj : rays_mask rays !! j = Some true).
    { rewrite <- Rm, list_lookup_fmap, Hj. cbn. now rewrite Hrm. }
    specialize (Hact j Hmj). rewrite <- Rdh, <- Rd, !list_lookup_fmap, Hj in Hact.
    cbn in Hact. congruence.
Qed.

(** *** The loop of one ray *)

Lemma ray_scan_inactive (o d : vec3 T) tris : forall ii st,
  ray_scan false o d ii tris st = st.
Proof. induction tris as [|tri tris IH]; intros ii st; cbn; [reflexivity|apply IH]. Qed.

Lemma ray_scan_active (o d : vec3 T) tris : forall ii st,
  ray_scan true o d ii tris st
  = match last_hit o d ii tris with
    | Some (k, tri) => (true, Some k, hit_point o d tri)
    | None => st
    end.
Proof.
  induction tris as [|tri tris IH]; intros ii st; cbn [ray_scan last_hit]; [reflexivity|].
  rewrite IH. destruct (last_hit o d (S ii) tris) as [[k t']|]; [reflexivity|].
  unfold ray_step. cbn [andb]. now destruct (accepts o d tri).
Qed.

Lemma last_hit_none (o d : vec3 T) tris : forall ii,
  last_hit o d ii tris = None <-> existsb (accepts o d) tris = false.
Proof.
  induction tris as [|tri tris IH]; intros ii; cbn [last_hit existsb]; [tauto|].
  specialize (IH (S ii)). destruct (last_hit o d (S ii) tris) as [h|].
  - split; [discriminate|]. intros Hor. apply orb_false_iff in Hor as [_ Hex].
    apply IH in Hex. discriminate Hex.
  - rewrite (proj1 IH eq_refl), orb_false_r. destruct (accepts o d tri); split; congruence.
Qed.

Lemma last_hit_some (o d : vec3 T) tris : forall ii k tri,
  last_hit o d ii tris = Some (k, tri) ->
  ii <= k /\ tris !! (k - ii) = Some tri /\ accepts o d tri = true /\
  forall k' tri', k < k' -> tris !! (k' - ii) = Some tri' -> accepts o d tri' = false.
Proof.
  induction tris as [|t0 tris IH]; intros ii k tri; cbn [last_hit]; [discriminate|].
  destruct (last_hit o d (S ii) tris) as [[k1 t1]|] eqn:E.
  - intros [= -> ->]. destruct (IH (S ii) k tri E) as (Hle & Hk & Hacc & Hlater).
    split; [lia|]. split.
    + replace (k - ii) with (S (k - S ii)) by lia. exact Hk.
    + split; [exact Hacc|]. intros k' tri' Hlt Hk'.
      apply (Hlater k' tri' Hlt). replace (k' - ii) with (S (k' - S ii)) in Hk' by lia.
      exact Hk'.
  - destruct (accepts o d t0) eqn:Hacc; [|discriminate]. intros [= <- <-].
    split; [lia|]. rewrite Nat.sub_diag. split; [reflexivity|]. split; [exact Hacc|].
    intros k' tri' Hlt Hk'. replace (k' - ii) with (S (k' - S ii)) in Hk' by lia.
    cbn in Hk'. apply last_hit_none in E.
    rewrite <- not_true_iff_false. intros Ht. rewrite <- not_true_iff_false in E.
    apply E. apply existsb_exists. exists tri'. split; [|exact Ht].
    apply list_elem_of_In. now apply (list_elem_of_lookup_2 _ (k' - S ii)).
Qed.

Lemma iand_shape_error (m c : list bool) :
  length c <> length m -> length c <> 1 -> iand m c = Err ValueError.
Proof.
  intros Hn H1. unfold iand. destruct (Nat.eqb_spec (length c) (length m)); [contradiction|].
  destruct c as [|y [|z c]]; cbn in *; try reflexivity. lia.
Qed.

(** The row array [Dh] that a mask of an accepted shape gives. *)
Lemma mask_shape_rows (D : list (vec3 T)) (m : list bool) :
  length D = length m -> mask_shape_ok m ->
  exists Dh, length Dh = length m /\
    (select D m = Dh \/ exists c, select D m = [c] /\ Dh = replicate (length m) c) /\
    (forall j, m !! j = Some true -> Dh !! j = D !! j).
Proof.
  intros HD [Hall | Hone].
  - exists D. split; [exact HD|]. split; [left; now apply select_all|]. reflexivity.
  - pose proof (length_select D m HD) as Hlen. rewrite Hone in Hlen.
    destruct (select D m) as [|c [|c' l]] eqn:Hsel; try discriminate Hlen.
    exists (replicate (length m) c). split; [apply length_replicate|].
    split; [right; now exists c|].
    intros j Hj. pose proof (lookup_lt_Some _ _ _ Hj) as Hlt.
    destruct (lookup_lt_is_Some_2 D j) as [d Hd]; [lia|].
    pose proof (select_lookup_active D m j d Hd Hj) as Hin. rewrite Hsel in Hin.
    destruct Hin as [<-|[]]. rewrite Hd. apply lookup_replicate_2. exact Hlt.
Qed.

(** The exhaustive test on a batch whose mask has an accepted shape, in
    terms of [last_hit]. *)
Lemma intersect_1_per_ray (rays : RayBatch T) (mesh : Mesh T) tris :
  rays_wf rays ->
  mesh_triangles mesh = Ok tris ->
  mask_shape_ok (rays_mask rays) ->
  exists X hits m',
    mesh_intersect_1 rays mesh = (Ok (X, hits), set_mask rays m') /\
    length X = length (rays_mask rays) /\
    length hits = length (rays_mask rays) /\
    length m' = length (rays_mask rays) /\
    forall j o d a,
      rays_origin rays !! j = Some o ->
      rays_direction rays !! j = Some d ->
      rays_mask rays !! j = Some a ->
      m' !! j = Some (a && existsb (accepts o d) tris) /\
      match (if a then last_hit o d 0 tris else None) with
      | Some (k, tri) =>
          hits !! j = Some (Some k) /\ X !! j = Some (hit_point o d tri)
      | None => hits !! j = Some None /\ X !! j = Some vzero
      end.
Proof.
  intros Hwf Htris Hshape. pose proof Hwf as [HO HD].
  destruct (mask_shape_rows _ _ HD Hshape) as (Dh & HDh & Hsel & Hact).
  pose proof (intersect_1_rows rays mesh tris Dh Hwf Htris HDh Hsel Hact) as Hrun.
  cbv zeta in Hrun.
  set (rows := mk_rows (rays_origin rays) (rays_direction rays) Dh (rays_mask rays)) in *.
  destruct (mk_rows_maps (length (rays_mask rays)) (rays_origin rays)
              (rays_direction rays) Dh (rays_mask rays) HO HD HDh eq_refl)
    as (_ & _ & _ & Rm & _).
  fold rows in Rm.
  assert (Hlen : length rows = length (rays_mask rays)).
  { rewrite <- Rm. now rewrite length_map. }
  eexists _, _, _. split; [exact Hrun|].
  rewrite !length_map. repeat (split; [exact Hlen|]).
  intros j o d a Ho Hd Ha.
  destruct (lookup_lt_is_Some_2 Dh j) as [dh Hdh].
  { rewrite HDh. now apply lookup_lt_Some in Ha. }
  pose proof (mk_rows_lookup _ _ _ _ j o d dh a Ho Hd Hdh Ha) as Hrow. fold rows in Hrow.
  rewrite !list_lookup_fmap, Hrow. cbn [fmap option_fmap option_map].
  unfold scan_row, set_state, row_state. cbn [r_m r_o r_d r_mt2 r_hit r_x].
  destruct a.
  - rewrite ray_scan_active. cbn [andb].
    destruct (last_hit o d 0 tris) as [[k tri]|] eqn:Hlast; cbn [fst snd].
    + split; [|now split]. f_equal. symmetry. apply not_false_iff_true.
      intros Hex. apply (last_hit_none o d tris 0) in Hex. congruence.
    + split; [|now split]. f_equal. symmetry. now apply (last_hit_none o d tris 0).
  - rewrite ray_scan_inactive. cbn [andb fst snd]. now repeat split.
Qed.

Lemma intersect_1_shape_error (rays : RayBatch T) (mesh : Mesh T) tris :
  rays_wf rays ->
  mesh_triangles mesh = Ok tris ->
  tris <> [] ->
  ~ mask_shape_ok (rays_mask rays) ->
  mesh_intersect_1 rays mesh = (Err ValueError, rays).
Proof.
  intros [HO HD] Htris Hne Hshape.
  destruct (mesh_triangles_corners mesh tris Htris) as (E0 & E1 & E2 & _).
  unfold mesh_intersect_1. cbv zeta. rewrite E0, E1, E2. cbn [rbind].
  destruct tris as [|tri tris]; [contradiction|]. cbn [map face_loop].
  unfold face_body. cbv zeta. unfold mask_select. rewrite HD, Nat.eqb_refl. cbn [rbind].
  rewrite iand_shape_error; [reflexivity| |].
  - rewrite !length_map, length_select by exact HD. intros Hc. apply Hshape. now left.
  - rewrite !length_map, length_select by exact HD. intros Hc. apply Hshape. now right.
Qed.

Lemma accepts_rejections (o d : vec3 T) (tri : triangle T) :
  accepts o d tri
  = negb (near_parallel d tri || u_outside o d tri || v_outside o d d tri).
Proof.
  unfold accepts, accepts_h.
  now destruct (near_parallel d tri), (u_outside o d tri), (v_outside o d d tri).
Qed.

(** The exhaustive test on a batch in which every ray is active, or
    exactly one is.  The call returns.  A face rejects a ray when [f] lies
    strictly between [-1e-15] and [1e-15], when [u < 0] or [u > 1], or
    when [v < 0] or [u + v > 1], and accepts it otherwise.  The new mask
    of a ray is its old one and "some face accepted it".  For a ray that
    stays active the recorded face and hit point are those of the last
    face, in the order of the loop, that accepted it; any other ray keeps
    the zero row of [X] and an unwritten entry of [hits]. *)
Theorem exhaustive_test_per_ray (rays : RayBatch T) (mesh : Mesh T) tris :
  rays_wf rays ->
  mesh_triangles mesh = Ok tris ->
  mask_shape_ok (rays_mask rays) ->
  exists X hits m',
    mesh_intersect_1 rays mesh = (Ok (X, hits), set_mask rays m') /\
    length X = length (rays_mask rays) /\
    length hits = length (rays_mask rays) /\
    length m' = length (rays_mask rays) /\
    forall j o d a,
      rays_origin rays !! j = Some o ->
      rays_direction rays !! j = Some d ->
      rays_mask rays !! j = Some a ->
      (forall tri,
         accepts o d tri
         = negb (near_parallel d tri || u_outside o d tri || v_outside o d d tri)) /\
      m' !! j = Some (a && existsb (accepts o d) tris) /\
      if a && existsb (accepts o d) tris then
        exists k tri,
          tris !! k = Some tri /\ accepts o d tri = true /\
          (forall k' tri', k < k' -> tris !! k' = Some tri' -> accepts o d tri' = false) /\
          hits !! j = Some (Some k) /\ X !! j = Some (hit_point o d tri)
      else hits !! j = Some None /\ X !! j = Some vzero.
Proof.
  intros Hwf Htris Hshape.
  destruct (intersect_1_per_ray rays mesh tris Hwf Htris Hshape)
    as (X & hits & m' & Hrun & HX & Hh & Hm & Hrays).
  exists X, hits, m'. split; [exact Hrun|]. repeat (split; [assumption|]).
  intros j o d a Ho Hd Ha. destruct (Hrays j o d a Ho Hd Ha) as [Hmask Hhit].
  split; [intros tri; apply accepts_rejections|]. split; [exact Hmask|].
  destruct a; cbn [andb] in *.
  - destruct (last_hit o d 0 tris) as [[k tri]|] eqn:Hlast.
    + destruct (last_hit_some o d tris 0 k tri Hlast) as (_ & Hk & Hacc & Hlater).
      rewrite Nat.sub_0_r in Hk.
      assert (Hex : existsb (accepts o d) tris = true).
      { apply not_false_iff_true. intros Hn. apply (last_hit_none o d tris 0) in Hn.
        congruence. }
      rewrite Hex. exists k, tri. destruct Hhit as [Hhits HXj].
      repeat (split; [assumption|]). split; [|now split].
      intros k' tri' Hlt Hk'. apply (Hlater k' tri' Hlt). now rewrite Nat.sub_0_r.
    + apply (last_hit_none o d tris 0) in Hlast. now rewrite Hlast.
  - exact Hhit.
Qed.

(** On a mask of any other shape, and a mesh with at least one face, the
    first in-place mask update of the first face raises a [ValueError],
    and the batch is left as it was. *)
Theorem exhaustive_test_shape_error (rays : RayBatch T) (mesh : Mesh T) tris :
  rays_wf rays ->
  mesh_triangles mesh = Ok tris ->
  tris <> [] ->
  ~ mask_shape_ok (rays_mask rays) ->
  mesh_intersect_1 rays mesh = (Err ValueError, rays).
Proof. exact (intersect_1_shape_error rays mesh tris). Qed.

End Intersect1Facts.

(** * The candidate-restricted test, ray by ray *)

Section Intersect2Facts.
Context {T : Type} `{Scalar T}.
Import XicsrtOpticMesh.

Lemma zip_exact_map {R A B C} (op : A -> B -> C) (g1 : R -> A) (g2 : R -> B) (l : list R) :
  zip_exact op (map g1 l) (map g2 l) = Ok (map (fun r => op (g1 r) (g2 r)) l).
Proof.
  unfold zip_exact. rewrite !length_map, Nat.eqb_refl. now rewrite zip_with_map_rows.
Qed.

Lemma map_res_rows {R A} (f : R -> result A) (g : R -> A) (l : list R) :
  (forall r, In r l -> f r = Ok (g r)) ->
  map_res (fun x => x) (map f l) = Ok (map g l).
Proof.
  induction l as [|r l IH]; intros Hf; cbn; [reflexivity|].
  rewrite (Hf r (or_introl eq_refl)). cbn [rbind].
  rewrite IH; [reflexivity|]. intros r' Hr'. apply Hf. now right.
Qed.

Lemma map_res_map {R A B} (f : A -> result B) (g0 : R -> A) (g : R -> B) (l : list R) :
  (forall r, In r l -> f (g0 r) = Ok (g r)) ->
  map_res f (map g0 l) = Ok (map g l).
Proof.
  induction l as [|r l IH]; intros Hf; cbn; [reflexivity|].
  rewrite (Hf r (or_introl eq_refl)). cbn [rbind].
  rewrite IH; [reflexivity|]. intros r' Hr'. apply Hf. now right.
Qed.

Lemma map_res_length {A B} (f : A -> result B) (l : list A) l' :
  map_res f l = Ok l' -> length l' = length l.
Proof.
  revert l'. induction l as [|a l IH]; intros l'; cbn.
  - now intros [= <-].
  - destruct (f a); cbn; [|discriminate]. destruct (map_res f l) as [bs|]; cbn; [|discriminate].
    intros [= <-]. cbn. now rewrite (IH bs).
Qed.

Lemma map_res_lookup {A B} (f : A -> result B) (l : list A) l' j b :
  map_res f l = Ok l' -> l' !! j = Some b -> exists a, l !! j = Some a /\ f a = Ok b.
Proof.
  revert l' j. induction l as [|a l IH]; intros l' j; cbn.
  - intros [= <-]. discriminate.
  - destruct (f a) as [b0|] eqn:Ea; cbn; [|discriminate].
    destruct (map_res f l) as [bs|] eqn:El; cbn; [|discriminate].
    intros [= <-]. destruct j as [|j]; cbn.
    + intros [= <-]. now exists a.
    + intros Hj. exact (IH bs j eq_refl Hj).
Qed.

(** [np.argmax] picks the first candidate that passed. *)
Lemma first_true_lt (c : list bool) : c <> [] -> first_true c < length c.
Proof.
  induction c as [|b c IH]; [congruence|]. intros _. cbn.
  destruct b; [lia|]. destruct (np_any c) eqn:Hany; [|lia].
  destruct c; [discriminate Hany|]. apply -> Nat.succ_lt_mono. apply IH. discriminate.
Qed.

Lemma first_true_spec (c : list bool) :
  np_any c = true ->
  c !! first_true c = Some true /\ forall i, i < first_true c -> c !! i = Some false.
Proof.
  induction c as [|b c IH]; [discriminate|]. cbn [first_true].
  destruct b.
  - intros _. split; [reflexivity|]. intros i Hi. lia.
  - unfold np_any in *. cbn [existsb orb]. intros Hany. rewrite Hany.
    destruct (IH Hany) as [Hat Hbefore]. split; [exact Hat|].
    intros [|i] Hi; [reflexivity|]. apply Hbefore. lia.
Qed.

Lemma mk_rows2_lookup (O D : list (vec3 T)) (m : list bool) fi fm cands :
  forall j o d a ci cm cc,
  O !! j = Some o -> D !! j = Some d -> m !! j = Some a ->
  fi !! j = Some ci -> fm !! j = Some cm -> cands !! j = Some cc ->
  mk_rows2 O D m fi fm cands !! j = Some (CandRow o d a ci cm cc).
Proof.
  revert D m fi fm cands.
  induction O as [|o0 O IH]; intros D m fi fm cands j o d a ci cm cc HO HD Hm Hfi Hfm Hc.
  - discriminate HO.
  - destruct D as [|d0 D]; [discriminate HD|].
    destruct m as [|a0 m]; [discriminate Hm|].
    destruct fi as [|ci0 fi]; [discriminate Hfi|].
    destruct fm as [|cm0 fm]; [discriminate Hfm|].
    destruct cands as [|cc0 cands]; [discriminate Hc|].
    destruct j as [|j]; cbn in *.
    + congruence.
    + now apply IH.
Qed.

Lemma mk_rows2_maps (n : nat) : forall (O D : list (vec3 T)) (m : list bool) fi fm cands,
  length O = n -> length D = n -> length m = n ->
  length fi = n -> length fm = n -> length cands = n ->
  let rows := mk_rows2 O D m fi fm cands in
  map q_o rows = O /\ map q_d rows = D /\ map q_m rows = m /\
  map q_idx rows = fi /\ map q_valid rows = fm /\ map q_cands rows = cands /\
  length rows = n.
Proof.
  induction n as [|n IH]; intros O D m fi fm cands HO HD Hm Hfi Hfm Hc;
    destruct O as [|o O]; try discriminate HO;
    destruct D as [|d D]; try discriminate HD;
    destruct m as [|a m]; try discriminate Hm;
    destruct fi as [|ci fi]; try discriminate Hfi;
    destruct fm as [|cm fm]; try discriminate Hfm;
    destruct cands as [|cc cands]; try discriminate Hc.
  - repeat split.
  - cbn in HO, HD, Hm, Hfi, Hfm, Hc.
    destruct (IH O D m fi fm cands) as (H1 & H2 & H3 & H4 & H5 & H6 & H7); try lia.
    cbn. now rewrite H1, H2, H3, H4, H5, H6, H7.
Qed.

Lemma nth_lookup_lt {A} (l : list A) (i : nat) (dflt : A) :
  i < length l -> l !! i = Some (nth i l dflt).
Proof.
  revert i. induction l as [|a l IH]; intros [|i] Hi; cbn in *; try lia; [reflexivity|].
  apply IH. lia.
Qed.

(** The shapes of the rows of a well-formed call. *)
Lemma rows2_shapes (rays : RayBatch T) (mesh : Mesh T) K fi fm cands :
  candidates_wf rays K fi fm ->
  map_res (map_res (gather_candidate mesh)) fi = Ok cands ->
  let rows := mk_rows2 (rays_origin rays) (rays_direction rays) (rays_mask rays)
                       fi fm cands in
  (map q_o rows = rays_origin rays /\ map q_d rows = rays_direction rays /\
   map q_m rows = rays_mask rays /\ map q_idx rows = fi /\ map q_valid rows = fm /\
   map q_cands rows = cands /\ length rows = length (rays_mask rays)) /\
  forall r, In r rows ->
    length (q_idx r) = K /\ length (q_valid r) = K /\ length (q_cands r) = K /\
    map_res (gather_candidate mesh) (q_idx r) = Ok (q_cands r).
Proof.
  intros ((HO & HD) & Hfi & Hfm & HK & HKi & HKm) Hg rows.
  pose proof (map_res_length _ _ _ Hg) as Hc.
  pose proof (mk_rows2_maps (length (rays_mask rays)) (rays_origin rays)
                (rays_direction rays) (rays_mask rays) fi fm cands
                HO HD eq_refl Hfi Hfm ltac:(lia)) as Hmaps.
  cbv zeta in Hmaps. fold rows in Hmaps. split; [exact Hmaps|].
  destruct Hmaps as (_ & _ & _ & Ri & Rv & Rc & _).
  intros r Hr. destruct (in_lookup _ _ Hr) as [j Hj].
  assert (Hij : fi !! j = Some (q_idx r)) by (rewrite <- Ri, list_lookup_fmap, Hj; reflexivity).
  assert (Hvj : fm !! j = Some (q_valid r)) by (rewrite <- Rv, list_lookup_fmap, Hj; reflexivity).
  assert (Hcj : cands !! j = Some (q_cands r)) by (rewrite <- Rc, list_lookup_fmap, Hj; reflexivity).
  destruct (map_res_lookup _ _ _ _ _ Hg Hcj) as (ci & Hci & Hgi).
  rewrite Hij in Hci. injection Hci as <-.
  rewrite Forall_forall in HKi. rewrite Forall_forall in HKm.
  assert (Hli : length (q_idx r) = K).
  { apply HKi. apply list_elem_of_In. rewrite <- Ri. now apply in_map. }
  assert (Hlv : length (q_valid r) = K).
  { apply HKm. apply list_elem_of_In. rewrite <- Rv. now apply in_map. }
  repeat split; try assumption.
  rewrite (map_res_length _ _ _ Hgi). exact Hli.
Qed.

Lemma intersect_2_rows (rays : RayBatch T) (mesh : Mesh T) K fi fm cands :
  candidates_wf rays K fi fm ->
  map_res (map_res (gather_candidate mesh)) fi = Ok cands ->
  let rows := mk_rows2 (rays_origin rays) (rays_direction rays) (rays_mask rays)
                       fi fm cands in
  mesh_intersect_2 rays mesh fi fm
  = (Ok (map q_X rows, map q_face rows), set_mask rays (map q_hit rows)).
Proof.
  intros Hwf Hg rows.
  destruct (rows2_shapes rays mesh K fi fm cands Hwf Hg)
    as ((Ro & Rd & Rm & Ri & Rv & Rc & Rlen) & Hrows).
  fold rows in Ro, Rd, Rm, Ri, Rv, Rc, Rlen, Hrows.
  destruct Hwf as ((HO & HD) & Hfi & Hfm & HK & HKi & HKm).
  unfold mesh_intersect_2. cbv zeta. rewrite Hg. cbn [rbind].
  rewrite HD, <- Rlen, !replicate_map_const.
  rewrite <- Ro, <- Rd, <- Rm, <- Rv, <- Rc.
  rewrite zip_exact_map. cbn [rbind].
  rewrite !zip_exact_map. cbn [rbind fst snd].
  rewrite zip_exact_map. cbn [rbind].
  assert (Htest : forall r, In r rows -> length (q_test r) = K).
  { intros r Hr. destruct (Hrows r Hr) as (_ & Hv & Hc & _).
    unfold q_test, cand_tests. rewrite length_zip_with, length_map. lia. }
  rewrite (map_res_rows _ q_test).
  2:{ intros r Hr. destruct (Hrows r Hr) as (_ & Hv & Hc & _).
      unfold zip_exact. rewrite length_map, Hv, Hc, Nat.eqb_refl. reflexivity. }
  cbn [rbind]. rewrite map_map, iand_map. cbn [rbind].
  change (map (fun r : cand_row => q_m r && np_any (q_test r)) rows) with (map q_hit rows).
  assert (Hin : forall r, In r (List.filter q_hit rows) -> In r rows).
  { intros r Hr. now apply filter_In in Hr. }
  rewrite mask_select_map. cbn [rbind].
  assert (Hrows0 : Nat.eqb (table_rows (map q_test rows)) 0 = false).
  { apply Nat.eqb_neq. destruct rows as [|r0 rows0]; cbn [map table_rows]; [lia|].
    rewrite (Htest r0 (or_introl eq_refl)). lia. }
  rewrite Hrows0.
  rewrite (map_res_map argmax q_test (fun r => first_true (q_test r))).
  2:{ intros r Hr. specialize (Htest r (Hin r Hr)).
      destruct (q_test r); [cbn in Htest; lia|reflexivity]. }
  cbn [rbind]. rewrite <- Ri, mask_select_map. cbn [rbind].
  rewrite zip_exact_map. cbn [rbind].
  rewrite (map_res_rows _ (fun r => nth (first_true (q_test r)) (q_idx r) 0)).
  2:{ intros r Hr. specialize (Htest r (Hin r Hr)).
      destruct (Hrows r (Hin r Hr)) as (Hi & _).
      rewrite (nth_lookup_lt _ _ 0); [reflexivity|].
      rewrite Hi, <- Htest. apply first_true_lt. intros Hnil. rewrite Hnil in Htest.
      cbn in Htest. lia. }
  cbn [rbind]. rewrite map_map, mask_assign_map. cbn [rbind].
  rewrite mask_select_map. cbn [rbind].
  rewrite zip_exact_map. cbn [rbind].
  rewrite (map_res_rows _ (fun r => nth (first_true (q_test r)) (q_intersect r) vzero)).
  2:{ intros r Hr. specialize (Htest r (Hin r Hr)).
      destruct (Hrows r (Hin r Hr)) as (_ & _ & Hc & _).
      rewrite (nth_lookup_lt _ _ vzero); [reflexivity|].
      rewrite length_map, Hc, <- Htest. apply first_true_lt. intros Hnil.
      rewrite Hnil in Htest. cbn in Htest. lia. }
  cbn [rbind]. rewrite mask_assign_map. cbn [rbind].
  reflexivity.
Qed.

(** The candidate-restricted test on a well-formed call, in terms of
    [first_true]. *)
Lemma intersect_2_per_ray (rays : RayBatch T) (mesh : Mesh T) K fi fm cands :
  candidates_wf rays K fi fm ->
  map_res (map_res (gather_candidate mesh)) fi = Ok cands ->
  exists X hits m',
    mesh_intersect_2 rays mesh fi fm = (Ok (X, hits), set_mask rays m') /\
    length X = length (rays_mask rays) /\
    length hits = length (rays_mask rays) /\
    length m' = length (rays_mask rays) /\
    forall j o d a ci cm cc,
      rays_origin rays !! j = Some o ->
      rays_direction rays !! j = Some d ->
      rays_mask rays !! j = Some a ->
      fi !! j = Some ci -> fm !! j = Some cm -> cands !! j = Some cc ->
      let test := cand_tests o d cc cm in
      length test = K /\ length ci = K /\ length cc = K /\
      m' !! j = Some (a && np_any test) /\
      hits !! j = Some (if a && np_any test
                        then Some (nth (first_true test) ci 0) else None) /\
      X !! j = Some (if a && np_any test
                     then nth (first_true test) (map (cand_intersect o d) cc) vzero
                     else vzero).
Proof.
  intros Hwf Hg.
  pose proof (intersect_2_rows rays mesh K fi fm cands Hwf Hg) as Hrun. cbv zeta in Hrun.
  destruct (rows2_shapes rays mesh K fi fm cands Hwf Hg)
    as ((_ & _ & _ & _ & _ & _ & Rlen) & Hrows).
  set (rows := mk_rows2 (rays_origin rays) (rays_direction rays) (rays_mask rays)
                        fi fm cands) in *.
  eexists _, _, _. split; [exact Hrun|]. rewrite !length_map.
  repeat (split; [exact Rlen|]).
  intros j o d a ci cm cc Ho Hd Ha Hci Hcm Hcc test.
  pose proof (mk_rows2_lookup _ _ _ _ _ _ j o d a ci cm cc Ho Hd Ha Hci Hcm Hcc) as Hrow.
  fold rows in Hrow.
  assert (Hr : In (CandRow o d a ci cm cc) rows).
  { apply list_elem_of_In. now apply (list_elem_of_lookup_2 _ j). }
  destruct (Hrows _ Hr) as (Hli & Hlv & Hlc & _). cbn [q_idx q_valid q_cands] in Hli, Hlv, Hlc.
  split.
  { unfold test, cand_tests. rewrite length_zip_with, length_map. lia. }
  split; [exact Hli|]. split; [exact Hlc|].
  rewrite !list_lookup_fmap, Hrow. cbn [fmap option_fmap option_map].
  unfold q_X, q_face, q_hit, q_test, q_intersect. cbn [q_m q_o q_d q_cands q_valid q_idx].
  fold test. now repeat split.
Qed.

(** C2 (as amended).  On a call whose shapes agree and whose candidate
    indices are in range the candidate-restricted test returns.  A
    candidate passes exactly when its validity bit is set, the ray
    parameter [dist] is not negative, and the norms of the three cross
    products at the plane-intersection point (twice the areas of the
    three sub-triangles), summed, exceed the norm of the cross product of
    two edges of the face (twice its area) by less than [1e-10].  A ray
    stays active when it was active and one of its candidates passes; its
    hit face and hit point are then those of the first passing candidate
    of its list; any other ray is inactive, with a zero row of [X] and an
    unwritten entry of [hits]. *)
Theorem candidate_test_per_ray (rays : RayBatch T) (mesh : Mesh T) K fi fm cands :
  candidates_wf rays K fi fm ->
  map_res (map_res (gather_candidate mesh)) fi = Ok cands ->
  exists X hits m',
    mesh_intersect_2 rays mesh fi fm = (Ok (X, hits), set_mask rays m') /\
    length X = length (rays_mask rays) /\
    length hits = length (rays_mask rays) /\
    length m' = length (rays_mask rays) /\
    forall j o d a ci cm cc,
      rays_origin rays !! j = Some o ->
      rays_direction rays !! j = Some d ->
      rays_mask rays !! j = Some a ->
      fi !! j = Some ci -> fm !! j = Some cm -> cands !! j = Some cc ->
      let test := cand_tests o d cc cm in
      (forall i c valid, cc !! i = Some c -> cm !! i = Some valid ->
         test !! i = Some (s_ltb (cand_diff o d c) s_1em10
                           && s_leb s_zero (cand_dist o d c) && valid)) /\
      m' !! j = Some (a && np_any test) /\
      if a && np_any test then
        exists i face c,
          test !! i = Some true /\ (forall i', i' < i -> test !! i' = Some false) /\
          ci !! i = Some face /\ cc !! i = Some c /\
          hits !! j = Some (Some face) /\ X !! j = Some (cand_intersect o d c)
      else hits !! j = Some None /\ X !! j = Some vzero.
Proof.
  intros Hwf Hg.
  destruct (intersect_2_per_ray rays mesh K fi fm cands Hwf Hg)
    as (X & hits & m' & Hrun & HX & Hh & Hm & Hrays).
  exists X, hits, m'. split; [exact Hrun|]. repeat (split; [assumption|]).
  intros j o d a ci cm cc Ho Hd Ha Hci Hcm Hcc test.
  destruct (Hrays j o d a ci cm cc Ho Hd Ha Hci Hcm Hcc)
    as (Hlt & Hli & Hlc & Hmask & Hhits & HXj).
  fold test in Hlt, Hmask, Hhits, HXj.
  split.
  { intros i c valid Hc Hv. unfold test, cand_tests.
    rewrite lookup_zip_with, list_lookup_fmap, Hc, Hv. reflexivity. }
  split; [exact Hmask|].
  destruct (a && np_any test) eqn:Hhit; [|now split].
  apply andb_true_iff in Hhit as [_ Hany].
  destruct (first_true_spec test Hany) as [Hat Hbefore].
  assert (Hft : first_true test < K).
  { apply lookup_lt_Some in Hat. lia. }
  exists (first_true test), (nth (first_true test) ci 0),
         (nth (first_true test) cc (Cand vzero vzero vzero vzero)).
  split; [exact Hat|]. split; [exact Hbefore|].
  split; [apply nth_lookup_lt; lia|]. split; [apply nth_lookup_lt; lia|].
  split; [exact Hhits|]. rewrite HXj. f_equal.
  rewrite <- (map_nth (cand_intersect o d)).
  apply nth_indep. rewrite length_map. lia.
Qed.

End Intersect2Facts.

Section MeshExamples2.
Import XicsrtOpticMesh.

(** C1, at a failing input.  Three rays over the single triangle, the
    third one inactive on entry: [h] and [f] are computed for the two
    active rays, the in-place update of the mask of length 3 by an array
    of length 2 raises, and the call ends in a [ValueError] with the batch
    as it was.  The batch of the two active rays alone is processed. *)
Theorem exhaustive_test_partial_mask_fails :
  rays_mask rays_two_active = [true; true; false] /\
  length (mesh_faces triangle_mesh) = 1 /\
  mesh_intersect_1 rays_two_active triangle_mesh = (Err ValueError, rays_two_active) /\
  mesh_intersect_1 (rays_append ray_inside ray_outside) triangle_mesh
    = (Ok ([V3 0.2 0.2 0; V3 0 0 0]%float, [Some 0; None]),
       set_mask (rays_append ray_inside ray_outside) [true; false]).
Proof. vm_compute. repeat split. Qed.

Lemma triangle_mesh_triangles :
  mesh_triangles triangle_mesh = Ok [Tri (V3 0 0 0) (V3 1 0 0) (V3 0 1 0)]%float.
Proof. vm_compute. reflexivity. Defined.

Lemma exhaustive_test_per_ray_witness :
  exists X hits m',
    mesh_intersect_1 rays_one_active triangle_mesh
      = (Ok (X, hits), set_mask rays_one_active m') /\
    length X = 3 /\ length hits = 3 /\ length m' = 3.
Proof.
  destruct (exhaustive_test_per_ray rays_one_active triangle_mesh _
              ltac:(split; reflexivity) triangle_mesh_triangles
              ltac:(right; reflexivity))
    as (X & hits & m' & Hrun & HX & Hh & Hm & _).
  exists X, hits, m'. repeat split; assumption.
Defined.

Lemma exhaustive_test_shape_error_witness :
  mesh_intersect_1 rays_two_active triangle_mesh = (Err ValueError, rays_two_active).
Proof.
  apply (exhaustive_test_shape_error rays_two_active triangle_mesh _
           ltac:(split; reflexivity) triangle_mesh_triangles).
  - discriminate.
  - intros [Hc | Hc]; vm_compute in Hc; discriminate Hc.
Defined.

(** C2 as the spec words it fails.  The ray from (0.25, -7.5e-11, 1)
    straight down meets the plane of the triangle at (0.25, -7.5e-11, 0),
    just outside.  The three sub-triangle areas exceed the area of the
    face by 7.5e-11, less than 1e-10, so the candidate passes as the spec
    words the test; the code compares the cross-product norms, which
    differ by 1.5e-10, and rejects it: the ray becomes inactive. *)
Lemma candidate_test_counterexample :
  (let o := V3 0.25 (-7.5e-11) 1 in
   let d := V3 0 0 (-1) in
   gather_candidate triangle_mesh 0 = Ok triangle_candidate /\
   rays_origin ray_grazing = [o] /\ rays_direction ray_grazing = [d] /\
   cand_intersect o d triangle_candidate = V3 0.25 (-7.5e-11) 0 /\
   PrimFloat.leb 0 (cand_dist o d triangle_candidate) = true /\
   PrimFloat.ltb (spec_area_diff o d triangle_candidate) 7.6e-11 = true /\
   PrimFloat.ltb 7.4e-11 (spec_area_diff o d triangle_candidate) = true /\
   spec_cand_passes o d triangle_candidate true = true /\
   PrimFloat.ltb 1.4e-10 (cand_diff o d triangle_candidate) = true /\
   cand_tests o d [triangle_candidate] [true] = [false] /\
   mesh_intersect_2 ray_grazing triangle_mesh [vertex0_faces] [vertex0_valid]
     = (Ok ([V3 0 0 0], [None]), set_mask ray_grazing [false]))%float.
Proof. vm_compute. repeat split. Qed.

Lemma candidate_test_per_ray_witness :
  exists X hits m',
    mesh_intersect_2 rays_two_active triangle_mesh
      (replicate 3 vertex0_faces) (replicate 3 vertex0_valid)
      = (Ok (X, hits), set_mask rays_two_active m') /\
    length X = 3 /\ length hits = 3 /\ length m' = 3.
Proof.
  assert (Hwf : candidates_wf rays_two_active 8
                  (replicate 3 vertex0_faces) (replicate 3 vertex0_valid)).
  { unfold candidates_wf, rays_wf. cbn.
    repeat split; try reflexivity; try lia; repeat constructor. }
  assert (Hg : map_res (map_res (gather_candidate triangle_mesh))
                 (replicate 3 vertex0_faces)
               = Ok (replicate 3 (replicate 8 triangle_candidate))).
  { vm_compute. reflexivity. }
  destruct (candidate_test_per_ray rays_two_active triangle_mesh 8 _ _ _ Hwf Hg)
    as (X & hits & m' & Hrun & HX & Hh & Hm & _).
  exists X, hits, m'. repeat split; assumption.
Defined.

End MeshExamples2.

(** * Inactive rays *)

Section FrozenFacts.
Context {T : Type} `{Scalar T}.
Import XicsrtOpticMesh.

Lemma iand_narrow (m c m' : list bool) :
  iand m c = Ok m' ->
  length m' = length m /\ forall j, m !! j = Some false -> m' !! j = Some false.
Proof.
  unfold iand. destruct (Nat.eqb_spec (length c) (length m)) as [Hlen|_].
  - intros [= <-]. split; [rewrite length_zip_with; lia|].
    intros j Hj. rewrite lookup_zip_with, Hj. cbn.
    destruct (lookup_lt_is_Some_2 c j) as [y ->]; [|reflexivity].
    rewrite Hlen. now apply lookup_lt_Some in Hj.
  - destruct c as [|y [|z c]]; try discriminate. intros [= <-].
    split; [apply length_map|]. intros j Hj. now rewrite list_lookup_fmap, Hj.
Qed.

Lemma frame_kept_refl (rays : RayBatch T) : frame_kept rays rays.
Proof. unfold frame_kept. now repeat split. Qed.

Lemma frame_kept_set_mask (rays : RayBatch T) (c m' : list bool) :
  iand (rays_mask rays) c = Ok m' -> frame_kept rays (set_mask rays m').
Proof.
  intros Hm. destruct (iand_narrow _ _ _ Hm) as [Hlen Hnarrow].
  unfold frame_kept, set_mask. cbn. now repeat split.
Qed.

(** The exhaustive test changes nothing but the mask, and only narrows
    it: whether it returns or raises. *)
Lemma intersect_1_frame (rays : RayBatch T) (mesh : Mesh T) :
  frame_kept rays (mesh_intersect_1 rays mesh).2.
Proof.
  unfold mesh_intersect_1. cbv zeta.
  destruct (take _ (map face0 _)) as [p0|]; cbn [rbind]; [|apply frame_kept_refl].
  destruct (take _ (map face1 _)) as [p1|]; cbn [rbind]; [|apply frame_kept_refl].
  destruct (take _ (map face2 _)) as [p2|]; cbn [rbind]; [|apply frame_kept_refl].
  destruct (face_loop _ _ _ _ _ _ _ _) as [st|]; cbn [rbind]; [|apply frame_kept_refl].
  destruct (iand _ _) as [m'|] eqn:Hm; cbn [rbind snd]; [|apply frame_kept_refl].
  exact (frame_kept_set_mask rays _ _ Hm).
Qed.

(** So does the candidate-restricted test. *)
Lemma intersect_2_frame (rays : RayBatch T) (mesh : Mesh T) fi fm :
  frame_kept rays (mesh_intersect_2 rays mesh fi fm).2.
Proof.
  unfold mesh_intersect_2. cbv zeta.
  destruct (map_res (map_res (gather_candidate mesh)) fi) as [cands|];
    cbn [rbind]; [|apply frame_kept_refl].
  destruct (zip_exact pair _ _) as [OD|]; cbn [rbind]; [|apply frame_kept_refl].
  destruct (zip_exact _ OD cands) as [intersect|]; cbn [rbind]; [|apply frame_kept_refl].
  destruct (zip_exact _ OD cands) as [inside|]; cbn [rbind]; [|apply frame_kept_refl].
  destruct (zip_exact _ inside fm) as [test0|]; cbn [rbind]; [|apply frame_kept_refl].
  destruct (map_res _ test0) as [test|]; cbn [rbind]; [|apply frame_kept_refl].
  destruct (iand _ _) as [m'|] eqn:Hm; cbn [rbind snd]; [|apply frame_kept_refl].
  exact (frame_kept_set_mask rays _ _ Hm).
Qed.

Lemma intersect_1_triangles_err (rays : RayBatch T) (mesh : Mesh T) e :
  mesh_triangles mesh = Err e -> mesh_intersect_1 rays mesh = (Err e, rays).
Proof.
  unfold mesh_triangles, mesh_intersect_1. cbv zeta.
  destruct (take _ (map face0 _)) as [p0|]; cbn [rbind]; [|now intros [= ->]].
  destruct (take _ (map face1 _)) as [p1|]; cbn [rbind]; [|now intros [= ->]].
  destruct (take _ (map face2 _)) as [p2|]; cbn [rbind]; [|now intros [= ->]].
  discriminate.
Qed.

Lemma intersect_1_no_faces (rays : RayBatch T) (mesh : Mesh T) :
  mesh_triangles mesh = Ok [] ->
  mesh_intersect_1 rays mesh
  = (Ok (replicate (length (rays_direction rays)) vzero,
         replicate (length (rays_mask rays)) None),
     set_mask rays (zip_with andb (rays_mask rays)
                             (replicate (length (rays_mask rays)) false))).
Proof.
  intros Htris. destruct (mesh_triangles_corners mesh [] Htris) as (E0 & E1 & E2 & _).
  unfold mesh_intersect_1. cbv zeta. rewrite E0, E1, E2. cbn [rbind map face_loop].
  cbn [m_temp_2]. unfold iand. rewrite length_replicate, Nat.eqb_refl. reflexivity.
Qed.

Lemma mask_shape_dec (m : list bool) : {mask_shape_ok m} + {~ mask_shape_ok m}.
Proof.
  unfold mask_shape_ok.
  destruct (Nat.eq_dec (count_true m) (length m)) as [H1|H1]; [left; now left|].
  destruct (Nat.eq_dec (count_true m) 1) as [H2|H2]; [left; now right|].
  right. intros [?|?]; contradiction.
Qed.

(** The exhaustive test on any well-formed batch: it raises and leaves the
    batch alone, or it returns the arrays of [intersect_1_per_ray]. *)
Lemma intersect_1_cases (rays : RayBatch T) (mesh : Mesh T) :
  rays_wf rays ->
  (exists e, mesh_intersect_1 rays mesh = (Err e, rays) /\
     (forall rays2 : RayBatch T, rays_wf rays2 -> rays_mask rays2 = rays_mask rays ->
        mesh_intersect_1 rays2 mesh = (Err e, rays2))) \/
  (exists tris X hits m',
     mesh_triangles mesh = Ok tris /\
     (forall rays2 : RayBatch T, rays_wf rays2 -> rays_mask rays2 = rays_mask rays ->
        exists X2 hits2 m2,
          mesh_intersect_1 rays2 mesh = (Ok (X2, hits2), set_mask rays2 m2) /\
          length X2 = length (rays_mask rays) /\
          length hits2 = length (rays_mask rays) /\
          length m2 = length (rays_mask rays) /\
          forall j o d a,
            rays_origin rays2 !! j = Some o ->
            rays_direction rays2 !! j = Some d ->
            rays_mask rays !! j = Some a ->
            m2 !! j = Some (a && existsb (accepts o d) tris) /\
            match (if a then last_hit o d 0 tris else None) with
            | Some (k, tri) =>
                hits2 !! j = Some (Some k) /\ X2 !! j = Some (hit_point o d tri)
            | None => hits2 !! j = Some None /\ X2 !! j = Some vzero
            end) /\
     mesh_intersect_1 rays mesh = (Ok (X, hits), set_mask rays m')).
Proof.
  intros Hwf.
  destruct (mesh_triangles mesh) as [tris|e] eqn:Htris.
  2:{ left. exists e. split; [now apply intersect_1_triangles_err|].
      intros rays2 _ _. now apply intersect_1_triangles_err. }
  destruct (mask_shape_dec (rays_mask rays)) as [Hshape|Hshape].
  - right. destruct (intersect_1_per_ray rays mesh tris Hwf Htris Hshape)
      as (X & hits & m' & Hrun & _).
    exists tris, X, hits, m'. split; [reflexivity|]. split; [|exact Hrun].
    intros rays2 Hwf2 Hm2. rewrite <- Hm2 in Hshape |- *.
    exact (intersect_1_per_ray rays2 mesh tris Hwf2 Htris Hshape).
  - destruct tris as [|tri tris].
    + right. exists [].
      eexists _, _, _. split; [reflexivity|]. split; [|now apply intersect_1_no_faces].
      intros rays2 [HO2 HD2] Hm2. eexists _, _, _.
      split; [now apply intersect_1_no_faces|].
      rewrite HD2, Hm2, length_zip_with, !length_replicate.
      split; [reflexivity|]. split; [reflexivity|]. split; [lia|].
      intros j o d a _ _ Ha. pose proof (lookup_lt_Some _ _ _ Ha) as Hlt.
      rewrite lookup_zip_with, Ha. cbn.
      rewrite (lookup_replicate_2 _ _ _ Hlt). cbn. rewrite andb_false_r.
      split; [reflexivity|]. destruct a; cbn [last_hit]; split;
        now apply lookup_replicate_2.
    + left. exists ValueError. split.
      * now apply (intersect_1_shape_error rays mesh (tri :: tris)).
      * intros rays2 Hwf2 Hm2.
        apply (intersect_1_shape_error rays2 mesh (tri :: tris)); try assumption.
        -- discriminate.
        -- now rewrite Hm2.
Qed.

Lemma intersect_1_untouched (rays : RayBatch T) (mesh : Mesh T) :
  rays_wf rays -> untouched (mesh_intersect_1 rays mesh).1 (rays_mask rays).
Proof.
  intros Hwf X hits Hr j Hj.
  destruct (intersect_1_cases rays mesh Hwf)
    as [(e & He & _) | (tris & X0 & hits0 & m0 & _ & Hall & _)].
  - rewrite He in Hr. discriminate Hr.
  - destruct (Hall rays Hwf eq_refl) as (X2 & hits2 & m2 & Hrun & _ & _ & _ & Hrays).
    rewrite Hrun in Hr. cbn in Hr. injection Hr as <- <-.
    destruct Hwf as [HO HD]. pose proof (lookup_lt_Some _ _ _ Hj) as Hlt.
    destruct (lookup_lt_is_Some_2 (rays_origin rays) j) as [o Ho]; [lia|].
    destruct (lookup_lt_is_Some_2 (rays_direction rays) j) as [d Hd]; [lia|].
    destruct (Hrays j o d false Ho Hd Hj) as [_ [Hh HX]]. now split.
Qed.

Lemma lists_equal_pointwise {A} (l1 l2 : list A) (n : nat) :
  length l1 = n -> length l2 = n ->
  (forall j, j < n -> l1 !! j = l2 !! j) -> l1 = l2.
Proof.
  intros H1 H2 Hj. apply (list_eq_same_length l1 l2 n); [exact H2|exact H1|].
  intros i x y Hi Hx Hy. specialize (Hj i Hi). congruence.
Qed.

(** The result of the exhaustive test does not depend on the origins and
    directions of the inactive rays. *)
Lemma intersect_1_same_active (rays1 rays2 : RayBatch T) (mesh : Mesh T) :
  rays_wf rays1 -> rays_wf rays2 -> same_active rays1 rays2 ->
  (mesh_intersect_1 rays1 mesh).1 = (mesh_intersect_1 rays2 mesh).1 /\
  rays_mask (mesh_intersect_1 rays1 mesh).2 = rays_mask (mesh_intersect_1 rays2 mesh).2.
Proof.
  intros Hwf1 Hwf2 [Hm Hact].
  destruct (intersect_1_cases rays1 mesh Hwf1)
    as [(e & He & Hall) | (tris & X0 & hits0 & m0 & _ & Hall & _)].
  - rewrite He, (Hall rays2 Hwf2 Hm). cbn. now split.
  - destruct (Hall rays1 Hwf1 eq_refl) as (X1 & hits1 & m1 & -> & HX1 & Hh1 & Hm1 & Hr1).
    destruct (Hall rays2 Hwf2 Hm) as (X2 & hits2 & m2 & -> & HX2 & Hh2 & Hm2 & Hr2).
    cbn [fst snd set_mask rays_mask].
    pose proof Hwf1 as [HO1 HD1]. pose proof Hwf2 as [HO2 HD2]. rewrite Hm in HO2, HD2.
    assert (Hrow : forall j, j < length (rays_mask rays1) ->
              X1 !! j = X2 !! j /\ hits1 !! j = hits2 !! j /\ m1 !! j = m2 !! j).
    { intros j Hlt.
      destruct (lookup_lt_is_Some_2 (rays_mask rays1) j) as [a Ha]; [lia|].
      destruct (lookup_lt_is_Some_2 (rays_origin rays1) j) as [o1 Ho1]; [lia|].
      destruct (lookup_lt_is_Some_2 (rays_direction rays1) j) as [d1 Hd1]; [lia|].
      destruct (lookup_lt_is_Some_2 (rays_origin rays2) j) as [o2 Ho2]; [lia|].
      destruct (lookup_lt_is_Some_2 (rays_direction rays2) j) as [d2 Hd2]; [lia|].
      destruct (Hr1 j o1 d1 a Ho1 Hd1 Ha) as [Hma Hha].
      destruct (Hr2 j o2 d2 a Ho2 Hd2 Ha) as [Hmb Hhb].
      destruct a.
      - destruct (Hact j Ha) as [Eo Ed]. rewrite Ho1, Ho2 in Eo. rewrite Hd1, Hd2 in Ed.
        injection Eo as ->. injection Ed as ->.
        rewrite Hma, Hmb. destruct (last_hit o1 d1 0 tris) as [[k tri]|];
          destruct Hha as [-> ->]; destruct Hhb as [-> ->]; now repeat split.
      - rewrite Hma, Hmb. destruct Hha as [-> ->]; destruct Hhb as [-> ->].
        now repeat split. }
    split.
    + do 2 f_equal.
      * apply (lists_equal_pointwise _ _ _ HX1 HX2). intros j Hj. now apply Hrow.
      * apply (lists_equal_pointwise _ _ _ Hh1 Hh2). intros j Hj. now apply Hrow.
    + apply (lists_equal_pointwise _ _ _ Hm1 Hm2). intros j Hj. now apply Hrow.
Qed.

Lemma intersect_2_gather_err (rays : RayBatch T) (mesh : Mesh T) fi fm e :
  map_res (map_res (gather_candidate mesh)) fi = Err e ->
  mesh_intersect_2 rays mesh fi fm = (Err e, rays).
Proof. intros Hg. unfold mesh_intersect_2. cbv zeta. now rewrite Hg. Qed.

Lemma intersect_2_untouched (rays : RayBatch T) (mesh : Mesh T) K fi fm :
  candidates_wf rays K fi fm ->
  untouched (mesh_intersect_2 rays mesh fi fm).1 (rays_mask rays).
Proof.
  intros Hwf X hits Hr j Hj.
  destruct (map_res (map_res (gather_candidate mesh)) fi) as [cands|e] eqn:Hg.
  2:{ rewrite (intersect_2_gather_err rays mesh fi fm e Hg) in Hr. discriminate Hr. }
  destruct (intersect_2_per_ray rays mesh K fi fm cands Hwf Hg)
    as (X2 & hits2 & m2 & Hrun & _ & _ & _ & Hrays).
  rewrite Hrun in Hr. cbn in Hr. injection Hr as <- <-.
  pose proof (map_res_length _ _ _ Hg) as Hc.
  destruct Hwf as ((HO & HD) & Hfi & Hfm & _).
  pose proof (lookup_lt_Some _ _ _ Hj) as Hlt.
  destruct (lookup_lt_is_Some_2 (rays_origin rays) j) as [o Ho]; [lia|].
  destruct (lookup_lt_is_Some_2 (rays_direction rays) j) as [d Hd]; [lia|].
  destruct (lookup_lt_is_Some_2 fi j) as [ci Hci]; [lia|].
  destruct (lookup_lt_is_Some_2 fm j) as [cm Hcm]; [lia|].
  destruct (lookup_lt_is_Some_2 cands j) as [cc Hcc]; [lia|].
  destruct (Hrays j o d false ci cm cc Ho Hd Hj Hci Hcm Hcc)
    as (_ & _ & _ & _ & Hh & HX).
  now split.
Qed.

Lemma candidates_wf_same_mask (rays1 rays2 : RayBatch T) K fi fm :
  rays_wf rays2 -> rays_mask rays2 = rays_mask rays1 ->
  candidates_wf rays1 K fi fm -> candidates_wf rays2 K fi fm.
Proof.
  intros Hwf2 Hm (_ & Hrest). unfold candidates_wf. rewrite Hm. now split.
Qed.

(** Nor does the result of the candidate-restricted test. *)
Lemma intersect_2_same_active (rays1 rays2 : RayBatch T) (mesh : Mesh T) K fi fm :
  candidates_wf rays1 K fi fm -> rays_wf rays2 -> same_active rays1 rays2 ->
  (mesh_intersect_2 rays1 mesh fi fm).1 = (mesh_intersect_2 rays2 mesh fi fm).1 /\
  rays_mask (mesh_intersect_2 rays1 mesh fi fm).2
  = rays_mask (mesh_intersect_2 rays2 mesh fi fm).2.
Proof.
  intros Hwf1 Hwf2 [Hm Hact].
  pose proof (candidates_wf_same_mask rays1 rays2 K fi fm Hwf2 Hm Hwf1) as Hwf2'.
  destruct (map_res (map_res (gather_candidate mesh)) fi) as [cands|e] eqn:Hg.
  2:{ rewrite !(intersect_2_gather_err _ mesh fi fm e Hg). cbn. now split. }
  destruct (intersect_2_per_ray rays1 mesh K fi fm cands Hwf1 Hg)
    as (X1 & hits1 & m1 & -> & HX1 & Hh1 & Hm1 & Hr1).
  destruct (intersect_2_per_ray rays2 mesh K fi fm cands Hwf2' Hg)
    as (X2 & hits2 & m2 & -> & HX2 & Hh2 & Hm2 & Hr2).
  cbn [fst snd set_mask rays_mask]. rewrite Hm in HX2, Hh2, Hm2.
  pose proof (map_res_length _ _ _ Hg) as Hc.
  destruct Hwf1 as ((HO1 & HD1) & Hfi & Hfm & _).
  destruct Hwf2 as [HO2 HD2]. rewrite Hm in HO2, HD2.
  assert (Hrow : forall j, j < length (rays_mask rays1) ->
            X1 !! j = X2 !! j /\ hits1 !! j = hits2 !! j /\ m1 !! j = m2 !! j).
  { intros j Hlt.
    destruct (lookup_lt_is_Some_2 (rays_mask rays1) j) as [a Ha]; [lia|].
    destruct (lookup_lt_is_Some_2 (rays_origin rays1) j) as [o1 Ho1]; [lia|].
    destruct (lookup_lt_is_Some_2 (rays_direction rays1) j) as [d1 Hd1]; [lia|].
    destruct (lookup_lt_is_Some_2 (rays_origin rays2) j) as [o2 Ho2]; [lia|].
    destruct (lookup_lt_is_Some_2 (rays_direction rays2) j) as [d2 Hd2]; [lia|].
    destruct (lookup_lt_is_Some_2 fi j) as [ci Hci]; [lia|].
    destruct (lookup_lt_is_Some_2 fm j) as [cm Hcm]; [lia|].
    destruct (lookup_lt_is_Some_2 cands j) as [cc Hcc]; [lia|].
    assert (Ha2 : rays_mask rays2 !! j = Some a) by now rewrite Hm.
    destruct (Hr1 j o1 d1 a ci cm cc Ho1 Hd1 Ha Hci Hcm Hcc)
      as (_ & _ & _ & -> & -> & ->).
    destruct (Hr2 j o2 d2 a ci cm cc Ho2 Hd2 Ha2 Hci Hcm Hcc)
      as (_ & _ & _ & -> & -> & ->).
    destruct a.
    - destruct (Hact j Ha) as [Eo Ed]. rewrite Ho1, Ho2 in Eo. rewrite Hd1, Hd2 in Ed.
      injection Eo as ->. injection Ed as ->. now repeat split.
    - now repeat split. }
  split.
  - do 2 f_equal.
    + apply (lists_equal_pointwise _ _ _ HX1 HX2). intros j Hj. now apply Hrow.
    + apply (lists_equal_pointwise _ _ _ Hh1 Hh2). intros j Hj. now apply Hrow.
  - apply (lists_equal_pointwise _ _ _ Hm1 Hm2). intros j Hj. now apply Hrow.
Qed.

(** C9.  Both intersection tests leave the rays that are inactive on
    entry frozen.  Whether a test returns or raises, it changes no array
    of the batch but the mask, and an inactive ray stays inactive.  When
    it returns, the rows of [X] and [hits] of the inactive rays were
    never written.  And what it returns, and the mask it leaves, do not
    depend on the origins and directions of the inactive rays: a batch
    that differs only there gives the same. *)
Theorem inactive_rays_frozen (rays rays2 : RayBatch T) (mesh : Mesh T)
    (K : nat) (faces_idx : list (list nat)) (faces_mask : list (list bool)) :
  rays_wf rays ->
  (frame_kept rays (mesh_intersect_1 rays mesh).2 /\
   untouched (mesh_intersect_1 rays mesh).1 (rays_mask rays) /\
   (rays_wf rays2 -> same_active rays rays2 ->
    (mesh_intersect_1 rays mesh).1 = (mesh_intersect_1 rays2 mesh).1 /\
    rays_mask (mesh_intersect_1 rays mesh).2
    = rays_mask (mesh_intersect_1 rays2 mesh).2)) /\
  (frame_kept rays (mesh_intersect_2 rays mesh faces_idx faces_mask).2 /\
   (candidates_wf rays K faces_idx faces_mask ->
    untouched (mesh_intersect_2 rays mesh faces_idx faces_mask).1 (rays_mask rays) /\
    (rays_wf rays2 -> same_active rays rays2 ->
     (mesh_intersect_2 rays mesh faces_idx faces_mask).1
     = (mesh_intersect_2 rays2 mesh faces_idx faces_mask).1 /\
     rays_mask (mesh_intersect_2 rays mesh faces_idx faces_mask).2
     = rays_mask (mesh_intersect_2 rays2 mesh faces_idx faces_mask).2))).
Proof.
  intros Hwf. split; [split; [|split]|split].
  - apply intersect_1_frame.
  - now apply intersect_1_untouched.
  - intros Hwf2 Hsame. now apply intersect_1_same_active.
  - apply intersect_2_frame.
  - intros Hc. split.
    + now apply (intersect_2_untouched rays mesh K).
    + intros Hwf2 Hsame. now apply (intersect_2_same_active rays rays2 mesh K).
Qed.

End FrozenFacts.

(** * The refinement stage of [trace] *)

Section RefineFacts.
Context {T : Type} `{Scalar T}.
Import XicsrtOpticMesh.

Lemma take_in_range {A} (a : list A) (idx : list nat) :
  (forall i, In i idx -> i < length a) ->
  exists l, take a idx = Ok l /\ length l = length idx /\ forall x, In x l -> In x a.
Proof.
  induction idx as [|i idx IH]; intros Hin; cbn [take].
  - exists []. repeat split. intros x [].
  - destruct (lookup_lt_is_Some_2 a i) as [x Hx]; [apply Hin; now left|].
    destruct IH as (l & -> & Hlen & Hl); [intros i' Hi'; apply Hin; now right|].
    rewrite Hx. cbn [of_option rbind]. exists (x :: l). split; [reflexivity|].
    split; [cbn; now rewrite Hlen|]. intros y [<-|Hy].
    + apply list_elem_of_In. now apply (list_elem_of_lookup_2 _ i).
    + now apply Hl.
Qed.

Lemma map_res_total {A B} (f : A -> result B) (l : list A) :
  (forall a, In a l -> exists b, f a = Ok b) -> exists l', map_res f l = Ok l'.
Proof.
  induction l as [|a l IH]; intros Hf; cbn [map_res]; [now exists []|].
  destruct (Hf a (or_introl eq_refl)) as [b ->].
  destruct IH as [l' ->]; [intros a' Ha'; apply Hf; now right|].
  cbn [rbind]. now eexists.
Qed.

Lemma count_true_narrow (m m' : list bool) :
  length m' = length m ->
  (forall j, m !! j = Some false -> m' !! j = Some false) ->
  count_true m' <= count_true m.
Proof.
  revert m'. induction m as [|a m IH]; intros [|a' m'] Hlen Hn; try discriminate Hlen.
  - unfold count_true. cbn. lia.
  - assert (IHm : count_true m' <= count_true m).
    { apply IH; [cbn in Hlen; lia|]. intros j Hj. exact (Hn (S j) Hj). }
    unfold count_true in *. cbn.
    destruct a.
    + destruct a'; cbn; lia.
    + specialize (Hn 0 eq_refl). cbn in Hn. injection Hn as ->. cbn. lia.
Qed.

(** The nearest-vertex lookup of a well-formed mesh returns one candidate
    column per query point, each a column of the adjacency table. *)
Lemma find_near_faces_total (Xc : list (vec3 T)) (mesh : Mesh T) K :
  mesh_tables_wf mesh K ->
  exists fi fm,
    find_near_faces Xc mesh = Ok (fi, fm) /\
    length fi = length Xc /\ length fm = length Xc /\
    Forall (fun c => length c = K) fi /\ Forall (fun c => length c = K) fm /\
    (forall col, In col fi -> In col (p_faces_idx mesh)).
Proof.
  intros (HK & Hlen & HKi & HKm & Hg & Htree). unfold find_near_faces.
  destruct (take_in_range (p_faces_idx mesh) (map (points_tree mesh) Xc))
    as (fi & -> & Hfi & Hini).
  { intros i Hi. apply in_map_iff in Hi as (x & <- & _). apply Htree. }
  destruct (take_in_range (p_faces_mask mesh) (map (points_tree mesh) Xc))
    as (fm & -> & Hfm & Hinm).
  { intros i Hi. apply in_map_iff in Hi as (x & <- & _). rewrite Hlen. apply Htree. }
  cbn [rbind]. exists fi, fm. rewrite length_map in Hfi, Hfm.
  split; [reflexivity|]. split; [exact Hfi|]. split; [exact Hfm|].
  rewrite Forall_forall in HKi. rewrite Forall_forall in HKm.
  split; [|split].
  - apply Forall_forall. intros c Hc. apply HKi. apply list_elem_of_In, Hini.
    now apply list_elem_of_In.
  - apply Forall_forall. intros c Hc. apply HKm. apply list_elem_of_In, Hinm.
    now apply list_elem_of_In.
  - exact Hini.
Qed.

(** C8.  In the refinement path of [trace], on a batch the coarse test
    accepts and a fine mesh with well-formed tables, the stage returns.
    The number it reports as lost is the count of rays active after the
    coarse exhaustive test minus the count active after the fine
    candidate-restricted test; it is not negative; the log gains one
    warning carrying that number when it is not zero and nothing when it
    is zero; nothing is raised and no test is repeated either way. *)
Theorem refinement_loss_accounting (param : @Param T) (w : @World T)
    (mesh_coarse : Mesh T) tris K :
  param_mesh_coarse param = Some mesh_coarse ->
  rays_wf (w_rays w) ->
  mask_shape_ok (rays_mask (w_rays w)) ->
  mesh_triangles mesh_coarse = Ok tris ->
  mesh_tables_wf (param_mesh param) K ->
  exists X_c hits_c faces_idx faces_mask X hits w',
    mesh_intersect_1 (w_rays w) mesh_coarse
      = (Ok (X_c, hits_c), (mesh_intersect_1 (w_rays w) mesh_coarse).2) /\
    find_near_faces X_c (param_mesh param) = Ok (faces_idx, faces_mask) /\
    let rays1 := (mesh_intersect_1 (w_rays w) mesh_coarse).2 in
    mesh_intersect_2 rays1 (param_mesh param) faces_idx faces_mask
      = (Ok (X, hits), w_rays w') /\
    trace_refine param w = (Ok (X, hits), w') /\
    let num_rays_coarse := count_true (rays_mask rays1) in
    let num_rays_fine := count_true (rays_mask (w_rays w')) in
    let num_rays_lost := (Z.of_nat num_rays_coarse - Z.of_nat num_rays_fine)%Z in
    (0 <= num_rays_lost)%Z /\
    w_log w' = w_log w ++ (if Z.eqb num_rays_lost 0 then []
                           else [Warning_rays_lost num_rays_lost num_rays_coarse]).
Proof.
  intros Hcoarse Hwf Hshape Htris Htables.
  destruct (intersect_1_per_ray (w_rays w) mesh_coarse tris Hwf Htris Hshape)
    as (X_c & hits_c & m1 & Hrun1 & HXc & _ & Hm1 & _).
  destruct (find_near_faces_total X_c (param_mesh param) K Htables)
    as (fi & fm & Hnear & Hfi & Hfm & HKi & HKm & Hcols).
  set (rays1 := set_mask (w_rays w) m1).
  assert (Hwf1 : rays_wf rays1).
  { destruct Hwf as [HO HD]. unfold rays_wf, rays1, set_mask. cbn. lia. }
  assert (Hc : candidates_wf rays1 K fi fm).
  { destruct Htables as (HK & _). unfold candidates_wf.
    assert (Hl : length (rays_mask rays1) = length (rays_mask (w_rays w))) by exact Hm1.
    rewrite Hl. split; [exact Hwf1|]. split; [lia|]. split; [lia|].
    split; [exact HK|]. now split. }
  destruct (map_res_total (map_res (gather_candidate (param_mesh param))) fi)
    as [cands Hg].
  { intros col Hcol. apply map_res_total. intros i Hi.
    destruct Htables as (_ & _ & _ & _ & Hgather & _).
    exact (Hgather col i (Hcols col Hcol) Hi). }
  destruct (intersect_2_per_ray rays1 (param_mesh param) K fi fm cands Hc Hg)
    as (X & hits & m2 & Hrun2 & _ & _ & Hm2 & _).
  pose proof (intersect_2_frame rays1 (param_mesh param) fi fm) as Hframe.
  rewrite Hrun2 in Hframe. cbn [snd] in Hframe.
  destruct Hframe as (_ & _ & _ & _ & Hlen & Hnarrow).
  pose proof (count_true_narrow _ _ Hlen Hnarrow) as Hle.
  set (lost := (Z.of_nat (count_true (rays_mask rays1))
                - Z.of_nat (count_true (rays_mask (set_mask rays1 m2))))%Z).
  exists X_c, hits_c, fi, fm, X, hits,
    (MkWorld (set_mask rays1 m2)
       (w_log w ++ (if Z.eqb lost 0 then []
                    else [Warning_rays_lost lost (count_true (rays_mask rays1))]))).
  rewrite Hrun1. cbn [snd]. fold rays1.
  split; [reflexivity|]. split; [exact Hnear|]. cbv zeta. cbn [w_rays w_log].
  split; [exact Hrun2|]. split.
  - unfold trace_refine. rewrite Hcoarse, Hrun1. fold rays1.
    cbn [set_rays w_rays w_log]. rewrite Hnear, Hrun2.
    unfold num_rays. cbn [set_rays w_rays w_log]. fold lost.
    destruct (Z.eqb lost 0); cbn [negb]; unfold log_append; cbn [w_rays w_log].
    + now rewrite app_nil_r.
    + reflexivity.
  - fold lost. split; [unfold lost; lia|reflexivity].
Qed.

End RefineFacts.

Section MeshExamples3.
Import XicsrtOpticMesh.

Lemma argmin_from_bound (ds : list float) : forall best best_d i,
  best < i -> argmin_from best best_d i ds < i + length ds.
Proof.
  induction ds as [|d ds IH]; intros best best_d i Hlt; cbn [argmin_from length].
  - lia.
  - destruct (PrimFloat.ltb d best_d).
    + specialize (IH i d (S i)). lia.
    + specialize (IH best best_d (S i)). lia.
Qed.

Lemma nearest_point_bound (points : list (vec3 float)) (x : vec3 float) :
  points <> [] -> nearest_point points x < length points.
Proof.
  intros Hne. unfold nearest_point, argmin.
  destruct points as [|p points]; [contradiction|]. cbn [map length].
  pose proof (argmin_from_bound (map (fun p0 => dot (vsub p0 x) (vsub p0 x)) points)
                0 (dot (vsub p x) (vsub p x)) 1 ltac:(lia)) as Hb.
  rewrite length_map in Hb. lia.
Qed.

Lemma triangle_mesh_tables : mesh_tables_wf triangle_mesh 8.
Proof.
  unfold mesh_tables_wf.
  split; [lia|]. split; [reflexivity|].
  split; [repeat constructor|]. split; [repeat constructor|]. split.
  - intros col fi Hcol Hfi. exists triangle_candidate.
    assert (Hz : fi = 0).
    { vm_compute in Hcol.
      repeat (destruct Hcol as [<-|Hcol]; [vm_compute in Hfi; intuition congruence|]).
      destruct Hcol. }
    subst fi. vm_compute. reflexivity.
  - intros x. change (points_tree triangle_mesh x) with (nearest_point triangle_points x).
    apply (nearest_point_bound triangle_points x). discriminate.
Defined.

Lemma coarse_mesh_triangles :
  mesh_triangles coarse_mesh = Ok [Tri (V3 (-1) (-1) 0) (V3 3 (-1) 0) (V3 (-1) 3 0)]%float.
Proof. vm_compute. reflexivity. Defined.

(** The stage on two active rays, of which the fine test keeps one: one
    warning, "1 of 2". *)
Lemma refinement_loss_accounting_witness :
  exists X hits w',
    trace_refine refine_param refine_world = (Ok (X, hits), w') /\
    rays_mask (w_rays w') = [true; false] /\
    w_log w' = [Warning_rays_lost 1 2].
Proof.
  destruct (refinement_loss_accounting refine_param refine_world coarse_mesh _ 8
              eq_refl ltac:(split; reflexivity) ltac:(left; reflexivity)
              coarse_mesh_triangles triangle_mesh_tables)
    as (X_c & hits_c & fi & fm & X & hits & w' & _ & _ & _ & Htrace & _).
  exists X, hits, w'. split; [exact Htrace|].
  assert (Hrun : (trace_refine refine_param refine_world).2
                 = MkWorld (set_mask (w_rays refine_world) [true; false])
                           [Warning_rays_lost 1 2]).
  { vm_compute. reflexivity. }
  rewrite Htrace in Hrun. cbn [snd] in Hrun. subst w'. split; reflexivity.
Defined.

(** A batch with two inactive rays, and the same batch with those two
    rays moved and turned. *)
Lemma inactive_rays_frozen_witness :
  let tbl := replicate 3 vertex0_faces in
  let tblm := replicate 3 vertex0_valid in
  (frame_kept rays_one_active (mesh_intersect_1 rays_one_active triangle_mesh).2 /\
   untouched (mesh_intersect_1 rays_one_active triangle_mesh).1 [true; false; false] /\
   (mesh_intersect_1 rays_one_active triangle_mesh).1
   = (mesh_intersect_1 rays_one_active_moved triangle_mesh).1) /\
  (frame_kept rays_one_active (mesh_intersect_2 rays_one_active triangle_mesh tbl tblm).2 /\
   untouched (mesh_intersect_2 rays_one_active triangle_mesh tbl tblm).1
             [true; false; false] /\
   (mesh_intersect_2 rays_one_active triangle_mesh tbl tblm).1
   = (mesh_intersect_2 rays_one_active_moved triangle_mesh tbl tblm).1).
Proof.
  cbv zeta.
  assert (Hwf : rays_wf rays_one_active) by (split; reflexivity).
  assert (Hwf2 : rays_wf rays_one_active_moved) by (split; reflexivity).
  assert (Hsame : same_active rays_one_active rays_one_active_moved).
  { split; [reflexivity|]. intros [|[|[|j]]] Hj; try discriminate Hj.
    split; reflexivity. }
  assert (Hc : candidates_wf rays_one_active 8
                 (replicate 3 vertex0_faces) (replicate 3 vertex0_valid)).
  { unfold candidates_wf. split; [exact Hwf|]. cbn.
    repeat split; try reflexivity; try lia; repeat constructor. }
  destruct (inactive_rays_frozen rays_one_active rays_one_active_moved triangle_mesh 8
              (replicate 3 vertex0_faces) (replicate 3 vertex0_valid) Hwf)
    as [(F1 & U1 & S1) (F2 & W2)].
  destruct (W2 Hc) as [U2 S2].
  split; (split; [assumption|]; split; [assumption|]).
  - exact (proj1 (S1 Hwf2 Hsame)).
  - exact (proj1 (S2 Hwf2 Hsame)).
Defined.

End MeshExamples3.

(** * Further properties of the coordinate frame *)

Section FrameFacts.
Import GeometryObject.

Lemma Rleb_true (x y : R) : Rleb x y = true <-> (x <= y)%R.
Proof.
  unfold Rleb. destruct (Rle_dec x y); split; intros; try lra; try discriminate; reflexivity.
Qed.

Lemma Rltb_true (x y : R) : Rltb x y = true <-> (x < y)%R.
Proof.
  unfold Rltb. destruct (Rlt_dec x y); split; intros; try lra; try discriminate; reflexivity.
Qed.

Lemma Rleb_false (x y : R) : Rleb x y = false <-> (y < x)%R.
Proof.
  unfold Rleb. destruct (Rle_dec x y); split; intros; try lra; try discriminate; reflexivity.
Qed.

Lemma Rltb_false (x y : R) : Rltb x y = false <-> (y <= x)%R.
Proof.
  unfold Rltb. destruct (Rlt_dec x y); split; intros; try lra; try discriminate; reflexivity.
Qed.

Lemma is_zero_true (x : R) : is_zero x = true <-> x = 0%R.
Proof.
  unfold is_zero. cbn [s_leb s_zero real_scalar].
  rewrite andb_true_iff, !Rleb_true. lra.
Qed.

Lemma all_zero_true (a : vec3 R) : all_zero a = true <-> a = vzero.
Proof.
  destruct a as [x y z]. unfold all_zero, vzero. cbn [vx vy vz s_zero real_scalar].
  rewrite !andb_true_iff, !is_zero_true. split.
  - intros [[-> ->] ->]. reflexivity.
  - intros [= -> -> ->]. auto.
Qed.

Lemma dot_self_pos (x : vec3 R) : x <> vzero -> (0 < dot x x)%R.
Proof.
  intros Hne. destruct x as [p q r]. unfold dot, sum3; cbn.
  destruct (Req_dec p 0) as [->|Hp]; [|nra].
  destruct (Req_dec q 0) as [->|Hq]; [|nra].
  destruct (Req_dec r 0) as [->|Hr]; [|nra].
  exfalso. apply Hne. reflexivity.
Qed.

Lemma norm_square (x : vec3 R) : (norm x * norm x = dot x x)%R.
Proof. unfold norm. cbn [s_sqrt real_scalar]. apply sqrt_sqrt, dot_self_nonneg. Qed.

Lemma norm_nonzero (x : vec3 R) : x <> vzero -> norm x <> 0%R.
Proof.
  intros Hne Hc. pose proof (norm_square x) as Hn. rewrite Hc in Hn.
  pose proof (dot_self_pos x Hne). lra.
Qed.

(** The x-axis [get_default_xaxis] picks for a unit z-axis is a unit
    vector orthogonal to it, in the fallback case too. *)
Lemma default_xaxis_frame (zaxis : vec3 R) :
  dot zaxis zaxis = 1%R ->
  dot (get_default_xaxis zaxis) (get_default_xaxis zaxis) = 1%R /\
  dot (get_default_xaxis zaxis) zaxis = 0%R.
Proof.
  intros Hz. unfold get_default_xaxis.
  destruct (all_zero (cross (V3 s_zero s_zero s_one) zaxis)) eqn:Hall; cbn [negb].
  - apply all_zero_true in Hall. destruct zaxis as [a b c].
    unfold cross, vzero in Hall. cbn in Hall. injection Hall as Hb Ha _.
    unfold dot, sum3. cbn. split; lra.
  - assert (Hne : cross (V3 s_zero s_zero s_one) zaxis <> vzero).
    { intros Hc. apply all_zero_true in Hc. congruence. }
    set (x := cross (V3 s_zero s_zero s_one) zaxis) in *.
    pose proof (norm_square x) as Hn.
    pose proof (norm_nonzero x Hne) as Hn0.
    assert (Hxz : dot x zaxis = 0%R).
    { subst x. destruct zaxis as [a b c]. unfold dot, sum3, cross; cbn. ring. }
    set (n := norm x) in *. clearbody n. clearbody x.
    destruct x as [p q r], zaxis as [a b c].
    unfold vdiv, dot, sum3 in *. cbn in *. split.
    + field_simplify_eq; [|exact Hn0]. lra.
    + field_simplify_eq; [|exact Hn0]. lra.
Qed.

(** A frame built from unit, orthogonal z and x axes is orthonormal. *)
Lemma axes_orthonormal (zaxis xaxis : vec3 R) :
  dot zaxis zaxis = 1%R -> dot xaxis xaxis = 1%R -> dot xaxis zaxis = 0%R ->
  orthonormal (M3 xaxis (cross zaxis xaxis) zaxis).
Proof.
  intros Hz Hx Hxz. unfold orthonormal. cbn [row0 row1 row2].
  destruct zaxis as [a b c], xaxis as [p q r].
  unfold dot, sum3, cross in *. cbn in *.
  repeat split; try assumption; nsatz.
Qed.

(** X4.  With no x-axis given, [set_orientation] builds an orthonormal,
    right-handed frame from any unit z-axis: the default x-axis is the
    normalised cross product of the global z-axis with it, and the global
    x-axis when that cross product vanishes.  The origin is kept and the
    z-axis is stored as given. *)
Theorem default_frame_orthonormal (self : GeometryObject.t R) (zaxis : vec3 R) :
  dot zaxis zaxis = 1%R ->
  let self' := set_orientation self zaxis None in
  orthonormal (orientation self') /\
  origin self' = origin self /\
  row2 (orientation self') = zaxis /\
  (vx zaxis = 0%R -> vy zaxis = 0%R -> row0 (orientation self') = V3 1%R 0%R 0%R) /\
  (vx zaxis <> 0%R \/ vy zaxis <> 0%R ->
   let n := R_sqrt.sqrt (vx zaxis * vx zaxis + vy zaxis * vy zaxis) in
   row0 (orientation self') = V3 (- vy zaxis / n)%R (vx zaxis / n)%R 0%R).
Proof.
  intros Hz. cbv zeta. unfold set_orientation. cbn [orientation origin row0 row2].
  destruct (default_xaxis_frame zaxis Hz) as [Hx Hxz].
  split; [now apply axes_orthonormal|]. split; [reflexivity|]. split; [reflexivity|].
  unfold get_default_xaxis. split.
  - intros Ha Hb. destruct zaxis as [a b c]. cbn in Ha, Hb. subst a b.
    replace (all_zero (cross (V3 s_zero s_zero s_one) (V3 0%R 0%R c))) with true;
      [reflexivity|].
    symmetry. apply all_zero_true. unfold cross, vzero. cbn. f_equal; ring.
  - intros Hab. destruct zaxis as [a b c]. cbn [vx vy] in *.
    destruct (all_zero (cross (V3 s_zero s_zero s_one) (V3 a b c))) eqn:Hall; cbn [negb].
    + apply all_zero_true in Hall. unfold cross, vzero in Hall. cbn in Hall.
      injection Hall as Hb Ha _. exfalso. destruct Hab as [Hc|Hc]; apply Hc; lra.
    + unfold vdiv, norm, cross, dot, sum3. cbn.
      replace ((0 * c - 1 * b) * (0 * c - 1 * b) + (1 * a - 0 * c) * (1 * a - 0 * c)
               + (0 * b - 0 * a) * (0 * b - 0 * a))%R with (a * a + b * b)%R by ring.
      f_equal; unfold Rdiv; ring.
Qed.

Lemma default_frame_orthonormal_witness :
  orthonormal (orientation (set_orientation frame_quarter_turn (V3 (3/5) 0 (4/5))%R None)).
Proof.
  apply (default_frame_orthonormal frame_quarter_turn (V3 (3/5) 0 (4/5))%R).
  unfold dot, sum3. cbn. lra.
Defined.

(** X5.  With an x-axis given, [set_orientation] stores both axes as
    they are and completes them with y = z x x; nothing is normalised or
    made orthogonal.  The frame it builds is orthonormal exactly when the
    two given axes are unit vectors orthogonal to each other. *)
Theorem explicit_frame_orthonormal (self : GeometryObject.t R) (zaxis xaxis : vec3 R) :
  let self' := set_orientation self zaxis (Some xaxis) in
  row0 (orientation self') = xaxis /\
  row1 (orientation self') = cross zaxis xaxis /\
  row2 (orientation self') = zaxis /\
  (orthonormal (orientation self') <->
   dot zaxis zaxis = 1%R /\ dot xaxis xaxis = 1%R /\ dot xaxis zaxis = 0%R).
Proof.
  cbv zeta. unfold set_orientation. cbn [orientation row0 row1 row2].
  repeat (split; [reflexivity|]). split.
  - unfold orthonormal. cbn [row0 row1 row2]. intros (Hx & _ & Hz & _ & Hxz & _). auto.
  - intros (Hz & Hx & Hxz). now apply axes_orthonormal.
Qed.

End FrameFacts.

Section FrameFacts2.
Import GeometryObject.

Local Ltac vec_simpl :=
  repeat match goal with
         | v : vec3 _ |- _ => destruct v
         | M : mat3 _ |- _ => destruct M
         end;
  cbv [einsum_ij_i_j einsum_ji_i_j build3 sum3 mget vget dot cross
       vadd vsub vx vy vz row0 row1 row2] in *;
  cbn [s_add s_mul s_sub real_scalar] in *.

Lemma external_dot (M : mat3 R) (a b : vec3 R) :
  orthonormal M -> dot (einsum_ij_i_j M a) (einsum_ij_i_j M b) = dot a b.
Proof.
  unfold orthonormal. intros (H00 & H11 & H22 & H01 & H02 & H12 & _).
  vec_simpl. nsatz.
Qed.

Lemma local_dot (M : mat3 R) (a b : vec3 R) :
  orthonormal M -> dot (einsum_ji_i_j M a) (einsum_ji_i_j M b) = dot a b.
Proof.
  intros HM.
  rewrite <- (orthonormal_external_local M a HM) at 2.
  rewrite <- (orthonormal_external_local M b HM) at 2.
  symmetry. now apply external_dot.
Qed.

Lemma external_cross (M : mat3 R) (a b : vec3 R) :
  orthonormal M ->
  cross (einsum_ij_i_j M a) (einsum_ij_i_j M b) = einsum_ij_i_j M (cross a b).
Proof.
  unfold orthonormal. intros (H00 & H11 & H22 & H01 & H02 & H12 & Hy).
  vec_simpl. injection Hy as -> -> ->. f_equal; nsatz.
Qed.

Lemma local_cross (M : mat3 R) (a b : vec3 R) :
  orthonormal M ->
  cross (einsum_ji_i_j M a) (einsum_ji_i_j M b) = einsum_ji_i_j M (cross a b).
Proof.
  intros HM.
  rewrite <- (orthonormal_external_local M a HM) at 2.
  rewrite <- (orthonormal_external_local M b HM) at 2.
  rewrite external_cross by exact HM.
  now rewrite orthonormal_local_external.
Qed.

End FrameFacts2.

Section FrameFacts3.
Import GeometryObject.

Lemma external_sub (M : mat3 R) (o p q : vec3 R) :
  vsub (vadd (einsum_ij_i_j M p) o) (vadd (einsum_ij_i_j M q) o)
  = einsum_ij_i_j M (vsub p q).
Proof.
  destruct M as [[m00 m01 m02] [m10 m11 m12] [m20 m21 m22]],
    o as [o0 o1 o2], p as [p0 p1 p2], q as [q0 q1 q2].
  cbv [einsum_ij_i_j build3 sum3 mget vget vadd vsub vx vy vz row0 row1 row2].
  cbn [s_add s_mul s_sub real_scalar]. f_equal; ring.
Qed.

Lemma local_sub (M : mat3 R) (o p q : vec3 R) :
  vsub (einsum_ji_i_j M (vsub p o)) (einsum_ji_i_j M (vsub q o))
  = einsum_ji_i_j M (vsub p q).
Proof.
  destruct M as [[m00 m01 m02] [m10 m11 m12] [m20 m21 m22]],
    o as [o0 o1 o2], p as [p0 p1 p2], q as [q0 q1 q2].
  cbv [einsum_ji_i_j build3 sum3 mget vget vadd vsub vx vy vz row0 row1 row2].
  cbn [s_add s_mul s_sub real_scalar]. f_equal; ring.
Qed.

Lemma external_distance (M : mat3 R) (o p q : vec3 R) :
  orthonormal M ->
  norm (vsub (vadd (einsum_ij_i_j M p) o) (vadd (einsum_ij_i_j M q) o)) = norm (vsub p q).
Proof. intros HM. rewrite external_sub. unfold norm. now rewrite external_dot. Qed.

Lemma local_distance (M : mat3 R) (o p q : vec3 R) :
  orthonormal M ->
  norm (vsub (einsum_ji_i_j M (vsub p o)) (einsum_ji_i_j M (vsub q o))) = norm (vsub p q).
Proof. intros HM. rewrite local_sub. unfold norm. now rewrite local_dot. Qed.

(** X6.  The vector transforms of an orthonormal frame are proper
    rotations: in exact arithmetic [vector_to_external] and
    [vector_to_local] keep the dot product of any two vectors, hence
    every length and angle, and they map the cross product of two vectors
    to the cross product of their images. *)
Theorem frame_isometry (self : GeometryObject.t R) (a b : vec3 R) :
  orthonormal (orientation self) ->
  (exists a' b' c',
     vector_to_external self (Arr1 a) = Ok (Arr1 a') /\
     vector_to_external self (Arr1 b) = Ok (Arr1 b') /\
     vector_to_external self (Arr1 (cross a b)) = Ok (Arr1 c') /\
     dot a' b' = dot a b /\ norm a' = norm a /\ cross a' b' = c') /\
  (exists a' b' c',
     vector_to_local self (Arr1 a) = Ok (Arr1 a') /\
     vector_to_local self (Arr1 b) = Ok (Arr1 b') /\
     vector_to_local self (Arr1 (cross a b)) = Ok (Arr1 c') /\
     dot a' b' = dot a b /\ norm a' = norm a /\ cross a' b' = c').
Proof.
  intros HM. split.
  - eexists _, _, _. repeat (split; [reflexivity|]).
    split; [now apply external_dot|]. split; [|now apply external_cross].
    unfold norm. now rewrite external_dot.
  - eexists _, _, _. repeat (split; [reflexivity|]).
    split; [now apply local_dot|]. split; [|now apply local_cross].
    unfold norm. now rewrite local_dot.
Qed.

Lemma frame_isometry_witness :
  exists a' b',
    vector_to_external frame_quarter_turn (Arr1 (V3 1 2 3)%R) = Ok (Arr1 a') /\
    vector_to_external frame_quarter_turn (Arr1 (V3 (-1) 0 5)%R) = Ok (Arr1 b') /\
    dot a' b' = dot (V3 1 2 3)%R (V3 (-1) 0 5)%R.
Proof.
  destruct (frame_isometry frame_quarter_turn (V3 1 2 3)%R (V3 (-1) 0 5)%R
              frame_quarter_turn_orthonormal)
    as [(a' & b' & c' & Ha & Hb & _ & Hdot & _) _].
  exists a', b'. split; [exact Ha|]. split; [exact Hb|exact Hdot].
Defined.

(** X7.  The point transforms are affine over the vector transforms: in
    exact arithmetic, and in any frame, the difference of two transformed
    points is the vector transform of their difference, so the origin
    cancels.  In an orthonormal frame they therefore keep the distance
    between any two points. *)
Theorem point_transform_distance (self : GeometryObject.t R) (p q : vec3 R) :
  (exists p' q' d',
     point_to_external self (Arr1 p) = Ok (Arr1 p') /\
     point_to_external self (Arr1 q) = Ok (Arr1 q') /\
     vector_to_external self (Arr1 (vsub p q)) = Ok (Arr1 d') /\
     vsub p' q' = d' /\
     (orthonormal (orientation self) -> norm (vsub p' q') = norm (vsub p q))) /\
  (exists p' q' d',
     point_to_local self (Arr1 p) = Ok (Arr1 p') /\
     point_to_local self (Arr1 q) = Ok (Arr1 q') /\
     vector_to_local self (Arr1 (vsub p q)) = Ok (Arr1 d') /\
     vsub p' q' = d' /\
     (orthonormal (orientation self) -> norm (vsub p' q') = norm (vsub p q))).
Proof.
  split.
  - eexists _, _, _. repeat (split; [reflexivity|]).
    split; [exact (external_sub (orientation self) (origin self) p q)|].
    exact (external_distance (orientation self) (origin self) p q).
  - eexists _, _, _. repeat (split; [reflexivity|]).
    split; [exact (local_sub (orientation self) (origin self) p q)|].
    exact (local_distance (orientation self) (origin self) p q).
Qed.

(** X8.  The rank contract of the transforms.  On an array that is not of
    rank 1 or 2, [vector_to_external], [vector_to_local] and
    [point_to_external] raise [Exception('vector.ndim must be 1 or 2')].
    [point_to_local] subtracts the origin first: a scalar is broadcast
    to a 3-vector by the subtraction and is then transformed without an
    error; an array of higher rank raises the same exception when its trailing axis
    broadcasts against the origin and numpy's [ValueError] when it does
    not. *)
Theorem transform_rank_contract {T} `{Scalar T} (self : GeometryObject.t T) (a : ndarray T) :
  ndim a <> 1 -> ndim a <> 2 ->
  let refused := Err (Exception "vector.ndim must be 1 or 2") in
  vector_to_external self a = refused /\
  vector_to_local self a = refused /\
  point_to_external self a = refused /\
  match a with
  | Arr0 s =>
      point_to_local self a
      = vector_to_local self (Arr1 (vsub (V3 s s s) (origin self)))
      /\ exists w, point_to_local self a = Ok (Arr1 w)
  | ArrHigh _ true => point_to_local self a = refused
  | ArrHigh _ false => point_to_local self a = Err ValueError
  | _ => False
  end.
Proof.
  intros H1 H2. cbv zeta.
  destruct a as [s|v|rows|k [|]]; cbn in H1, H2; try contradiction.
  - do 3 (split; [reflexivity|]). split; [reflexivity|]. eexists. reflexivity.
  - do 3 (split; [reflexivity|]). reflexivity.
  - do 3 (split; [reflexivity|]). reflexivity.
Qed.

Lemma transform_rank_contract_witness :
  point_to_external frame_quarter_turn_f (Arr0 2%float)
  = Err (Exception "vector.ndim must be 1 or 2") /\
  point_to_local frame_quarter_turn_f (Arr0 2%float) = Ok (Arr1 (V3 0 (-1) (-1))%float).
Proof.
  destruct (transform_rank_contract frame_quarter_turn_f (Arr0 2%float))
    as (_ & _ & He & Hl & _); [cbn; lia|cbn; lia|].
  split; [exact He|]. rewrite Hl. vm_compute. reflexivity.
Defined.

End FrameFacts3.

Section SetupFacts.
Import GeometryObject GeometrySetup.

Lemma default_orientation_R :
  orientation (setup (@get_default_config R _))
  = M3 (V3 1 0 0)%R (V3 0 1 0)%R (V3 0 0 1)%R.
Proof.
  unfold setup, get_default_config, set_orientation.
  cbn [cfg_origin cfg_zaxis cfg_xaxis orientation].
  assert (Hx : get_default_xaxis (V3 (@s_zero R _) s_zero s_one) = V3 1%R 0%R 0%R).
  { unfold get_default_xaxis.
    replace (all_zero (cross (V3 (@s_zero R _) s_zero s_one) (V3 s_zero s_zero s_one)))
      with true; [reflexivity|].
    symmetry. apply all_zero_true. unfold cross, vzero. cbn. f_equal; ring. }
  rewrite Hx. unfold cross. cbn. f_equal. f_equal; ring.
Qed.

Lemma identity_einsum (v : vec3 R) :
  einsum_ij_i_j (M3 (V3 1 0 0)%R (V3 0 1 0)%R (V3 0 0 1)%R) v = v /\
  einsum_ji_i_j (M3 (V3 1 0 0)%R (V3 0 1 0)%R (V3 0 0 1)%R) v = v.
Proof.
  destruct v as [x y z].
  cbv [einsum_ij_i_j einsum_ji_i_j build3 sum3 mget vget vx vy vz row0 row1 row2].
  cbn [s_add s_mul real_scalar]. split; f_equal; ring.
Qed.

(** X25.  [setup] and the axis shortcuts.  After [setup] the origin is
    the configured one, the attribute [zaxis] is the configured z-axis,
    [xaxis] is the configured x-axis when there is one, [yaxis] is the
    cross product of [zaxis] and [xaxis], and any other name that falls
    through to [__getattr__] raises [AttributeError] with that name.
    With the default configuration the frame is the identity: in binary64
    the orientation is exactly the unit matrix, and in exact arithmetic
    every transform returns an array of rank 1 or 2 unchanged. *)
Theorem setup_axes {T} `{Scalar T} (param : @config T) (key : string) :
  let self := setup param in
  origin self = cfg_origin param /\
  __getattr__ self "zaxis" = Attr (cfg_zaxis param) /\
  (forall x, cfg_xaxis param = Some x -> __getattr__ self "xaxis" = Attr x) /\
  (exists x, __getattr__ self "xaxis" = Attr x /\
             __getattr__ self "yaxis" = Attr (cross (cfg_zaxis param) x)) /\
  (key <> "xaxis" -> key <> "yaxis" -> key <> "zaxis" ->
   __getattr__ self key = AttributeError key) /\
  setup (@get_default_config float _)
  = Build (V3 0 0 0)%float (M3 (V3 1 0 0) (V3 0 1 0) (V3 0 0 1))%float /\
  forall a : ndarray R,
    ndim a = 1 \/ ndim a = 2 ->
    let dflt := setup (@get_default_config R _) in
    vector_to_external dflt a = Ok a /\ vector_to_local dflt a = Ok a /\
    point_to_external dflt a = Ok a /\ point_to_local dflt a = Ok a.
Proof.
  cbv zeta. split; [reflexivity|]. split; [reflexivity|].
  split. { intros x Hx. unfold setup, set_orientation. rewrite Hx. reflexivity. }
  split. { eexists. split; reflexivity. }
  split.
  { intros Hx Hy Hz. unfold __getattr__.
    rewrite (proj2 (String.eqb_neq key "xaxis") Hx).
    rewrite (proj2 (String.eqb_neq key "yaxis") Hy).
    rewrite (proj2 (String.eqb_neq key "zaxis") Hz). reflexivity. }
  split; [vm_compute; reflexivity|].
  intros a Hrank.
  assert (Ho : origin (setup (@get_default_config R _)) = V3 0%R 0%R 0%R) by reflexivity.
  unfold point_to_external, point_to_local, vector_to_external, vector_to_local.
  rewrite default_orientation_R, Ho.
  destruct a as [s|v|rows|k b]; cbn in Hrank;
    try (exfalso; destruct Hrank as [Hr|Hr]; discriminate Hr).
  - destruct (identity_einsum v) as [He Hl]. rewrite He, Hl.
    cbn [rbind broadcast_origin vx vy vz].
    assert (Hadd : V3 (s_add (vx v) 0%R) (s_add (vy v) 0%R) (s_add (vz v) 0%R) = v).
    { destruct v; cbn. f_equal; ring. }
    assert (Hsub : V3 (s_sub (vx v) 0%R) (s_sub (vy v) 0%R) (s_sub (vz v) 0%R) = v).
    { destruct v; cbn. f_equal; ring. }
    rewrite Hadd, Hsub, Hl. now repeat split.
  - assert (Hme : map (einsum_ij_i_j (M3 (V3 1 0 0)%R (V3 0 1 0)%R (V3 0 0 1)%R)) rows = rows).
    { apply map_fixed. intros v. apply identity_einsum. }
    assert (Hml : map (einsum_ji_i_j (M3 (V3 1 0 0)%R (V3 0 1 0)%R (V3 0 0 1)%R)) rows = rows).
    { apply map_fixed. intros v. apply identity_einsum. }
    rewrite Hme, Hml. cbn [rbind broadcast_origin vx vy vz].
    assert (Hadd : map (fun v => V3 (s_add (vx v) 0%R) (s_add (vy v) 0%R) (s_add (vz v) 0%R))
                       rows = rows).
    { apply map_fixed. intros v. destruct v; cbn. f_equal; ring. }
    assert (Hsub : map (fun v => V3 (s_sub (vx v) 0%R) (s_sub (vy v) 0%R) (s_sub (vz v) 0%R))
                       rows = rows).
    { apply map_fixed. intros v. destruct v; cbn. f_equal; ring. }
    rewrite Hadd, Hsub, Hml. now repeat split.
Qed.

End SetupFacts.

(** * Geometry of the two intersection tests, in exact arithmetic *)

Section HitGeometry.
Import XicsrtOpticMesh.

Lemma epsilon_pos : (0 < @epsilon R _)%R.
Proof.
  unfold epsilon. cbn [s_1em15 real_scalar]. apply Rinv_0_lt_compat.
  apply pow_lt. lra.
Qed.

(** What a face that accepts a ray has checked. *)
Lemma accepts_bounds (o d : vec3 R) (tri : triangle R) :
  accepts o d tri = true ->
  mt_f d tri <> 0%R /\
  (0 <= mt_u o d tri)%R /\ (0 <= mt_v o d d tri)%R /\
  (mt_u o d tri + mt_v o d d tri <= 1)%R.
Proof.
  unfold accepts, accepts_h, near_parallel, u_outside, v_outside.
  cbn [s_ltb s_zero s_one s_opp s_add real_scalar].
  rewrite !andb_true_iff, !negb_true_iff, andb_false_iff, !orb_false_iff,
    !Rltb_false.
  intros [[Hf [Hu0 Hu1]] [Hv0 Huv]].
  pose proof epsilon_pos as He.
  split; [destruct Hf as [Hf|Hf]; lra|]. repeat split; assumption.
Qed.

(** Cramer's rule for the system the loop solves: the point at parameter
    [t] of the ray is the point with the coordinates [u], [v] in the
    face. *)
Lemma hit_point_barycentric (o d : vec3 R) (tri : triangle R) :
  mt_f d tri <> 0%R ->
  hit_point o d tri
  = vadd (t_p0 tri) (vadd (vscale (mt_u o d tri) (mt_edge1 tri))
                          (vscale (mt_v o d d tri) (mt_edge2 tri))).
Proof.
  destruct tri as [[a0 a1 a2] [b0 b1 b2] [c0 c1 c2]], o as [o0 o1 o2], d as [d0 d1 d2].
  unfold hit_point, hit_point_h, mt_u, mt_v, mt_t, mt_f, mt_h, mt_q, mt_s,
    mt_edge1, mt_edge2.
  cbn [t_p0 t_p1 t_p2].
  cbv [vadd vscale vsub cross dot sum3 vget vx vy vz].
  cbn [s_add s_sub s_mul s_div s_one real_scalar].
  intros Hf. f_equal; field; exact Hf.
Qed.

(** [f] is the triple product of the direction and the two edges. *)
Lemma mt_f_triple (d : vec3 R) (tri : triangle R) :
  mt_f d tri = (- dot d (cross (mt_edge1 tri) (mt_edge2 tri)))%R.
Proof.
  destruct tri as [[a0 a1 a2] [b0 b1 b2] [c0 c1 c2]], d as [d0 d1 d2].
  unfold mt_f, mt_h, mt_edge1, mt_edge2. cbn [t_p0 t_p1 t_p2].
  cbv [vsub cross dot sum3 vget vx vy vz]. cbn [s_add s_sub s_mul real_scalar].
  ring.
Qed.

(** X9.  In exact arithmetic, every ray the exhaustive test leaves
    active has a recorded face it is not parallel to, and its recorded
    hit point lies on the line of the ray and inside that face: it is the
    corner [p0] plus [u] times the edge to [p1] plus [v] times the edge
    to [p2], with [u] and [v] not negative and [u + v] at most 1. *)
Theorem exhaustive_hits_inside_faces (rays rays' : RayBatch R) (mesh : Mesh R)
    (X : list (vec3 R)) (hits : list (option nat)) :
  rays_wf rays ->
  mesh_intersect_1 rays mesh = (Ok (X, hits), rays') ->
  exists tris,
    mesh_triangles mesh = Ok tris /\
    forall j o d,
      rays_origin rays !! j = Some o ->
      rays_direction rays !! j = Some d ->
      rays_mask rays' !! j = Some true ->
      exists k tri P u v t,
        hits !! j = Some (Some k) /\ tris !! k = Some tri /\ X !! j = Some P /\
        dot d (cross (mt_edge1 tri) (mt_edge2 tri)) <> 0%R /\
        P = vadd o (vscale t d) /\
        P = vadd (t_p0 tri) (vadd (vscale u (mt_edge1 tri)) (vscale v (mt_edge2 tri))) /\
        (0 <= u)%R /\ (0 <= v)%R /\ (u + v <= 1)%R.
Proof.
  intros Hwf Hrun.
  destruct (intersect_1_cases rays mesh Hwf) as [(e & He & _)|(tris & X0 & h0 & m0 & Htris & Hall & _)].
  { rewrite He in Hrun. discriminate Hrun. }
  exists tris. split; [exact Htris|].
  destruct (Hall rays Hwf eq_refl) as (X2 & hits2 & m2 & Hrun2 & _ & _ & Hlen & Hrays).
  rewrite Hrun in Hrun2. injection Hrun2 as <- <- ->.
  intros j o d Ho Hd Hact. cbn [rays_mask set_mask] in Hact.
  destruct (lookup_lt_is_Some_2 (rays_mask rays) j) as [a Ha].
  { rewrite <- Hlen. now apply lookup_lt_Some in Hact. }
  destruct (Hrays j o d a Ho Hd Ha) as [Hm Hhit].
  rewrite Hact in Hm. injection Hm as Hm. symmetry in Hm.
  apply andb_true_iff in Hm as [-> Hex].
  destruct (last_hit o d 0 tris) as [[k tri]|] eqn:Hlast.
  2:{ apply (last_hit_none o d tris 0) in Hlast. congruence. }
  destruct (last_hit_some o d tris 0 k tri Hlast) as (_ & Hk & Hacc & _).
  rewrite Nat.sub_0_r in Hk. destruct Hhit as [Hhits HX].
  destruct (accepts_bounds o d tri Hacc) as (Hf & Hu & Hv & Huv).
  exists k, tri, (hit_point o d tri), (mt_u o d tri), (mt_v o d d tri), (mt_t o d tri).
  split; [exact Hhits|]. split; [exact Hk|]. split; [exact HX|].
  split. { intros Hpar. apply Hf. rewrite mt_f_triple, Hpar. apply Ropp_0. }
  split; [reflexivity|]. split; [now apply hit_point_barycentric|].
  now repeat split.
Qed.

(** X10.  In exact arithmetic a face never accepts a ray that is
    parallel to it: when the direction is orthogonal to the cross product
    of the two edge vectors, [f] is zero and the first test rejects the
    ray, whatever its origin: the pass of the face loop for that face
    leaves the ray's entries of the mask, of [hits] and of [X] as they
    were. *)
Theorem parallel_ray_rejected (o d : vec3 R) (tri : triangle R) :
  dot d (cross (mt_edge1 tri) (mt_edge2 tri)) = 0%R ->
  mt_f d tri = 0%R /\ near_parallel d tri = true /\ accepts o d tri = false /\
  forall ii st active, ray_step active o d ii tri st = st.
Proof.
  intros Hpar.
  assert (Hf : mt_f d tri = 0%R).
  { rewrite mt_f_triple, Hpar. apply Ropp_0. }
  assert (Hnp : near_parallel d tri = true).
  { unfold near_parallel. rewrite Hf. cbn [s_ltb s_opp real_scalar].
    pose proof epsilon_pos. apply andb_true_iff. split; apply Rltb_true; lra. }
  assert (Hacc : accepts o d tri = false).
  { rewrite accepts_rejections, Hnp. reflexivity. }
  split; [exact Hf|]. split; [exact Hnp|]. split; [exact Hacc|].
  intros ii st active. unfold ray_step. rewrite Hacc, andb_false_r. reflexivity.
Qed.

(** X11.  The exhaustive test does not look at the sign of the ray
    parameter [t].  In exact arithmetic a face accepts a ray exactly when
    it accepts the ray from the same origin in the opposite direction;
    the two are given the same hit point, one of them at a negative [t],
    behind its origin. *)
Theorem exhaustive_test_ignores_sense (o d : vec3 R) (tri : triangle R) :
  let d' := vscale (-1)%R d in
  accepts o d' tri = accepts o d tri /\
  (accepts o d tri = true ->
   mt_t o d' tri = (- mt_t o d tri)%R /\
   hit_point o d' tri = hit_point o d tri).
Proof.
  cbv zeta.
  assert (Hf : mt_f (vscale (-1)%R d) tri = (- mt_f d tri)%R).
  { destruct tri as [[a0 a1 a2] [b0 b1 b2] [c0 c1 c2]], d as [d0 d1 d2].
    unfold mt_f, mt_h, mt_edge1, mt_edge2. cbn [t_p0 t_p1 t_p2].
    cbv [vscale vsub cross dot sum3 vget vx vy vz]. cbn [s_add s_sub s_mul real_scalar].
    ring. }
  assert (Hnp : near_parallel (vscale (-1)%R d) tri = near_parallel d tri).
  { unfold near_parallel. rewrite Hf. cbn [s_ltb s_opp real_scalar].
    set (f := mt_f d tri). set (e := @epsilon R _).
    unfold Rltb.
    destruct (Rlt_dec (- e) (- f)), (Rlt_dec (- f) e), (Rlt_dec (- e) f), (Rlt_dec f e);
      cbn; try reflexivity; exfalso; lra. }
  assert (Hvals : mt_f d tri <> 0%R ->
            mt_u o (vscale (-1)%R d) tri = mt_u o d tri /\
            mt_v o (vscale (-1)%R d) (vscale (-1)%R d) tri = mt_v o d d tri /\
            mt_t o (vscale (-1)%R d) tri = (- mt_t o d tri)%R).
  { destruct tri as [[a0 a1 a2] [b0 b1 b2] [c0 c1 c2]], o as [o0 o1 o2], d as [d0 d1 d2].
    unfold mt_u, mt_v, mt_t, mt_f, mt_h, mt_q, mt_s, mt_edge1, mt_edge2.
    cbn [t_p0 t_p1 t_p2].
    cbv [vscale vsub cross dot sum3 vget vx vy vz].
    cbn [s_add s_sub s_mul s_div s_one real_scalar].
    intros Hne. repeat split; field; lra. }
  destruct (near_parallel d tri) eqn:Hpar.
  - split.
    + rewrite !accepts_rejections, Hnp, Hpar. reflexivity.
    + rewrite accepts_rejections, Hpar. discriminate.
  - assert (Hne : mt_f d tri <> 0%R).
    { intros Hz. unfold near_parallel in Hpar. rewrite Hz in Hpar.
      pose proof epsilon_pos as He. set (e := @epsilon R _) in *. clearbody e.
      cbn [s_ltb s_opp real_scalar] in Hpar.
      apply andb_false_iff in Hpar as [Hc|Hc]; apply Rltb_false in Hc; lra. }
    destruct (Hvals Hne) as (Hu & Hv & Ht). split.
    + rewrite !accepts_rejections, Hnp, Hpar. unfold u_outside, v_outside.
      now rewrite Hu, Hv.
    + intros _. split; [exact Ht|].
      unfold hit_point, hit_point_h. rewrite Ht.
      destruct o as [o0 o1 o2], d as [d0 d1 d2].
      cbv [vadd vscale vx vy vz]. cbn [s_add s_mul real_scalar]. f_equal; ring.
Qed.

End HitGeometry.

Section CandidateGeometry.
Import XicsrtOpticMesh.

Lemma cand_inside_bounds (o d : vec3 R) (c : @candidate R) :
  cand_inside o d c = true ->
  (cand_diff o d c < / 10 ^ 10)%R /\ (0 <= cand_dist o d c)%R.
Proof.
  unfold cand_inside. cbn [s_ltb s_leb s_zero s_1em10 real_scalar].
  rewrite andb_true_iff, Rltb_true, Rleb_true. tauto.
Qed.

(** The point the test computes for a candidate lies in the plane through
    [p0] with the normal [n], when the ray is not parallel to it. *)
Lemma cand_intersect_on_plane (o d : vec3 R) (c : @candidate R) :
  dot d (c_n c) <> 0%R ->
  dot (vsub (cand_intersect o d c) (c_p0 c)) (c_n c) = 0%R.
Proof.
  destruct c as [[a0 a1 a2] p1 p2 [n0 n1 n2]], o as [o0 o1 o2], d as [d0 d1 d2].
  unfold cand_intersect, cand_dist, vscale_r. cbn [c_p0 c_n].
  cbv [vadd vsub dot sum3 vget vx vy vz].
  cbn [s_add s_sub s_mul s_div real_scalar].
  intros Hne. field. exact Hne.
Qed.

(** X12.  In exact arithmetic, every ray the candidate-restricted test
    leaves active has a recorded face among its candidates, and its
    recorded hit point is the point of the ray at the parameter [dist] of
    that face, which is not negative: the point lies ahead of the origin
    (or at it), and, when the ray is not parallel to the face's stored
    normal, in the plane through the corner [p0] of the face with that
    normal. *)
Theorem candidate_hits_ahead_on_plane (rays : RayBatch R) (mesh : Mesh R) (K : nat)
    (fi : list (list nat)) (fm : list (list bool)) (cands : list (list (@candidate R))) :
  candidates_wf rays K fi fm ->
  map_res (map_res (gather_candidate mesh)) fi = Ok cands ->
  exists X hits m',
    mesh_intersect_2 rays mesh fi fm = (Ok (X, hits), set_mask rays m') /\
    forall j o d ci,
      rays_origin rays !! j = Some o ->
      rays_direction rays !! j = Some d ->
      fi !! j = Some ci ->
      m' !! j = Some true ->
      exists face c P,
        In face ci /\ gather_candidate mesh face = Ok c /\
        hits !! j = Some (Some face) /\ X !! j = Some P /\
        P = vadd (vscale_r d (cand_dist o d c)) o /\
        (0 <= cand_dist o d c)%R /\
        (dot d (c_n c) <> 0%R -> dot (vsub P (c_p0 c)) (c_n c) = 0%R).
Proof.
  intros Hwf Hg.
  destruct (intersect_2_per_ray rays mesh K fi fm cands Hwf Hg)
    as (X & hits & m' & Hrun & _ & _ & Hlen & Hrays).
  exists X, hits, m'. split; [exact Hrun|].
  intros j o d ci Ho Hd Hci Hact.
  pose proof Hwf as (_ & Hlfi & Hlfm & _).
  pose proof (lookup_lt_Some _ _ _ Hact) as Hj. rewrite Hlen in Hj.
  destruct (lookup_lt_is_Some_2 (rays_mask rays) j Hj) as [a Ha].
  destruct (lookup_lt_is_Some_2 fm j) as [cm Hcm]; [lia|].
  destruct (lookup_lt_is_Some_2 cands j) as [cc Hcc].
  { rewrite (map_res_length _ _ _ Hg). lia. }
  destruct (Hrays j o d a ci cm cc Ho Hd Ha Hci Hcm Hcc)
    as (Hlt & Hli & Hlc & Hm & Hhits & HX).
  rewrite Hact in Hm. injection Hm as Hm. symmetry in Hm.
  rewrite Hm in Hhits, HX. apply andb_true_iff in Hm as [_ Hany].
  destruct (first_true_spec _ Hany) as [Hat _].
  set (i := first_true (cand_tests o d cc cm)) in *.
  unfold cand_tests in Hat. rewrite lookup_zip_with, list_lookup_fmap in Hat.
  destruct (cc !! i) as [c|] eqn:Hc; [|discriminate Hat]. cbn in Hat.
  destruct (cm !! i) as [valid|] eqn:Hv; [|discriminate Hat]. cbn in Hat.
  injection Hat as Hat. apply andb_true_iff in Hat as [Hin _].
  destruct (cand_inside_bounds o d c Hin) as [_ Hdist].
  assert (Hi : i < K). { apply lookup_lt_Some in Hc. lia. }
  destruct (lookup_lt_is_Some_2 ci i) as [face Hface]; [lia|].
  destruct (map_res_lookup _ _ _ j cc Hg Hcc) as (ci' & Hci' & Hcol).
  rewrite Hci in Hci'. injection Hci' as <-.
  destruct (map_res_lookup _ _ _ i c Hcol Hc) as (face' & Hface' & Hgather).
  rewrite Hface in Hface'. injection Hface' as <-.
  exists face, c, (cand_intersect o d c).
  split. { apply list_elem_of_In. now apply (list_elem_of_lookup_2 _ i). }
  split; [exact Hgather|].
  split. { rewrite Hhits. do 2 f_equal. now apply nth_lookup_Some with (d := 0) in Hface. }
  split. { rewrite HX. f_equal. apply nth_lookup_Some with (d := vzero).
           now rewrite list_lookup_fmap, Hc. }
  split; [reflexivity|]. split; [exact Hdist|].
  now apply cand_intersect_on_plane.
Qed.

Lemma norm_vscale (k : R) (v : vec3 R) :
  (0 <= k)%R -> norm (vscale k v) = (k * norm v)%R.
Proof.
  intros Hk. unfold norm. cbn [s_sqrt real_scalar].
  replace (dot (vscale k v) (vscale k v)) with (k * k * dot v v)%R.
  - rewrite sqrt_mult_alt by nra. now rewrite sqrt_square.
  - destruct v as [x y z]. cbv [vscale dot sum3 vget vx vy vz].
    cbn [s_add s_mul real_scalar]. ring.
Qed.

(** X13.  The area test accepts every point of the face.  In exact
    arithmetic, when the point [intersect] computed for a candidate is a
    combination of its three corners with weights that are not negative
    and sum to 1, the three cross products at the point have norms that
    sum to the norm of the cross product of the two edges, [diff] is
    exactly zero, and the candidate passes if and only if [dist >= 0]. *)
Theorem area_test_accepts_face_points (o d : vec3 R) (c : @candidate R) (wa wb wc : R) :
  (0 <= wa)%R -> (0 <= wb)%R -> (0 <= wc)%R -> (wa + wb + wc = 1)%R ->
  cand_intersect o d c
  = vadd (vscale wa (c_p0 c)) (vadd (vscale wb (c_p1 c)) (vscale wc (c_p2 c))) ->
  cand_diff o d c = 0%R /\
  cand_inside o d c = Rleb 0 (cand_dist o d c).
Proof.
  intros Ha Hb Hc Hsum HP.
  assert (Hdiff : cand_diff o d c = 0%R).
  { unfold cand_diff. cbv zeta. rewrite HP.
    set (N := cross (vsub (c_p0 c) (c_p1 c)) (vsub (c_p0 c) (c_p2 c))).
    set (P := vadd (vscale wa (c_p0 c)) (vadd (vscale wb (c_p1 c)) (vscale wc (c_p2 c)))).
    assert (E1 : cross (vsub P (c_p1 c)) (vsub P (c_p2 c)) = vscale wa N).
    { subst P N. destruct c as [[a0 a1 a2] [b0 b1 b2] [c0 c1 c2] n]. cbn [c_p0 c_p1 c_p2].
      cbv [vadd vscale vsub cross vx vy vz]. cbn [s_add s_sub s_mul real_scalar].
      f_equal; nsatz. }
    assert (E2 : cross (vsub P (c_p2 c)) (vsub P (c_p0 c)) = vscale wb N).
    { subst P N. destruct c as [[a0 a1 a2] [b0 b1 b2] [c0 c1 c2] n]. cbn [c_p0 c_p1 c_p2].
      cbv [vadd vscale vsub cross vx vy vz]. cbn [s_add s_sub s_mul real_scalar].
      f_equal; nsatz. }
    assert (E3 : cross (vsub P (c_p0 c)) (vsub P (c_p1 c)) = vscale wc N).
    { subst P N. destruct c as [[a0 a1 a2] [b0 b1 b2] [c0 c1 c2] n]. cbn [c_p0 c_p1 c_p2].
      cbv [vadd vscale vsub cross vx vy vz]. cbn [s_add s_sub s_mul real_scalar].
      f_equal; nsatz. }
    rewrite E1, E2, E3, !norm_vscale by assumption.
    cbn [s_add s_sub real_scalar]. nra. }
  split; [exact Hdiff|].
  unfold cand_inside. rewrite Hdiff. cbn [s_ltb s_leb s_zero s_1em10 real_scalar].
  replace (Rltb 0 (/ 10 ^ 10)) with true; [reflexivity|].
  symmetry. apply Rltb_true. apply Rinv_0_lt_compat, pow_lt. lra.
Qed.

End CandidateGeometry.

(** * What [_mesh_precalc] builds *)

Section PrecalcFacts.
Import XicsrtOpticMesh.

Lemma nonzero_rows_spec (faces : list face) (p : nat) : forall row r,
  In r (nonzero_rows row faces p) <->
  row <= r /\ exists f, faces !! (r - row) = Some f /\ face_has f p.
Proof.
  unfold face_has.
  induction faces as [|f faces IH]; intros row r; cbn [nonzero_rows].
  - split; [intros []|]. intros (_ & f & Hf & _). discriminate Hf.
  - rewrite !in_app_iff, IH. split.
    + intros [H0|[H1|[H2|(Hle & g & Hg & Hhas)]]].
      * destruct (Nat.eqb_spec (face0 f) p) as [E|E]; [|destruct H0].
        destruct H0 as [<-|[]]. split; [lia|]. exists f. rewrite Nat.sub_diag. auto.
      * destruct (Nat.eqb_spec (face1 f) p) as [E|E]; [|destruct H1].
        destruct H1 as [<-|[]]. split; [lia|]. exists f. rewrite Nat.sub_diag. auto.
      * destruct (Nat.eqb_spec (face2 f) p) as [E|E]; [|destruct H2].
        destruct H2 as [<-|[]]. split; [lia|]. exists f. rewrite Nat.sub_diag. auto.
      * split; [lia|]. exists g. replace (r - row) with (S (r - S row)) by lia. auto.
    + intros (Hle & g & Hg & Hhas).
      destruct (Nat.eq_dec r row) as [->|Hne].
      * rewrite Nat.sub_diag in Hg. injection Hg as <-.
        destruct Hhas as [E|[E|E]].
        -- left. rewrite <- E, Nat.eqb_refl. now left.
        -- right; left. rewrite <- E, Nat.eqb_refl. now left.
        -- right; right; left. rewrite <- E, Nat.eqb_refl. now left.
      * right; right; right. split; [lia|]. exists g.
        replace (r - row) with (S (r - S row)) in Hg by lia. auto.
Qed.

Lemma degrees_dec (n : nat) (faces : list face) :
  (exists v, v < n /\ 8 < degree faces v) \/ (forall v, v < n -> degree faces v <= 8).
Proof.
  induction n as [|n [(v & Hv & Hd)|IH]].
  - right. intros v Hv. lia.
  - left. exists v. split; [lia|exact Hd].
  - destruct (le_lt_dec (degree faces n) 8) as [Hle|Hgt].
    + right. intros v Hv. destruct (Nat.eq_dec v n) as [->|Hne]; [exact Hle|apply IH; lia].
    + left. exists n. split; [lia|exact Hgt].
Qed.

(** The table of [find_point_faces] for the vertices [0..n-1], without
    reference to the capacity: either some vertex has more than 8 faces
    and the call raises, or every column is the face list of its vertex
    followed by padding. *)
Lemma find_point_faces_columns (n : nat) (faces : list face) :
  ((exists v, v < n /\ 8 < degree faces v) /\
   find_point_faces (seq 0 n) faces None = Err ValueError) \/
  ((forall v, v < n -> degree faces v <= 8) /\
   exists tbl,
     find_point_faces (seq 0 n) faces None = Ok tbl /\
     tables_ok n faces tbl /\
     forall v, v < n ->
       tbl.1 !! v = Some (full_column faces v) /\ tbl.2 !! v = Some (full_mask faces v)).
Proof.
  unfold find_point_faces. rewrite length_replicate, length_seq.
  pose proof (tables_ok_init n faces) as Hinit.
  destruct (degrees_dec n faces) as [(v & Hv & Hd)|Hfit].
  - left. split; [now exists v|]. apply loop_overfull; [exact Hinit| |].
    + intros w Hw. apply in_seq in Hw. lia.
    + exists v. split; [apply in_seq; lia|exact Hd].
  - right. split; [exact Hfit|].
    destruct (loop_fits n faces (seq 0 n) _ Hinit) as (tbl & Hloop & Hok & Hcols).
    { intros w Hw. apply in_seq in Hw. split; [lia|apply Hfit; lia]. }
    exists tbl. split; [exact Hloop|]. split; [exact Hok|].
    intros v Hv. apply Hcols. left. apply in_seq. lia.
Qed.

Lemma full_column_lookup (faces : list face) (v k : nat) :
  degree faces v <= 8 -> k < 8 ->
  full_mask faces v !! k = Some (bool_decide (k < degree faces v)) /\
  (k < degree faces v -> full_column faces v !! k = nonzero_rows 0 faces v !! k) /\
  (degree faces v <= k -> full_column faces v !! k = Some 0).
Proof.
  intros Hd Hk. unfold full_mask, full_column. fold (degree faces v).
  split; [|split].
  - destruct (decide (k < degree faces v)) as [Hlt|Hge].
    + rewrite bool_decide_eq_true_2 by exact Hlt.
      rewrite lookup_app_l by (rewrite length_replicate; lia).
      now apply lookup_replicate_2.
    + rewrite bool_decide_eq_false_2 by exact Hge.
      rewrite lookup_app_r by (rewrite length_replicate; lia).
      apply lookup_replicate_2. rewrite length_replicate. lia.
  - intros Hlt. apply lookup_app_l. exact Hlt.
  - intros Hge. rewrite lookup_app_r by (unfold degree in Hge; exact Hge).
    apply lookup_replicate_2. unfold degree in *. lia.
Qed.

(** The columns of the table [find_point_faces] returns. *)
Lemma adjacency_columns (n : nat) (faces : list face)
    (tbl : list (list nat) * list (list bool)) :
  find_point_faces (seq 0 n) faces None = Ok tbl ->
  length tbl.1 = n /\ length tbl.2 = n /\
  forall v, v < n ->
    exists col valid,
      tbl.1 !! v = Some col /\ tbl.2 !! v = Some valid /\
      length col = 8 /\ length valid = 8 /\
      (forall k fi, col !! k = Some fi -> valid !! k = Some true ->
         exists f, faces !! fi = Some f /\ face_has f v) /\
      (forall fi f, faces !! fi = Some f -> face_has f v ->
         exists k, col !! k = Some fi /\ valid !! k = Some true) /\
      (forall k, valid !! k = Some false -> col !! k = Some 0).
Proof.
  intros Hrun.
  destruct (find_point_faces_columns n faces) as [[_ Herr]|(Hfit & tbl' & Hok' & Htab & Hcols)].
  { rewrite Herr in Hrun. discriminate Hrun. }
  rewrite Hrun in Hok'. injection Hok' as <-.
  destruct Htab as (Hl1 & Hl2 & Hc1 & Hc2).
  split; [exact Hl1|]. split; [exact Hl2|].
  intros v Hv. destruct (Hcols v Hv) as [Hcol Hmask].
  exists (full_column faces v), (full_mask faces v).
  split; [exact Hcol|]. split; [exact Hmask|].
  split; [exact (proj1 (Hc1 _ _ Hcol))|]. split; [exact (proj1 (Hc2 _ _ Hmask))|].
  pose proof (Hfit v Hv) as Hd.
  split; [|split].
  - intros k fi Hk Hvalid.
    assert (Hk8 : k < 8).
    { apply lookup_lt_Some in Hk. now rewrite (proj1 (Hc1 _ _ Hcol)) in Hk. }
    destruct (full_column_lookup faces v k Hd Hk8) as (Hm & Hin & _).
    rewrite Hm in Hvalid. injection Hvalid as Hlt. apply bool_decide_eq_true_1 in Hlt.
    rewrite (Hin Hlt) in Hk.
    assert (Hmem : In fi (nonzero_rows 0 faces v)).
    { apply list_elem_of_In. now apply (list_elem_of_lookup_2 _ k). }
    apply nonzero_rows_spec in Hmem as (_ & f & Hf & Hhas).
    rewrite Nat.sub_0_r in Hf. now exists f.
  - intros fi f Hf Hhas.
    assert (Hmem : In fi (nonzero_rows 0 faces v)).
    { apply nonzero_rows_spec. split; [lia|]. exists f. now rewrite Nat.sub_0_r. }
    apply in_lookup in Hmem as [k Hk].
    assert (Hlt : k < degree faces v) by (now apply lookup_lt_Some in Hk).
    assert (Hk8 : k < 8) by lia.
    destruct (full_column_lookup faces v k Hd Hk8) as (Hm & Hin & _).
    exists k. rewrite (Hin Hlt), Hm. split; [exact Hk|].
    now rewrite bool_decide_eq_true_2.
  - intros k Hvalid.
    assert (Hk8 : k < 8).
    { apply lookup_lt_Some in Hvalid. now rewrite (proj1 (Hc2 _ _ Hmask)) in Hvalid. }
    destruct (full_column_lookup faces v k Hd Hk8) as (Hm & _ & Hpad).
    rewrite Hm in Hvalid. injection Hvalid as Hge. apply bool_decide_eq_false_1 in Hge.
    apply Hpad. lia.
Qed.

(** X14.  The adjacency invariant.  When [find_point_faces] returns the
    table for the vertices [0..n-1], the column of every vertex has 8
    slots; a slot whose validity bit is set holds the index of a face
    that has the vertex as a corner; every face that has the vertex as a
    corner is in a slot whose validity bit is set; and a slot whose
    validity bit is clear holds the index 0, whether or not face 0
    touches the vertex. *)
Theorem adjacency_invariant (n : nat) (faces : list face)
    (tbl : list (list nat) * list (list bool)) :
  find_point_faces (seq 0 n) faces None = Ok tbl ->
  length tbl.1 = n /\ length tbl.2 = n /\
  forall v, v < n ->
    exists col valid,
      tbl.1 !! v = Some col /\ tbl.2 !! v = Some valid /\
      length col = 8 /\ length valid = 8 /\
      (forall k fi, col !! k = Some fi -> valid !! k = Some true ->
         exists f, faces !! fi = Some f /\ face_has f v) /\
      (forall fi f, faces !! fi = Some f -> face_has f v ->
         exists k, col !! k = Some fi /\ valid !! k = Some true) /\
      (forall k, valid !! k = Some false -> col !! k = Some 0).
Proof. exact (adjacency_columns n faces tbl). Qed.

Lemma take_out_of_range {A} (a : list A) (idx : list nat) :
  (exists i, In i idx /\ length a <= i) -> take a idx = Err IndexError.
Proof.
  induction idx as [|i idx IH]; intros (k & Hk & Hge); [destruct Hk|].
  cbn [take]. destruct (a !! i) as [x|] eqn:Hx; cbn [of_option rbind]; [|reflexivity].
  destruct Hk as [->|Hk].
  - apply lookup_lt_Some in Hx. lia.
  - rewrite IH; [reflexivity|]. now exists k.
Qed.

Lemma take_lookup {A} (a : list A) (idx : list nat) : forall l k i,
  take a idx = Ok l -> idx !! k = Some i -> l !! k = a !! i /\ i < length a.
Proof.
  induction idx as [|i0 idx IH]; intros l k i; cbn [take]; [discriminate 2|].
  destruct (a !! i0) as [x|] eqn:Hx; cbn [of_option rbind]; [|discriminate].
  destruct (take a idx) as [xs|] eqn:Hxs; cbn [rbind]; [|discriminate].
  intros [= <-]. destruct k as [|k]; cbn.
  - intros [= <-]. split; [now rewrite Hx|]. now apply lookup_lt_Some in Hx.
  - intros Hk. exact (IH xs k i eq_refl Hk).
Qed.

End PrecalcFacts.

Section PrecalcOutcome.
Context {T : Type} `{Scalar T} `{Scipy T}.
Import XicsrtOpticMesh XicsrtOpticMeshSetup.

Lemma take_cases {A} (a : list A) (idx : list nat) :
  (take a idx = Err IndexError /\ exists i, In i idx /\ length a <= i) \/
  (exists l, take a idx = Ok l /\ length l = length idx /\
             forall i, In i idx -> i < length a).
Proof.
  induction idx as [|i idx IH].
  - right. exists []. repeat split. intros i [].
  - destruct (le_lt_dec (length a) i) as [Hge|Hlt].
    + left. split; [|exists i; split; [now left|exact Hge]].
      apply take_out_of_range. exists i. split; [now left|exact Hge].
    + destruct IH as [[Herr (k & Hk & Hge)]|(l & Hl & Hlen & Hin)].
      * left. split; [|exists k; split; [now right|exact Hge]].
        apply take_out_of_range. exists k. split; [now right|exact Hge].
      * right. destruct (lookup_lt_is_Some_2 a i Hlt) as [x Hx].
        exists (x :: l). cbn [take]. rewrite Hx, Hl. cbn [of_option rbind].
        split; [reflexivity|]. split; [cbn; now rewrite Hlen|].
        intros j [<-|Hj]; [exact Hlt|now apply Hin].
Qed.

Lemma precalc_corners (mesh_interpolate : bool) (points : list (vec3 T))
    (normals : option (list (vec3 T))) (faces : list face) (p0 p1 p2 : list (vec3 T)) :
  take points (map face0 faces) = Ok p0 ->
  take points (map face1 faces) = Ok p1 ->
  take points (map face2 faces) = Ok p2 ->
  (mesh_interpolate = true -> normals <> None) ->
  exists interp,
    _mesh_precalc mesh_interpolate points normals faces
    = rbind (find_point_faces (seq 0 (length points)) faces None)
        (fun pf => Ok (MkMesh faces points normals interp (normals_of p0 p1 p2)
                              (cKDTree_query points) pf.1 pf.2)) /\
    (mesh_interpolate = false -> interp = None).
Proof.
  intros E0 E1 E2 Hn. unfold _mesh_precalc.
  pose proof (take_length _ _ _ E0) as L0. pose proof (take_length _ _ _ E1) as L1.
  pose proof (take_length _ _ _ E2) as L2. rewrite length_map in L0, L1, L2.
  assert (Hrest : forall interp : option (Interp T),
    rbind (Ok interp) (fun interp =>
      rbind (take points (map face0 faces)) (fun p0 =>
      rbind (take points (map face1 faces)) (fun p1 =>
      rbind (take points (map face2 faces)) (fun p2 =>
      rbind (zip_exact vsub p0 p1) (fun e01 =>
      rbind (zip_exact vsub p2 p1) (fun e21 =>
      rbind (zip_exact cross e01 e21) (fun fn =>
      rbind (find_point_faces (seq 0 (length points)) faces None) (fun pf =>
        Ok (MkMesh faces points normals interp
              (map (fun n => GeometryObject.vdiv n (norm n)) fn)
              (cKDTree_query points) pf.1 pf.2)))))))))
    = rbind (find_point_faces (seq 0 (length points)) faces None)
        (fun pf => Ok (MkMesh faces points normals interp (normals_of p0 p1 p2)
                              (cKDTree_query points) pf.1 pf.2))).
  { intros interp. cbn [rbind]. rewrite E0, E1, E2. cbn [rbind].
    unfold zip_exact. rewrite L0, L1, L2, Nat.eqb_refl. cbn [rbind].
    rewrite !length_zip_with, L0, L1, L2, Nat.min_id, Nat.eqb_refl. cbn [rbind].
    reflexivity. }
  destruct mesh_interpolate.
  - destruct normals as [ns|]; [|now destruct (Hn eq_refl)].
    eexists. split; [apply Hrest|discriminate].
  - exists None. split; [apply Hrest|reflexivity].
Qed.

Lemma faces_in_range_takes (points : list (vec3 T)) (faces : list face) :
  faces_in_range faces (length points) ->
  exists p0 p1 p2,
    take points (map face0 faces) = Ok p0 /\
    take points (map face1 faces) = Ok p1 /\
    take points (map face2 faces) = Ok p2.
Proof.
  intros Hin.
  destruct (take_in_range points (map face0 faces)) as (p0 & E0 & _).
  { intros i Hi. apply in_map_iff in Hi as (f & <- & Hf). now apply Hin. }
  destruct (take_in_range points (map face1 faces)) as (p1 & E1 & _).
  { intros i Hi. apply in_map_iff in Hi as (f & <- & Hf). now apply Hin. }
  destruct (take_in_range points (map face2 faces)) as (p2 & E2 & _).
  { intros i Hi. apply in_map_iff in Hi as (f & <- & Hf). now apply Hin. }
  now exists p0, p1, p2.
Qed.

Lemma precalc_out_of_range (points : list (vec3 T)) (normals : option (list (vec3 T)))
    (faces : list face) :
  (exists f, In f faces /\
     (length points <= face0 f \/ length points <= face1 f \/ length points <= face2 f)) ->
  _mesh_precalc false points normals faces = Err IndexError.
Proof.
  intros (f & Hf & Hout). unfold _mesh_precalc. cbn [rbind].
  destruct (take_cases points (map face0 faces)) as [[-> _]|(p0 & -> & _ & R0)];
    cbn [rbind]; [reflexivity|].
  destruct (take_cases points (map face1 faces)) as [[-> _]|(p1 & -> & _ & R1)];
    cbn [rbind]; [reflexivity|].
  destruct (take_cases points (map face2 faces)) as [[-> _]|(p2 & -> & _ & R2)];
    cbn [rbind]; [reflexivity|].
  exfalso.
  pose proof (R0 (face0 f) (in_map face0 _ _ Hf)).
  pose proof (R1 (face1 f) (in_map face1 _ _ Hf)).
  pose proof (R2 (face2 f) (in_map face2 _ _ Hf)). lia.
Qed.

(** X15.  When [_mesh_precalc] succeeds, for a mesh without
    interpolation.  A face that names a vertex beyond the end of [points]
    makes it raise an [IndexError].  With every index in range, a vertex
    that is a corner of more than 8 faces makes it raise a [ValueError];
    when there is none it returns the mesh: the three input arrays as
    given, no interpolators, one normal per face and one adjacency
    column per vertex. *)
Theorem mesh_precalc_outcome (points : list (vec3 T)) (normals : option (list (vec3 T)))
    (faces : list face) :
  let n := length points in
  ((exists f, In f faces /\ (n <= face0 f \/ n <= face1 f \/ n <= face2 f)) ->
   _mesh_precalc false points normals faces = Err IndexError) /\
  (faces_in_range faces n -> (exists v, v < n /\ 8 < degree faces v) ->
   _mesh_precalc false points normals faces = Err ValueError) /\
  (faces_in_range faces n -> (forall v, v < n -> degree faces v <= 8) ->
   exists mesh,
     _mesh_precalc false points normals faces = Ok mesh /\
     mesh_faces mesh = faces /\ mesh_points mesh = points /\
     mesh_normals_in mesh = normals /\ mesh_interp mesh = None /\
     length (faces_normal mesh) = length faces /\
     length (p_faces_idx mesh) = n /\ length (p_faces_mask mesh) = n).
Proof.
  cbv zeta. split; [apply precalc_out_of_range|]. split.
  - intros Hin Hover.
    destruct (faces_in_range_takes points faces Hin) as (p0 & p1 & p2 & E0 & E1 & E2).
    destruct (precalc_corners false points normals faces p0 p1 p2 E0 E1 E2)
      as (interp & -> & _); [discriminate|].
    destruct (find_point_faces_columns (length points) faces)
      as [[_ ->]|(Hfit & _)]; [reflexivity|].
    destruct Hover as (v & Hv & Hd). specialize (Hfit v Hv). lia.
  - intros Hin Hfit.
    destruct (faces_in_range_takes points faces Hin) as (p0 & p1 & p2 & E0 & E1 & E2).
    destruct (precalc_corners false points normals faces p0 p1 p2 E0 E1 E2)
      as (interp & -> & Hinterp); [discriminate|].
    destruct (find_point_faces_columns (length points) faces)
      as [[(v & Hv & Hd) _]|(_ & tbl & -> & (Hl1 & Hl2 & _) & _)].
    { specialize (Hfit v Hv). lia. }
    cbn [rbind]. eexists. split; [reflexivity|].
    cbn [mesh_faces mesh_points mesh_normals_in mesh_interp faces_normal
         p_faces_idx p_faces_mask].
    repeat (split; [reflexivity|]). split; [now apply Hinterp|].
    split; [|now split].
    unfold normals_of. rewrite length_map, !length_zip_with.
    apply take_length in E0, E1, E2. rewrite length_map in E0, E1, E2. lia.
Qed.

End PrecalcOutcome.

Section PrecalcShape.
Context {T : Type} `{Scalar T} `{Scipy T}.
Import XicsrtOpticMesh XicsrtOpticMeshSetup.

Lemma precalc_inv (mesh_interpolate : bool) (points : list (vec3 T))
    (normals : option (list (vec3 T))) (faces : list face) (mesh : Mesh T) :
  _mesh_precalc mesh_interpolate points normals faces = Ok mesh ->
  exists p0 p1 p2 tbl interp,
    take points (map face0 faces) = Ok p0 /\
    take points (map face1 faces) = Ok p1 /\
    take points (map face2 faces) = Ok p2 /\
    find_point_faces (seq 0 (length points)) faces None = Ok tbl /\
    mesh = MkMesh faces points normals interp (normals_of p0 p1 p2)
                  (cKDTree_query points) tbl.1 tbl.2.
Proof.
  intros Hrun. pose proof Hrun as Hrun'. unfold _mesh_precalc in Hrun'.
  assert (Hn : mesh_interpolate = true -> normals <> None).
  { intros -> ->. discriminate Hrun'. }
  match type of Hrun' with rbind ?c _ = _ => destruct c as [interp0|] end;
    cbn [rbind] in Hrun'; [|discriminate].
  destruct (take points (map face0 faces)) as [p0|] eqn:E0; cbn [rbind] in Hrun'; [|discriminate].
  destruct (take points (map face1 faces)) as [p1|] eqn:E1; cbn [rbind] in Hrun'; [|discriminate].
  destruct (take points (map face2 faces)) as [p2|] eqn:E2; cbn [rbind] in Hrun'; [|discriminate].
  clear Hrun'.
  destruct (precalc_corners mesh_interpolate points normals faces p0 p1 p2 E0 E1 E2 Hn)
    as (interp & Heq & _).
  rewrite Heq in Hrun.
  destruct (find_point_faces (seq 0 (length points)) faces None) as [tbl|] eqn:Et;
    cbn [rbind] in Hrun; [|discriminate].
  injection Hrun as <-. now exists p0, p1, p2, tbl, interp.
Qed.

Lemma take_indices_in_range {A} (a : list A) (idx : list nat) l i :
  take a idx = Ok l -> In i idx -> i < length a.
Proof.
  intros Hl Hi. apply in_lookup in Hi as [k Hk].
  now destruct (take_lookup a idx l k i Hl Hk).
Qed.

(** X16.  A mesh that [_mesh_precalc] returns for at least one face is
    one the refinement stage can use, provided the tree answers every
    query with the index of a point: the corners of every face exist,
    each adjacency table has one column of 8 slots per point, and every
    slot, padding included, holds the index of a face whose corners and
    normal can be gathered. *)
Theorem mesh_precalc_wellformed (mesh_interpolate : bool) (points : list (vec3 T))
    (normals : option (list (vec3 T))) (faces : list face) (mesh : Mesh T) :
  _mesh_precalc mesh_interpolate points normals faces = Ok mesh ->
  faces <> [] ->
  (forall x, cKDTree_query points x < length points) ->
  mesh_tables_wf mesh 8 /\
  length (p_faces_idx mesh) = length points /\
  exists tris, mesh_triangles mesh = Ok tris /\ length tris = length faces.
Proof.
  intros Hrun Hne Htree.
  destruct (precalc_inv _ _ _ _ _ Hrun) as (p0 & p1 & p2 & tbl & interp & E0 & E1 & E2 & Et & ->).
  destruct (find_point_faces_columns (length points) faces)
    as [[_ Herr]|(Hfit & tbl' & Hok & (Hl1 & Hl2 & Hc1 & Hc2) & Hcols)].
  { rewrite Herr in Et. discriminate Et. }
  rewrite Et in Hok. injection Hok as <-.
  pose proof (take_length _ _ _ E0) as L0. pose proof (take_length _ _ _ E1) as L1.
  pose proof (take_length _ _ _ E2) as L2. rewrite length_map in L0, L1, L2.
  assert (Htris : exists tris,
            mesh_triangles (MkMesh faces points normals interp (normals_of p0 p1 p2)
                                   (cKDTree_query points) tbl.1 tbl.2) = Ok tris /\
            length tris = length faces).
  { unfold mesh_triangles. cbn [mesh_points mesh_faces]. rewrite E0, E1, E2. cbn [rbind].
    eexists. split; [reflexivity|]. rewrite length_zip_with, length_zip. lia. }
  split; [|split; [exact Hl1|exact Htris]].
  unfold mesh_tables_wf. cbn [p_faces_idx p_faces_mask points_tree].
  split; [lia|]. split; [lia|]. split; [|split; [|split]].
  - apply Forall_forall. intros col Hcol. apply list_elem_of_In, in_lookup in Hcol as [v Hv].
    exact (proj1 (Hc1 _ _ Hv)).
  - apply Forall_forall. intros col Hcol. apply list_elem_of_In, in_lookup in Hcol as [v Hv].
    exact (proj1 (Hc2 _ _ Hv)).
  - intros col fi Hcol Hfi. apply in_lookup in Hcol as [v Hv].
    assert (Hvn : v < length points) by (apply lookup_lt_Some in Hv; lia).
    destruct (Hcols v Hvn) as [Hcv _]. rewrite Hv in Hcv. injection Hcv as ->.
    assert (Hface : exists f, faces !! fi = Some f).
    { unfold full_column in Hfi. apply in_app_iff in Hfi as [Hfi|Hfi].
      - apply nonzero_rows_spec in Hfi as (_ & f & Hf & _). rewrite Nat.sub_0_r in Hf.
        now exists f.
      - apply in_replicate in Hfi as ->. destruct faces as [|f faces']; [contradiction|].
        now exists f. }
    destruct Hface as [f Hf].
    assert (Hin : In f faces).
    { apply list_elem_of_In. now apply (list_elem_of_lookup_2 _ fi). }
    destruct (lookup_lt_is_Some_2 points (face0 f)) as [P0 HP0].
    { apply (take_indices_in_range _ _ _ _ E0). now apply in_map. }
    destruct (lookup_lt_is_Some_2 points (face1 f)) as [P1 HP1].
    { apply (take_indices_in_range _ _ _ _ E1). now apply in_map. }
    destruct (lookup_lt_is_Some_2 points (face2 f)) as [P2 HP2].
    { apply (take_indices_in_range _ _ _ _ E2). now apply in_map. }
    destruct (lookup_lt_is_Some_2 (normals_of p0 p1 p2) fi) as [n Hn].
    { unfold normals_of. rewrite length_map, !length_zip_with.
      apply lookup_lt_Some in Hf. lia. }
    exists (Cand P0 P1 P2 n). unfold gather_candidate.
    cbn [mesh_faces mesh_points faces_normal].
    rewrite Hf. cbn [of_option rbind]. rewrite HP0. cbn [of_option rbind].
    rewrite HP1. cbn [of_option rbind]. rewrite HP2. cbn [of_option rbind].
    rewrite Hn. reflexivity.
  - intros x. rewrite Hl1. apply Htree.
Qed.

End PrecalcShape.

Section FaceNormals.
Context `{Scipy R}.
Import XicsrtOpticMesh XicsrtOpticMeshSetup GeometryObject.

(** X17.  The normal [_mesh_precalc] stores for a face is the cross
    product of the edge vectors from [p1] to [p0] and from [p1] to [p2],
    divided by its norm.  In exact arithmetic, for a face whose corners
    are not collinear, it is a unit vector orthogonal to the edges of the
    face, and it points against the cross product of the edges from [p0]
    to [p1] and from [p0] to [p2]: to the side from which the corners
    appear in clockwise order. *)
Theorem face_normals_unit (mesh_interpolate : bool) (points : list (vec3 R))
    (normals : option (list (vec3 R))) (faces : list face) (mesh : Mesh R) :
  _mesh_precalc mesh_interpolate points normals faces = Ok mesh ->
  forall i f, faces !! i = Some f ->
    exists p0 p1 p2 n,
      points !! face0 f = Some p0 /\ points !! face1 f = Some p1 /\
      points !! face2 f = Some p2 /\ faces_normal mesh !! i = Some n /\
      let N := cross (vsub p0 p1) (vsub p2 p1) in
      n = vdiv N (norm N) /\
      (N <> vzero ->
       dot n n = 1%R /\ dot n (vsub p1 p0) = 0%R /\ dot n (vsub p2 p0) = 0%R /\
       (dot n (cross (vsub p1 p0) (vsub p2 p0)) < 0)%R).
Proof.
  intros Hrun i f Hf.
  destruct (precalc_inv _ _ _ _ _ Hrun) as (l0 & l1 & l2 & tbl & interp & E0 & E1 & E2 & _ & ->).
  pose proof (take_length _ _ _ E0) as L0. pose proof (take_length _ _ _ E1) as L1.
  pose proof (take_length _ _ _ E2) as L2. rewrite length_map in L0, L1, L2.
  pose proof (lookup_lt_Some _ _ _ Hf) as Hi.
  destruct (lookup_lt_is_Some_2 l0 i) as [p0 H0]; [lia|].
  destruct (lookup_lt_is_Some_2 l1 i) as [p1 H1]; [lia|].
  destruct (lookup_lt_is_Some_2 l2 i) as [p2 H2]; [lia|].
  destruct (take_lookup points (map face0 faces) l0 i (face0 f) E0) as [G0 _].
  { now rewrite list_lookup_fmap, Hf. }
  destruct (take_lookup points (map face1 faces) l1 i (face1 f) E1) as [G1 _].
  { now rewrite list_lookup_fmap, Hf. }
  destruct (take_lookup points (map face2 faces) l2 i (face2 f) E2) as [G2 _].
  { now rewrite list_lookup_fmap, Hf. }
  exists p0, p1, p2. eexists.
  split; [congruence|]. split; [congruence|]. split; [congruence|].
  cbn [faces_normal]. unfold normals_of.
  split. { rewrite list_lookup_fmap, !lookup_zip_with, H0, H1, H2. reflexivity. }
  cbv zeta. split; [reflexivity|].
  set (N := cross (vsub p0 p1) (vsub p2 p1)). intros HN.
  pose proof (norm_square N) as Hsq. pose proof (norm_nonzero N HN) as Hnz.
  pose proof (dot_self_pos N HN) as Hpos.
  assert (Hnpos : (0 < norm N)%R).
  { unfold norm. cbn [s_sqrt real_scalar]. now apply sqrt_lt_R0. }
  assert (HN1 : dot N (vsub p1 p0) = 0%R).
  { subst N. destruct p0 as [a0 a1 a2], p1 as [b0 b1 b2], p2 as [c0 c1 c2].
    cbv [cross vsub dot sum3 vget vx vy vz]. cbn [s_add s_sub s_mul real_scalar]. ring. }
  assert (HN2 : dot N (vsub p2 p0) = 0%R).
  { subst N. destruct p0 as [a0 a1 a2], p1 as [b0 b1 b2], p2 as [c0 c1 c2].
    cbv [cross vsub dot sum3 vget vx vy vz]. cbn [s_add s_sub s_mul real_scalar]. ring. }
  assert (HN3 : dot N (cross (vsub p1 p0) (vsub p2 p0)) = (- dot N N)%R).
  { subst N. destruct p0 as [a0 a1 a2], p1 as [b0 b1 b2], p2 as [c0 c1 c2].
    cbv [cross vsub dot sum3 vget vx vy vz]. cbn [s_add s_sub s_mul real_scalar]. ring. }
  assert (Hdiv : forall w, dot (vdiv N (norm N)) w = (dot N w / norm N)%R).
  { intros [w0 w1 w2]. destruct N as [n0 n1 n2].
    cbv [vdiv dot sum3 vget vx vy vz]. cbn [s_add s_mul s_div real_scalar].
    field. exact Hnz. }
  split; [|split; [|split]].
  - rewrite Hdiv.
    assert (Hsym : dot N (vdiv N (norm N)) = (dot N N / norm N)%R).
    { destruct N as [n0 n1 n2].
      cbv [vdiv dot sum3 vget vx vy vz]. cbn [s_add s_mul s_div real_scalar].
      field. exact Hnz. }
    rewrite Hsym, <- Hsq. field. exact Hnz.
  - rewrite Hdiv, HN1. unfold Rdiv. ring.
  - rewrite Hdiv, HN2. unfold Rdiv. ring.
  - rewrite Hdiv, HN3, <- Hsq.
    replace (- (norm N * norm N) / norm N)%R with (- norm N)%R by (field; exact Hnz).
    lra.
Qed.

End FaceNormals.

(** * [mesh_get_index], [check_param] and [mesh_initialize] *)

Section IndexFacts.
Import XicsrtOpticMesh XicsrtOpticMeshSetup.

Lemma face_eqb_eq (f g : face) : face_eqb f g = true <-> f = g.
Proof.
  destruct f as [[a b] c], g as [[a' b'] c']. unfold face_eqb, face0, face1, face2. cbn.
  rewrite !andb_true_iff, !Nat.eqb_eq. split.
  - intros [[-> ->] ->]. reflexivity.
  - intros [= -> -> ->]. auto.
Qed.

Lemma last_index_bounds (faces : list face) (h : face) : forall ii k,
  last_index ii faces h = Some k ->
  ii <= k /\ faces !! (k - ii) = Some h /\
  forall k', k < k' -> faces !! (k' - ii) <> Some h.
Proof.
  induction faces as [|ff faces IH]; intros ii k; cbn [last_index]; [discriminate|].
  destruct (last_index (S ii) faces h) as [k1|] eqn:E.
  - intros [= ->]. destruct (IH (S ii) k E) as (Hle & Hk & Hlater).
    split; [lia|]. split.
    + replace (k - ii) with (S (k - S ii)) by lia. exact Hk.
    + intros k' Hlt. replace (k' - ii) with (S (k' - S ii)) by lia. now apply Hlater.
  - destruct (face_eqb ff h) eqn:Heq; [|discriminate]. intros [= <-].
    apply face_eqb_eq in Heq as ->.
    split; [lia|]. rewrite Nat.sub_diag. split; [reflexivity|].
    intros k' Hlt Hk'. replace (k' - ii) with (S (k' - S ii)) in Hk' by lia. cbn in Hk'.
    assert (Hnone : forall jj, last_index jj faces h = None -> ~ In h faces).
    { clear. induction faces as [|g faces IH]; intros jj; cbn [last_index]; [tauto|].
      destruct (last_index (S jj) faces h) eqn:E; [discriminate|].
      destruct (face_eqb g h) eqn:Hg; [discriminate|]. intros _ [->|Hin].
      - assert (face_eqb h h = true) by now apply face_eqb_eq. congruence.
      - exact (IH (S jj) E Hin). }
    apply (Hnone (S ii) E). apply list_elem_of_In.
    now apply (list_elem_of_lookup_2 _ (k' - S ii)).
Qed.

Lemma last_index_none (faces : list face) (h : face) : forall ii,
  last_index ii faces h = None <-> ~ In h faces.
Proof.
  induction faces as [|g faces IH]; intros ii; cbn [last_index]; [tauto|].
  specialize (IH (S ii)). destruct (last_index (S ii) faces h) as [k|] eqn:E.
  - split; [discriminate|]. intros Hn. exfalso.
    destruct (last_index_bounds faces h (S ii) k E) as (_ & Hk & _).
    apply Hn. right. apply list_elem_of_In. now apply (list_elem_of_lookup_2 _ (k - S ii)).
  - destruct (face_eqb g h) eqn:Hg.
    + apply face_eqb_eq in Hg as ->. split; [discriminate|]. intros Hn. exfalso.
      apply Hn. now left.
    + split; [|reflexivity]. intros _ [->|Hin].
      * assert (face_eqb h h = true) by now apply face_eqb_eq. congruence.
      * now apply (proj1 IH).
Qed.

Lemma get_index_loop_rows (hits : list face) (faces : list face) : forall ii idx,
  length idx = length hits ->
  exists idx',
    get_index_loop ii faces hits idx = Ok idx' /\ length idx' = length hits /\
    forall j h old, hits !! j = Some h -> idx !! j = Some old ->
      idx' !! j = Some (match last_index ii faces h with
                        | Some k => Some k
                        | None => old
                        end).
Proof.
  induction faces as [|ff faces IH]; intros ii idx Hlen; cbn [get_index_loop last_index].
  - exists idx. split; [reflexivity|]. split; [exact Hlen|]. now intros j h old _ ->.
  - unfold mask_fill. rewrite length_map, Hlen, Nat.eqb_refl. cbn [rbind].
    set (idx1 := zip_with _ idx _).
    assert (Hlen1 : length idx1 = length hits).
    { unfold idx1. rewrite length_zip_with, length_map. lia. }
    destruct (IH (S ii) idx1 Hlen1) as (idx' & Hrun & Hlen' & Hrows).
    exists idx'. split; [exact Hrun|]. split; [exact Hlen'|].
    intros j h old Hh Hold.
    assert (H1 : idx1 !! j = Some (if face_eqb ff h then Some ii else old)).
    { unfold idx1. rewrite lookup_zip_with, Hold, list_lookup_fmap, Hh. reflexivity. }
    rewrite (Hrows j h _ Hh H1).
    destruct (last_index (S ii) faces h); [reflexivity|].
    now destruct (face_eqb ff h).
Qed.

(** X18.  [mesh_get_index] returns, for every row of [hits], the index
    of the last row of [faces] that equals it, and leaves the entry
    unwritten when no row of [faces] does.  So it inverts the lookup of
    faces by index: on a face table without repeated rows, the faces
    gathered at a list of indices are mapped back to these indices. *)
Theorem mesh_get_index_inverts_lookup (hits faces : list face) :
  exists idx_hits,
    mesh_get_index hits faces = Ok idx_hits /\
    length idx_hits = length hits /\
    (forall j h, hits !! j = Some h ->
       idx_hits !! j = Some (last_index 0 faces h) /\
       match last_index 0 faces h with
       | Some k => faces !! k = Some h /\ forall k', k < k' -> faces !! k' <> Some h
       | None => ~ In h faces
       end) /\
    (NoDup faces -> forall idx, take faces idx = Ok hits -> idx_hits = map Some idx).
Proof.
  unfold mesh_get_index.
  destruct (get_index_loop_rows hits faces 0 (replicate (length hits) None))
    as (idx' & Hrun & Hlen & Hrows); [apply length_replicate|].
  exists idx'. split; [exact Hrun|]. split; [exact Hlen|].
  assert (Hrow : forall j h, hits !! j = Some h -> idx' !! j = Some (last_index 0 faces h)).
  { intros j h Hh. rewrite (Hrows j h None Hh).
    - now destruct (last_index 0 faces h).
    - apply lookup_replicate_2. now apply lookup_lt_Some in Hh. }
  split.
  - intros j h Hh. split; [now apply Hrow|].
    destruct (last_index 0 faces h) as [k|] eqn:E.
    + destruct (last_index_bounds faces h 0 k E) as (_ & Hk & Hlater).
      rewrite Nat.sub_0_r in Hk. split; [exact Hk|].
      intros k' Hlt. specialize (Hlater k' Hlt). now rewrite Nat.sub_0_r in Hlater.
    + now apply (last_index_none faces h 0).
  - intros Hnd idx Htake.
    pose proof (take_length _ _ _ Htake) as Hl.
    apply (lists_equal_pointwise _ _ (length hits)); [exact Hlen|now rewrite length_map|].
    intros j Hj.
    destruct (lookup_lt_is_Some_2 idx j) as [i Hi]; [lia|].
    destruct (take_lookup faces idx hits j i Htake Hi) as [Hh Hin].
    destruct (lookup_lt_is_Some_2 faces i Hin) as [h Hfi]. rewrite Hfi in Hh.
    rewrite (Hrow j h Hh), list_lookup_fmap, Hi. cbn. do 2 f_equal.
    destruct (last_index 0 faces h) as [k|] eqn:E.
    + destruct (last_index_bounds faces h 0 k E) as (_ & Hk & _).
      rewrite Nat.sub_0_r in Hk. f_equal.
      apply (NoDup_lookup faces k i h); assumption.
    + exfalso. apply (last_index_none faces h 0) in E. apply E.
      apply list_elem_of_In. now apply (list_elem_of_lookup_2 _ i).
Qed.

End IndexFacts.

Section ParamFacts.
Import XicsrtOpticMesh XicsrtOpticMeshSetup.


(** X20.  [check_param] never reads the entry 'mesh_coarse_points', the
    key under which the default configuration and [mesh_initialize] keep
    the coarse points.  Whatever is stored there, the call raises the
    same exception or returns the same dictionary, with that entry
    carried along: supplying coarse points does not switch refinement
    on. *)
Theorem check_param_ignores_coarse_points (param : gmap string pyval) (v : pyval) :
  check_param (<["mesh_coarse_points" := v]> param)
  = match check_param param with
    | Ok param' => Ok (<["mesh_coarse_points" := v]> param')
    | Err e => Err e
    end.
Proof.
  unfold check_param, getitem.
  rewrite lookup_insert_ne by discriminate.
  destruct (param !! "mesh_normals") as [n|]; cbn [of_option rbind]; [|reflexivity].
  assert (Hp : (if is_None n
                then <["mesh_interpolate" := PyBool false]> (<["mesh_coarse_points" := v]> param)
                else <["mesh_coarse_points" := v]> param)
               = <["mesh_coarse_points" := v]>
                   (if is_None n then <["mesh_interpolate" := PyBool false]> param else param)).
  { destruct (is_None n); [|reflexivity]. apply insert_insert_ne. discriminate. }
  rewrite Hp.
  set (p1 := if is_None n then <["mesh_interpolate" := PyBool false]> param else param).
  rewrite lookup_insert_ne by discriminate.
  destruct (p1 !! "mesh_refine") as [r|]; cbn [of_option rbind]; [|reflexivity].
  destruct (is_None r); [|reflexivity].
  rewrite lookup_insert_ne by discriminate.
  destruct (p1 !! "mesh_course_points") as [c|]; cbn [of_option rbind]; [|reflexivity].
  destruct (is_None c); cbn [negb]; [reflexivity|].
  f_equal. apply insert_insert_ne. discriminate.
Qed.

End ParamFacts.

Section InitializeFacts.
Context {T : Type} `{Scalar T} `{Scipy T}.
Import XicsrtOpticMesh XicsrtOpticMeshSetup.


End InitializeFacts.

(** * The transforms and the caller's arrays *)

Section StoreFacts.
Context {T : Type} `{Scalar T}.
Import GeometryObject.

Local Ltac store_simpl :=
  repeat (unfold GeometryStore.write, GeometryStore.alloc;
          cbn [fst snd GeometryStore.cell GeometryStore.next]).

Lemma rank_transforms (self : GeometryObject.t T) (a : ndarray T) :
  ndim a = 1 \/ ndim a = 2 ->
  exists rot loc ext sub,
    vector_to_external self a = Ok rot /\ vector_to_local self a = Ok loc /\
    broadcast_origin s_add rot (origin self) = Ok ext /\
    broadcast_origin s_sub a (origin self) = Ok sub /\
    point_to_external self a = Ok ext /\
    (exists pl, vector_to_local self sub = Ok pl /\ point_to_local self a = Ok pl) /\
    ndim rot = ndim a /\ ndim loc = ndim a /\ ndim ext = ndim a /\ ndim sub = ndim a.
Proof.
  intros Hrank.
  destruct a as [s|v|rows|k b]; cbn in Hrank;
    try (exfalso; destruct Hrank as [Hr|Hr]; discriminate Hr).
  - eexists _, _, _, _. repeat (split; [reflexivity|]).
    split; [eexists; split; reflexivity|]. repeat split.
  - eexists _, _, _, _. repeat (split; [reflexivity|]).
    split; [eexists; split; reflexivity|]. repeat split.
Qed.

(** X22.  What the transforms leave in the array they are given, of rank
    1 or 2.  [vector_to_external] returns the array itself, overwritten
    with the transformed vectors.  [point_to_external] returns a new
    array with the transformed points, and leaves in its argument the
    rotated vectors to which the origin has not been added.
    [point_to_local] returns a new array and leaves its argument as it
    was.  No other array changes. *)
Theorem transform_side_effects (self : GeometryObject.t T)
    (h : GeometryStore.store) (l : GeometryStore.ref) :
  l < GeometryStore.next h ->
  ndim (GeometryStore.cell h l) = 1 \/ ndim (GeometryStore.cell h l) = 2 ->
  let a := GeometryStore.cell h l in
  let fresh := GeometryStore.next h in
  exists rot ext loc,
    vector_to_external self a = Ok rot /\
    point_to_external self a = Ok ext /\
    point_to_local self a = Ok loc /\
    (let out := GeometryStore.vector_to_external self (GeometryStore.ByRef l) h in
     out.1 = Ok l /\
     GeometryStore.cell out.2 l = rot /\
     GeometryStore.next out.2 = fresh /\
     forall l', l' <> l -> GeometryStore.cell out.2 l' = GeometryStore.cell h l') /\
    (let out := GeometryStore.point_to_external self (GeometryStore.ByRef l) h in
     out.1 = Ok fresh /\
     GeometryStore.cell out.2 fresh = ext /\
     GeometryStore.cell out.2 l = rot /\
     forall l', l' <> l -> l' <> fresh ->
       GeometryStore.cell out.2 l' = GeometryStore.cell h l') /\
    (let out := GeometryStore.point_to_local self (GeometryStore.ByRef l) h in
     out.1 = Ok fresh /\
     GeometryStore.cell out.2 fresh = loc /\
     forall l', l' <> fresh -> GeometryStore.cell out.2 l' = GeometryStore.cell h l').
Proof.
  intros Hl Hrank. cbv zeta.
  destruct (rank_transforms self _ Hrank)
    as (rot & loc & ext & sub & Hrot & Hloc & Hext & Hsub & Hpe & (pl & Hpl & Hpl') & _).
  exists rot, ext, pl. split; [exact Hrot|]. split; [exact Hpe|]. split; [exact Hpl'|].
  split; [|split].
  - unfold GeometryStore.vector_to_external, GeometryStore.to_ndarray. rewrite Hrot.
    store_simpl. rewrite Nat.eqb_refl. repeat (split; [reflexivity|]).
    intros l' Hne. now rewrite (proj2 (Nat.eqb_neq l' l) Hne).
  - unfold GeometryStore.point_to_external, GeometryStore.vector_to_external,
      GeometryStore.to_ndarray. rewrite Hrot.
    store_simpl. rewrite Nat.eqb_refl, Hext. store_simpl.
    rewrite !Nat.eqb_refl.
    rewrite (proj2 (Nat.eqb_neq l (GeometryStore.next h))) by lia.
    repeat (split; [reflexivity|]).
    intros l' Hne Hnf.
    now rewrite (proj2 (Nat.eqb_neq l' _) Hnf), (proj2 (Nat.eqb_neq l' l) Hne).
  - unfold GeometryStore.point_to_local. rewrite Hsub.
    unfold GeometryStore.vector_to_local, GeometryStore.to_ndarray.
    store_simpl. rewrite Nat.eqb_refl, Hpl. store_simpl.
    rewrite !Nat.eqb_refl. repeat (split; [reflexivity|]).
    intros l' Hnf. now rewrite !(proj2 (Nat.eqb_neq l' _) Hnf).
Qed.

Import GeometryStore(kept_below).

Lemma kept_below_refl n (h : @GeometryStore.store T) : kept_below n h h.
Proof. split; [lia|reflexivity]. Qed.

Lemma kept_below_trans n (h1 h2 h3 : @GeometryStore.store T) :
  kept_below n h1 h2 -> kept_below n h2 h3 -> kept_below n h1 h3.
Proof.
  intros [N1 C1] [N2 C2]. split; [lia|]. intros l Hl. now rewrite C2, C1.
Qed.

Lemma kept_below_write n (h : @GeometryStore.store T) l a : n <= l -> kept_below n h (GeometryStore.write h l a).
Proof.
  intros Hl. split; [cbn; lia|]. intros l' Hl'. cbn.
  now rewrite (proj2 (Nat.eqb_neq l' l)) by lia.
Qed.

Lemma kept_below_alloc n (h : @GeometryStore.store T) a :
  n <= GeometryStore.next h -> kept_below n h (GeometryStore.alloc h a).2.
Proof.
  intros Hn. split; [cbn; lia|]. intros l' Hl'. cbn.
  now rewrite (proj2 (Nat.eqb_neq l' _)) by lia.
Qed.

Lemma vector_to_external_kept n self l h :
  n <= l ->
  kept_below n h (GeometryStore.vector_to_external self (GeometryStore.ByRef l) h).2.
Proof.
  intros Hl. unfold GeometryStore.vector_to_external, GeometryStore.to_ndarray.
  destruct (vector_to_external self _); cbn [snd];
    [now apply kept_below_write|apply kept_below_refl].
Qed.

Lemma vector_to_local_kept n self l h :
  n <= l ->
  kept_below n h (GeometryStore.vector_to_local self (GeometryStore.ByRef l) h).2.
Proof.
  intros Hl. unfold GeometryStore.vector_to_local, GeometryStore.to_ndarray.
  destruct (vector_to_local self _); cbn [snd];
    [now apply kept_below_write|apply kept_below_refl].
Qed.

Lemma point_to_external_kept n self l h :
  n <= l -> n <= GeometryStore.next h ->
  kept_below n h (GeometryStore.point_to_external self (GeometryStore.ByRef l) h).2.
Proof.
  intros Hl Hn. unfold GeometryStore.point_to_external.
  pose proof (vector_to_external_kept n self l h Hl) as Hk.
  destruct (GeometryStore.vector_to_external self _ h) as [[l1|e] h1]; cbn [snd] in *;
    [|exact Hk].
  destruct (broadcast_origin _ _ _) as [a|e]; [|exact Hk].
  apply (kept_below_trans n h h1); [exact Hk|].
  change ((let '(l', h0) := GeometryStore.alloc h1 a in (Ok l', h0)).2)
    with (GeometryStore.alloc h1 a).2.
  apply kept_below_alloc. destruct Hk. lia.
Qed.

Lemma point_to_local_kept n self l h :
  n <= GeometryStore.next h ->
  kept_below n h (GeometryStore.point_to_local self (GeometryStore.ByRef l) h).2.
Proof.
  intros Hn. unfold GeometryStore.point_to_local.
  destruct (broadcast_origin _ _ _) as [d|e]; [|apply kept_below_refl].
  cbn [GeometryStore.alloc].
  eapply kept_below_trans; [exact (kept_below_alloc n h d Hn)|].
  apply vector_to_local_kept. exact Hn.
Qed.

Lemma deepcopy_kept {E} (ray : GeometryStore.raydict E) (h : @GeometryStore.store T) :
  let out := GeometryStore.deepcopy ray h in
  kept_below (GeometryStore.next h) h out.2 /\
  GeometryStore.next h <= GeometryStore.rd_origin out.1 /\
  GeometryStore.next h <= GeometryStore.rd_direction out.1 /\
  GeometryStore.rd_origin out.1 < GeometryStore.next out.2 /\
  GeometryStore.rd_direction out.1 < GeometryStore.next out.2.
Proof.
  cbv zeta. unfold GeometryStore.deepcopy. cbn [GeometryStore.alloc].
  destruct (Nat.eqb _ _); cbn [fst snd GeometryStore.rd_origin GeometryStore.rd_direction
                                 GeometryStore.next].
  - split; [|repeat split; lia].
    exact (kept_below_alloc _ h (GeometryStore.cell h (GeometryStore.rd_origin ray))
             (Nat.le_refl _)).
  - split; [|repeat split; lia].
    eapply kept_below_trans;
      [exact (kept_below_alloc _ h (GeometryStore.cell h (GeometryStore.rd_origin ray))
                (Nat.le_refl _))|].
    split; [cbn; lia|]. intros l Hl. cbn.
    now rewrite (proj2 (Nat.eqb_neq l (S _))) by lia.
Qed.

(** X23.  With [copy=True] the ray transforms work on a deep copy: the
    dictionary the caller passed and every array that existed before the
    call are left as they were, whether the call returns or raises.
    With [copy=False] the caller's dictionary is the one that is updated
    and returned; when the array under 'direction' is not of rank 1 or 2
    (and the one under 'origin' is), [ray_to_external] raises after it
    has replaced the entry 'origin', so the caller is left with a
    dictionary whose origins are transformed and whose directions are
    not. *)
Theorem ray_transform_copy {E} (self : GeometryObject.t T)
    (ray : GeometryStore.raydict E) (h : @GeometryStore.store T) :
  GeometryStore.rd_origin ray < GeometryStore.next h ->
  GeometryStore.rd_direction ray < GeometryStore.next h ->
  (let out := GeometryStore.ray_to_external self ray true h in
   out.1.2 = ray /\ kept_below (GeometryStore.next h) h out.2) /\
  (let out := GeometryStore.ray_to_local self ray true h in
   out.1.2 = ray /\ kept_below (GeometryStore.next h) h out.2) /\
  (let out := GeometryStore.ray_to_external self ray false h in
   forall r, out.1.1 = Ok r -> out.1.2 = r) /\
  (let a := GeometryStore.cell h (GeometryStore.rd_origin ray) in
   let d := GeometryStore.cell h (GeometryStore.rd_direction ray) in
   ndim a = 1 \/ ndim a = 2 -> ndim d <> 1 -> ndim d <> 2 ->
   GeometryStore.rd_direction ray <> GeometryStore.rd_origin ray ->
   let out := GeometryStore.ray_to_external self ray false h in
   out.1.1 = Err (Exception "vector.ndim must be 1 or 2") /\
   out.1.2 = GeometryStore.RayDict (GeometryStore.next h) (GeometryStore.rd_direction ray)
               (GeometryStore.rd_others ray) /\
   point_to_external self a = Ok (GeometryStore.cell out.2 (GeometryStore.next h)) /\
   GeometryStore.cell out.2 (GeometryStore.rd_direction ray) = d).
Proof.
  intros Ho Hd. cbv zeta. split; [|split; [|split]].
  - unfold GeometryStore.ray_to_external.
    pose proof (deepcopy_kept ray h) as Hcopy. cbv zeta in Hcopy.
    destruct (GeometryStore.deepcopy ray h) as [r0 h0]. cbn [fst snd] in Hcopy.
    destruct Hcopy as (K0 & Lo & Ld & Ao & Ad).
    pose proof (point_to_external_kept (GeometryStore.next h) self
                  (GeometryStore.rd_origin r0) h0 Lo (proj1 K0)) as K1.
    destruct (GeometryStore.point_to_external self _ h0) as [[lo|e] h1]; cbn [fst snd] in *.
    2:{ split; [reflexivity|]. eapply kept_below_trans; eassumption. }
    cbn [GeometryStore.rd_direction GeometryStore.rd_others GeometryStore.rd_origin].
    pose proof (vector_to_external_kept (GeometryStore.next h) self
                  (GeometryStore.rd_direction r0) h1 Ld) as K2.
    destruct (GeometryStore.vector_to_external self _ h1) as [[ld|e] h2]; cbn [fst snd] in *.
    + split; [reflexivity|].
      eapply kept_below_trans; [|exact K2]. eapply kept_below_trans; eassumption.
    + split; [reflexivity|].
      eapply kept_below_trans; [|exact K2]. eapply kept_below_trans; eassumption.
  - unfold GeometryStore.ray_to_local.
    pose proof (deepcopy_kept ray h) as Hcopy. cbv zeta in Hcopy.
    destruct (GeometryStore.deepcopy ray h) as [r0 h0]. cbn [fst snd] in Hcopy.
    destruct Hcopy as (K0 & Lo & Ld & Ao & Ad).
    pose proof (point_to_local_kept (GeometryStore.next h) self
                  (GeometryStore.rd_origin r0) h0 (proj1 K0)) as K1.
    destruct (GeometryStore.point_to_local self _ h0) as [[lo|e] h1]; cbn [fst snd] in *.
    2:{ split; [reflexivity|]. eapply kept_below_trans; eassumption. }
    cbn [GeometryStore.rd_direction GeometryStore.rd_others GeometryStore.rd_origin].
    pose proof (vector_to_local_kept (GeometryStore.next h) self
                  (GeometryStore.rd_direction r0) h1 Ld) as K2.
    destruct (GeometryStore.vector_to_local self _ h1) as [[ld|e] h2]; cbn [fst snd] in *.
    + split; [reflexivity|].
      eapply kept_below_trans; [|exact K2]. eapply kept_below_trans; eassumption.
    + split; [reflexivity|].
      eapply kept_below_trans; [|exact K2]. eapply kept_below_trans; eassumption.
  - unfold GeometryStore.ray_to_external.
    destruct (GeometryStore.point_to_external self _ h) as [[lo|e] h1]; cbn [fst snd];
      [|discriminate].
    destruct (GeometryStore.vector_to_external self _ h1) as [[ld|e] h2]; cbn [fst snd];
      [|discriminate].
    now intros r [= <-].
  - intros Hrank Hd1 Hd2 Hne.
    destruct (rank_transforms self _ Hrank)
      as (rot & loc & ext & sub & Hrot & _ & Hext & _ & Hpe & _).
    unfold GeometryStore.ray_to_external, GeometryStore.point_to_external,
      GeometryStore.vector_to_external, GeometryStore.to_ndarray.
    rewrite Hrot. store_simpl. rewrite Nat.eqb_refl, Hext. store_simpl.
    cbn [GeometryStore.rd_direction GeometryStore.rd_origin GeometryStore.rd_others].
    store_simpl.
    rewrite (proj2 (Nat.eqb_neq (GeometryStore.rd_direction ray) (GeometryStore.next h)))
      by lia.
    rewrite (proj2 (Nat.eqb_neq _ _) Hne).
    assert (Hbad : vector_to_external self (GeometryStore.cell h (GeometryStore.rd_direction ray))
                   = Err (Exception "vector.ndim must be 1 or 2")).
    { destruct (GeometryStore.cell h (GeometryStore.rd_direction ray)); cbn in Hd1, Hd2;
        try reflexivity; contradiction. }
    rewrite Hbad. store_simpl. rewrite Nat.eqb_refl.
    rewrite (proj2 (Nat.eqb_neq (GeometryStore.rd_direction ray) (GeometryStore.next h)))
      by lia.
    rewrite (proj2 (Nat.eqb_neq _ _) Hne).
    split; [reflexivity|]. split; [reflexivity|]. split; [exact Hpe|reflexivity].
Qed.

End StoreFacts.

Section StoreRoundTrip.
Import GeometryObject.

Local Ltac store_simpl :=
  repeat (unfold GeometryStore.write, GeometryStore.alloc;
          cbn [fst snd GeometryStore.cell GeometryStore.next]).

Lemma roundtrip_arrays (self : GeometryObject.t R) (a : ndarray R) :
  orthonormal (orientation self) ->
  ndim a = 1 \/ ndim a = 2 ->
  exists rot ext,
    vector_to_external self a = Ok rot /\ vector_to_local self rot = Ok a /\
    point_to_external self a = Ok ext /\ point_to_local self ext = Ok a /\
    (ndim rot = 1 \/ ndim rot = 2) /\ (ndim ext = 1 \/ ndim ext = 2).
Proof.
  intros HM Hrank.
  destruct a as [s|v|rows|k b]; cbn in Hrank;
    try (exfalso; destruct Hrank as [Hr|Hr]; discriminate Hr).
  - eexists _, _. split; [reflexivity|]. split.
    { cbn. now rewrite orthonormal_local_external. }
    split; [reflexivity|]. split; [|split; now left].
    cbn. do 2 f_equal. now apply einsum_ji_add_sub.
  - eexists _, _. split; [reflexivity|]. split.
    { cbn. do 2 f_equal. rewrite map_map. apply map_fixed. intros x.
      now apply orthonormal_local_external. }
    split; [reflexivity|]. split; [|split; now right].
    cbn. do 2 f_equal. rewrite !map_map. apply map_fixed. intros x.
    now apply einsum_ji_add_sub.
Qed.

(** X24.  The round trip of a ray dictionary, transformed in place.  In
    exact arithmetic and an orthonormal frame, with the origins and the
    directions in two different arrays of rank 1 or 2,
    [ray_to_external] followed by [ray_to_local] returns the caller's
    dictionary with the contents it started from: the origins in a new
    array, the directions in the array they were in, the other entries
    untouched.  In between, the dictionary holds the origins as
    [point_to_external] and the directions as [vector_to_external]
    transform them. *)
Theorem ray_roundtrip_in_place {E} (self : GeometryObject.t R)
    (ray : GeometryStore.raydict E) (h : @GeometryStore.store R) :
  orthonormal (orientation self) ->
  let o := GeometryStore.cell h (GeometryStore.rd_origin ray) in
  let d := GeometryStore.cell h (GeometryStore.rd_direction ray) in
  GeometryStore.rd_origin ray < GeometryStore.next h ->
  GeometryStore.rd_direction ray < GeometryStore.next h ->
  GeometryStore.rd_direction ray <> GeometryStore.rd_origin ray ->
  ndim o = 1 \/ ndim o = 2 ->
  ndim d = 1 \/ ndim d = 2 ->
  exists ray1 h1 ray2 h2,
    GeometryStore.ray_to_external self ray false h = (Ok ray1, ray1, h1) /\
    point_to_external self o = Ok (GeometryStore.cell h1 (GeometryStore.rd_origin ray1)) /\
    vector_to_external self d = Ok (GeometryStore.cell h1 (GeometryStore.rd_direction ray1)) /\
    GeometryStore.ray_to_local self ray1 false h1 = (Ok ray2, ray2, h2) /\
    GeometryStore.cell h2 (GeometryStore.rd_origin ray2) = o /\
    GeometryStore.cell h2 (GeometryStore.rd_direction ray2) = d /\
    GeometryStore.rd_direction ray2 = GeometryStore.rd_direction ray /\
    GeometryStore.rd_others ray2 = GeometryStore.rd_others ray.
Proof.
  intros HM o d Ho Hd Hne Hro Hrd.
  destruct (roundtrip_arrays self o HM Hro) as (roto & exto & Hroto & _ & Hexto & Hbacko & _ & Hre).
  destruct (roundtrip_arrays self d HM Hrd) as (rotd & extd & Hrotd & Hbackd & _ & _ & Hrr & _).
  destruct ray as [lo ld others].
  cbn [GeometryStore.rd_origin GeometryStore.rd_direction GeometryStore.rd_others] in *.
  assert (Hext : broadcast_origin s_add roto (origin self) = Ok exto).
  { unfold point_to_external in Hexto. rewrite Hroto in Hexto. exact Hexto. }
  assert (Hsub : exists sub, broadcast_origin s_sub exto (origin self) = Ok sub /\
                             vector_to_local self sub = Ok o).
  { unfold point_to_local in Hbacko.
    destruct (broadcast_origin s_sub exto (origin self)) as [sub|]; [|discriminate].
    now exists sub. }
  destruct Hsub as (sub & Hsub & Hloc).
  eexists _, _, _, _.
  split.
  { unfold GeometryStore.ray_to_external, GeometryStore.point_to_external,
      GeometryStore.vector_to_external, GeometryStore.to_ndarray.
    cbn [GeometryStore.rd_origin GeometryStore.rd_direction GeometryStore.rd_others].
    fold o. rewrite Hroto. store_simpl. rewrite ?Nat.eqb_refl. rewrite Hext. store_simpl.
    cbn [GeometryStore.rd_origin GeometryStore.rd_direction GeometryStore.rd_others].
    store_simpl.
    rewrite (proj2 (Nat.eqb_neq ld (GeometryStore.next h))) by lia.
    rewrite (proj2 (Nat.eqb_neq ld lo) Hne). fold d. rewrite Hrotd.
    cbn [GeometryStore.rd_origin GeometryStore.rd_direction GeometryStore.rd_others].
    reflexivity. }
  cbn [GeometryStore.rd_origin GeometryStore.rd_direction GeometryStore.rd_others].
  store_simpl. rewrite ?Nat.eqb_refl.
  rewrite (proj2 (Nat.eqb_neq (GeometryStore.next h) ld)) by lia.
  split; [exact Hexto|]. split; [exact Hrotd|].
  split.
  { unfold GeometryStore.ray_to_local, GeometryStore.point_to_local,
      GeometryStore.vector_to_local, GeometryStore.to_ndarray.
    cbn [GeometryStore.rd_origin GeometryStore.rd_direction GeometryStore.rd_others].
    store_simpl. rewrite ?Nat.eqb_refl.
    rewrite (proj2 (Nat.eqb_neq (GeometryStore.next h) ld)) by lia.
    rewrite Hsub. store_simpl. rewrite ?Nat.eqb_refl. rewrite Hloc. store_simpl.
    cbn [GeometryStore.rd_origin GeometryStore.rd_direction GeometryStore.rd_others].
    store_simpl.
    rewrite (proj2 (Nat.eqb_neq ld (S (GeometryStore.next h)))) by lia.
    rewrite ?Nat.eqb_refl. rewrite Hbackd.
    cbn [GeometryStore.rd_origin GeometryStore.rd_direction GeometryStore.rd_others].
    reflexivity. }
  cbn [GeometryStore.rd_origin GeometryStore.rd_direction GeometryStore.rd_others].
  store_simpl. rewrite ?Nat.eqb_refl.
  rewrite (proj2 (Nat.eqb_neq (S (GeometryStore.next h)) ld)) by lia.
  repeat split; reflexivity.
Qed.

End StoreRoundTrip.

(** * The source: origins, directions and the fresh batch *)

Section SourceFacts.
Context {G : Type} `{Random R G}.
Import GeometryObject XicsrtSourceGeneric.

Lemma broadcast2_same {A B C} (op : A -> B -> C) (a : list A) (b : list B) :
  length a = length b -> broadcast2 op a b = Ok (zip_with op a b).
Proof. intros Hl. unfold broadcast2. now rewrite Hl, Nat.eqb_refl. Qed.

(** An origin built from the offsets [(w, h, d)] has these as its local
    coordinates. *)
Lemma offsets_local (M : mat3 R) (o : vec3 R) (w h d : R) :
  orthonormal M ->
  einsum_ji_i_j M
    (vsub (vadd (vadd (vadd o (vscale w (row0 M))) (vscale h (row1 M)))
                (vscale d (row2 M))) o)
  = V3 w h d.
Proof.
  unfold orthonormal. intros (H00 & H11 & H22 & H01 & H02 & H12 & _).
  destruct M as [[x0 x1 x2] [y0 y1 y2] [z0 z1 z2]], o as [o0 o1 o2].
  cbv [einsum_ji_i_j build3 sum3 mget vget dot vadd vsub vscale vx vy vz row0 row1 row2] in *.
  cbn [s_add s_mul s_sub real_scalar] in *. f_equal; nsatz.
Qed.

(** X26.  The origins a source generates, seen from its own frame.  When
    the three draws of [np.random.uniform] have one entry per ray,
    [generate_origin] returns one origin per ray; in exact arithmetic and
    an orthonormal frame the local coordinates of each origin, as
    [point_to_local] computes them, are the three offsets drawn for it,
    along x from the width, along y from the height and along z from the
    depth. *)
Theorem generate_origin_local_offsets (self : GeometryObject.t R)
    (param : @SourceParam R) (g : G) :
  orthonormal (orientation self) ->
  let n := intensity param in
  let draw_w :=
    random_uniform (- s_one * width param / two)%sc (width param / two)%sc n g in
  let draw_h :=
    random_uniform (- s_one * height param / two)%sc (height param / two)%sc n draw_w.2 in
  let draw_d :=
    random_uniform (- s_one * depth param / two)%sc (depth param / two)%sc n draw_h.2 in
  length draw_w.1 = n -> length draw_h.1 = n -> length draw_d.1 = n ->
  exists origin,
    generate_origin self param g = (Ok origin, draw_d.2) /\
    length origin = n /\
    forall i w h d,
      draw_w.1 !! i = Some w -> draw_h.1 !! i = Some h -> draw_d.1 !! i = Some d ->
      exists p, origin !! i = Some p /\
                point_to_local self (Arr1 p) = Ok (Arr1 (V3 w h d)).
Proof.
  intros HM n draw_w draw_h draw_d Lw Lh Ld.
  unfold generate_origin.
  fold n. fold draw_w. destruct draw_w as [ws g1] eqn:Ew. cbn [fst snd] in *.
  fold draw_h. destruct draw_h as [hs g2] eqn:Eh. cbn [fst snd] in *.
  fold draw_d. destruct draw_d as [ds g3] eqn:Ed. cbn [fst snd] in *.
  unfold outer.
  rewrite broadcast2_same by (rewrite !length_map; lia). cbn [rbind].
  rewrite broadcast2_same by (rewrite length_zip_with, !length_map; lia).
  eexists. split; [reflexivity|]. split.
  { rewrite !length_zip_with, !length_map. lia. }
  intros i w h d Hw Hh Hd.
  eexists. split.
  { rewrite !lookup_zip_with, !list_lookup_fmap, Hw, Hh, Hd. reflexivity. }
  unfold point_to_local. cbn [broadcast_origin rbind vector_to_local vx vy vz].
  do 2 f_equal. exact (offsets_local (orientation self) (origin self) w h d HM).
Qed.

Lemma dot_vdiv_l (N w : vec3 R) (c : R) :
  c <> 0%R -> dot (vdiv N c) w = (dot N w / c)%R.
Proof.
  intros Hc. destruct N as [n0 n1 n2], w as [w0 w1 w2].
  cbv [vdiv dot sum3 vget vx vy vz]. cbn [s_add s_mul s_div real_scalar].
  field. exact Hc.
Qed.

Lemma dot_vdiv_r (N w : vec3 R) (c : R) :
  c <> 0%R -> dot w (vdiv N c) = (dot w N / c)%R.
Proof.
  intros Hc. destruct N as [n0 n1 n2], w as [w0 w1 w2].
  cbv [vdiv dot sum3 vget vx vy vz]. cbn [s_add s_mul s_div real_scalar].
  field. exact Hc.
Qed.

Lemma vdiv_norm_unit (N : vec3 R) :
  N <> vzero -> dot (vdiv N (norm N)) (vdiv N (norm N)) = 1%R.
Proof.
  intros HN. pose proof (norm_nonzero N HN) as Hnz.
  rewrite dot_vdiv_l, dot_vdiv_r by exact Hnz.
  rewrite <- (norm_square N). field. exact Hnz.
Qed.

Lemma vdiv_one (v : vec3 R) : vdiv v 1%R = v.
Proof.
  destruct v as [x y z]. unfold vdiv. cbn [vx vy vz s_div real_scalar].
  f_equal; field.
Qed.

Lemma assign_rows_replicate {A} (n : nat) (x : A) :
  assign_rows n (replicate n x) = Ok (replicate n x).
Proof. unfold assign_rows. now rewrite length_replicate, Nat.eqb_refl. Qed.

(** The basis [random_direction] builds around a unit normal that is not
    parallel to (0, 1, 1). *)
Lemma direction_basis (nh : vec3 R) :
  dot nh nh = 1%R ->
  (vx nh <> 0%R \/ vy nh <> vz nh) ->
  let o1 := vadd (cross nh (V3 0 0 1)%R) (cross nh (V3 0 1 0)%R) in
  let o1h := vdiv o1 (norm o1) in
  let o2 := cross nh o1h in
  let o2h := vdiv o2 (norm o2) in
  orthonormal (M3 o1h o2h nh).
Proof.
  intros Hn Hnp. cbv zeta.
  set (o1 := vadd (cross nh (V3 0 0 1)%R) (cross nh (V3 0 1 0)%R)).
  assert (Ho1 : o1 <> vzero).
  { subst o1. destruct nh as [a b c]. cbn [vx vy vz] in Hnp.
    cbv [vadd cross vzero vx vy vz]. cbn [s_add s_sub s_mul s_zero real_scalar].
    intros [= E0 E1 E2]. destruct Hnp as [Ha|Hb]; [apply Ha|apply Hb]; lra. }
  assert (Ho1n : dot o1 nh = 0%R).
  { subst o1. destruct nh as [a b c].
    cbv [vadd cross dot sum3 vget vx vy vz]. cbn [s_add s_sub s_mul real_scalar]. ring. }
  set (o1h := vdiv o1 (norm o1)).
  assert (Hu : dot o1h o1h = 1%R) by now apply vdiv_norm_unit.
  assert (Hp : dot o1h nh = 0%R).
  { unfold o1h. rewrite dot_vdiv_l by now apply norm_nonzero.
    rewrite Ho1n. unfold Rdiv. ring. }
  pose proof (axes_orthonormal nh o1h Hn Hu Hp) as Horth.
  assert (H1 : norm (cross nh o1h) = 1%R).
  { destruct Horth as (_ & Hy & _). cbn [row1] in Hy.
    unfold norm. rewrite Hy. cbn [s_sqrt real_scalar]. apply sqrt_1. }
  rewrite H1, vdiv_one. exact Horth.
Qed.

(** X27.  The directions a source generates lie around its z-axis as the
    local samples lie around (0, 0, 1).  For a z-axis that is not zero and
    not parallel to (0, 1, 1), and one sample of [vector_dist_uniform] per
    ray, [generate_direction] returns one direction per ray; in exact
    arithmetic each direction has the length of its sample, and its
    component along the normalised z-axis is the z component of the
    sample. *)
Theorem generate_direction_cone (param : @SourceParam R) (origin : list (vec3 R)) (g : G) :
  let z := zaxis param in
  let n := intensity param in
  let draw := vector_dist_uniform (spread param) n g in
  z <> vzero ->
  (vx z <> 0%R \/ vy z <> vz z) ->
  length draw.1 = n ->
  exists direction,
    generate_direction param origin g = (Ok direction, draw.2) /\
    length direction = n /\
    forall i v, draw.1 !! i = Some v ->
      exists dv, direction !! i = Some dv /\
                 dot dv dv = dot v v /\
                 dot dv (vdiv z (norm z)) = vz v.
Proof.
  intros z n draw Hz Hnp Ldraw.
  set (nh := vdiv z (norm z)).
  pose proof (norm_nonzero z Hz) as Hnz.
  assert (Hnpos : (0 < norm z)%R).
  { unfold norm. cbn [s_sqrt real_scalar]. apply sqrt_lt_R0. now apply dot_self_pos. }
  assert (Hunit : dot nh nh = 1%R) by now apply vdiv_norm_unit.
  assert (Hnp' : vx nh <> 0%R \/ vy nh <> vz nh).
  { unfold nh. destruct z as [a b c]. cbn [vdiv vx vy vz s_div real_scalar] in *.
    destruct Hnp as [Ha|Hb].
    - left. intros E. apply Ha.
      apply (Rmult_eq_compat_r (norm (V3 a b c))) in E.
      unfold Rdiv in E. rewrite Rmult_assoc, Rinv_l, Rmult_1_r, Rmult_0_l in E by exact Hnz.
      exact E.
    - right. intros E. apply Hb.
      apply (Rmult_eq_compat_r (norm (V3 a b c))) in E.
      unfold Rdiv in E. rewrite !Rmult_assoc, Rinv_l, !Rmult_1_r in E by exact Hnz.
      exact E. }
  pose proof (direction_basis nh Hunit Hnp') as Horth. cbv zeta in Horth.
  set (o1 := vadd (cross nh (V3 0 0 1)%R) (cross nh (V3 0 1 0)%R)) in *.
  set (o1h := vdiv o1 (norm o1)) in *.
  set (o2h := vdiv (cross nh o1h) (norm (cross nh o1h))) in *.
  set (M := M3 o1h o2h nh) in *.
  unfold generate_direction, random_direction, make_normal.
  fold z n draw. destruct draw as [dir_local g1] eqn:Edraw. cbn [fst snd] in *.
  rewrite !fmap_replicate. fold nh.
  cbn [s_zero s_one real_scalar]. fold o1. fold o1h.
  rewrite assign_rows_replicate. cbn [rbind].
  rewrite zip_with_replicate, fmap_replicate. fold o2h.
  rewrite assign_rows_replicate. cbn [rbind].
  rewrite assign_rows_replicate. cbn [rbind].
  rewrite !zip_with_replicate. cbn [fst snd]. fold M.
  rewrite broadcast2_same by (rewrite length_replicate; lia).
  eexists. split; [reflexivity|]. split.
  { rewrite length_zip_with, length_replicate. lia. }
  intros i v Hv. exists (einsum_ij_i_j M v). split.
  { rewrite lookup_zip_with, Hv. cbn.
    rewrite lookup_replicate_2; [reflexivity|]. apply lookup_lt_Some in Hv. lia. }
  split; [now apply external_dot|].
  assert (Hez : einsum_ij_i_j M (V3 0 0 1)%R = nh).
  { unfold M. destruct o1h as [a0 a1 a2], o2h as [b0 b1 b2], nh as [c0 c1 c2].
    cbv [einsum_ij_i_j build3 sum3 mget vget vx vy vz row0 row1 row2].
    cbn [s_add s_mul real_scalar]. f_equal; ring. }
  rewrite <- Hez, external_dot by exact Horth.
  destruct v as [v0 v1 v2]. cbv [dot sum3 vget vx vy vz]. cbn [s_add s_mul real_scalar]. ring.
Qed.

End SourceFacts.

Section FreshBatch.
Context {T : Type} `{Scalar T} {G : Type} `{Random T G}.
Import GeometryObject XicsrtSourceGeneric XicsrtOpticMesh.





End FreshBatch.

Section DegenerateAxis.
Context {G : Type} `{Random float G}.
Import GeometryObject XicsrtSourceGeneric.

Lemma mul_nan_l (x y : float) :
  Prim2SF x = S754_nan -> Prim2SF (x * y)%float = S754_nan.
Proof. intros Hx. rewrite FloatAxioms.mul_spec. unfold SF64mul. now rewrite Hx. Qed.

Lemma add_nan_l (x y : float) :
  Prim2SF x = S754_nan -> Prim2SF (x + y)%float = S754_nan.
Proof. intros Hx. rewrite FloatAxioms.add_spec. unfold SF64add. now rewrite Hx. Qed.

Lemma is_nan_spec (x : float) : Prim2SF x = S754_nan -> PrimFloat.is_nan x = true.
Proof. intros Hx. unfold PrimFloat.is_nan. rewrite FloatAxioms.eqb_spec, Hx. reflexivity. Qed.

(** A column of the basis whose first entry is not a number makes the
    whole component of the direction not a number. *)
Lemma einsum_nan_row (M : mat3 float) (v : vec3 float) :
  Prim2SF (vx (row0 M)) = S754_nan ->
  Prim2SF (vy (row0 M)) = S754_nan ->
  Prim2SF (vz (row0 M)) = S754_nan ->
  let dv := einsum_ij_i_j M v in
  PrimFloat.is_nan (vx dv) = true /\ PrimFloat.is_nan (vy dv) = true /\
  PrimFloat.is_nan (vz dv) = true.
Proof.
  intros Hx Hy Hz. cbv zeta.
  destruct M as [[a0 a1 a2] r1 r2]. cbn [row0 vx vy vz] in Hx, Hy, Hz.
  cbv [einsum_ij_i_j build3 sum3 mget vget vx vy vz row0 row1 row2].
  cbn [s_add s_mul float_scalar].
  repeat split; apply is_nan_spec; apply add_nan_l, add_nan_l, mul_nan_l; assumption.
Qed.

(** X29.  The z-axis (0, 1, 1) breaks the source.  For that axis the
    first basis vector [random_direction] builds is the zero vector
    divided by its norm; in binary64 every component of every direction
    [generate_direction] then returns is not a number, whatever local
    samples were drawn. *)
Theorem generate_direction_degenerate (param : @SourceParam float)
    (origin : list (vec3 float)) (g : G) :
  zaxis param = (V3 0 1 1)%float ->
  let draw := vector_dist_uniform (spread param) (intensity param) g in
  length draw.1 = intensity param ->
  exists direction,
    generate_direction param origin g = (Ok direction, draw.2) /\
    length direction = intensity param /\
    forall i dv, direction !! i = Some dv ->
      PrimFloat.is_nan (vx dv) = true /\ PrimFloat.is_nan (vy dv) = true /\
      PrimFloat.is_nan (vz dv) = true.
Proof.
  intros Hz draw Ld. unfold generate_direction, random_direction, make_normal.
  fold draw. destruct draw as [dir_local g1]. cbn [fst snd] in *.
  rewrite Hz, !fmap_replicate.
  rewrite assign_rows_replicate. cbn [rbind].
  rewrite zip_with_replicate, fmap_replicate.
  rewrite assign_rows_replicate. cbn [rbind].
  rewrite assign_rows_replicate. cbn [rbind].
  rewrite !zip_with_replicate.
  rewrite broadcast2_same by (rewrite length_replicate; lia).
  eexists. split; [reflexivity|]. split.
  { rewrite length_zip_with, length_replicate. lia. }
  intros i dv Hdv.
  apply lookup_zip_with_Some in Hdv as (v & M & -> & _ & HM).
  apply lookup_replicate in HM as [HM _]. subst M.
  apply einsum_nan_row; vm_compute; reflexivity.
Qed.

End DegenerateAxis.

Section RefineTouch.
Context {T : Type} `{Scalar T}.
Import XicsrtOpticMesh.

(** X30.  The refinement only reports faces around the nearest vertex.
    On a mesh whose adjacency tables are those [find_point_faces] builds,
    let [find_near_faces] look up the candidates for the approximate hit
    points [X_c] and let the candidate-restricted test run on them.  Then
    every ray the test leaves active has a recorded face, and that face
    has as a corner the vertex the tree returned for the approximate hit
    point of the ray. *)
Theorem refinement_hits_touch_nearest_vertex (rays rays' : RayBatch T) (mesh : Mesh T)
    (X_c X : list (vec3 T)) (faces_idx : list (list nat)) (faces_mask : list (list bool))
    (hits : list (option nat)) :
  find_point_faces (seq 0 (length (mesh_points mesh))) (mesh_faces mesh) None
  = Ok (p_faces_idx mesh, p_faces_mask mesh) ->
  rays_wf rays ->
  length X_c = length (rays_mask rays) ->
  find_near_faces X_c mesh = Ok (faces_idx, faces_mask) ->
  mesh_intersect_2 rays mesh faces_idx faces_mask = (Ok (X, hits), rays') ->
  forall j x_c,
    X_c !! j = Some x_c ->
    rays_mask rays' !! j = Some true ->
    exists face f,
      hits !! j = Some (Some face) /\
      mesh_faces mesh !! face = Some f /\
      face_has f (points_tree mesh x_c).
Proof.
  intros Htab Hwf HXc Hnear Hrun j x_c Hxc Hact.
  destruct (adjacency_columns _ _ _ Htab) as (Hl1 & Hl2 & Hcols). cbn [fst snd] in *.
  (* the candidate columns are table columns *)
  unfold find_near_faces in Hnear.
  destruct (take (p_faces_idx mesh) _) as [fi|] eqn:Efi; cbn [rbind] in Hnear; [|discriminate].
  destruct (take (p_faces_mask mesh) _) as [fm|] eqn:Efm; cbn [rbind] in Hnear; [|discriminate].
  injection Hnear as <- <-.
  pose proof (take_length _ _ _ Efi) as Lfi. pose proof (take_length _ _ _ Efm) as Lfm.
  rewrite length_map in Lfi, Lfm.
  assert (Hcol : forall i xi, X_c !! i = Some xi ->
            exists col valid,
              fi !! i = Some col /\ fm !! i = Some valid /\
              length col = 8 /\ length valid = 8 /\
              forall k face, col !! k = Some face -> valid !! k = Some true ->
                exists f, mesh_faces mesh !! face = Some f /\
                          face_has f (points_tree mesh xi)).
  { intros i xi Hxi.
    assert (Hidx : map (points_tree mesh) X_c !! i = Some (points_tree mesh xi)).
    { now rewrite list_lookup_fmap, Hxi. }
    destruct (take_lookup _ _ _ i _ Efi Hidx) as [Hci Hv].
    destruct (take_lookup _ _ _ i _ Efm Hidx) as [Hcm _].
    rewrite Hl1 in Hv.
    destruct (Hcols _ Hv) as (col & valid & Hc & Hm & Lc & Lm & Hhas & _).
    exists col, valid. rewrite Hci, Hcm. now repeat split. }
  assert (Hcwf : candidates_wf rays 8 fi fm).
  { unfold candidates_wf. split; [exact Hwf|]. split; [lia|]. split; [lia|].
    split; [lia|]. split; apply Forall_forall; intros c Hc;
      apply list_elem_of_In, in_lookup in Hc as [i Hi].
    - destruct (lookup_lt_is_Some_2 X_c i) as [xi Hxi];
        [apply lookup_lt_Some in Hi; lia|].
      destruct (Hcol i xi Hxi) as (col & valid & Hc & _ & Lc & _). congruence.
    - destruct (lookup_lt_is_Some_2 X_c i) as [xi Hxi];
        [apply lookup_lt_Some in Hi; lia|].
      destruct (Hcol i xi Hxi) as (col & valid & _ & Hm & _ & Lm & _). congruence. }
  destruct (map_res (map_res (gather_candidate mesh)) fi) as [cands|e] eqn:Hg.
  2:{ rewrite (intersect_2_gather_err rays mesh fi fm e Hg) in Hrun. discriminate Hrun. }
  destruct (intersect_2_per_ray rays mesh 8 fi fm cands Hcwf Hg)
    as (X2 & hits2 & m' & Hrun2 & _ & _ & Hlen & Hrays).
  rewrite Hrun in Hrun2. injection Hrun2 as <- <- ->.
  cbn [rays_mask set_mask] in Hact.
  destruct (Hcol j x_c Hxc) as (col & valid & Hci & Hcm & Lc & Lm & Hhas).
  pose proof (lookup_lt_Some _ _ _ Hact) as Hj. rewrite Hlen in Hj.
  destruct Hwf as [HO HD].
  destruct (lookup_lt_is_Some_2 (rays_origin rays) j) as [o Ho]; [lia|].
  destruct (lookup_lt_is_Some_2 (rays_direction rays) j) as [d Hd]; [lia|].
  destruct (lookup_lt_is_Some_2 (rays_mask rays) j Hj) as [a Ha].
  destruct (lookup_lt_is_Some_2 cands j) as [cc Hcc].
  { rewrite (map_res_length _ _ _ Hg). lia. }
  destruct (Hrays j o d a col valid cc Ho Hd Ha Hci Hcm Hcc)
    as (Lt & _ & _ & Hm & Hhits & _).
  rewrite Hact in Hm. injection Hm as Hm. symmetry in Hm.
  rewrite Hm in Hhits. apply andb_true_iff in Hm as [_ Hany].
  destruct (first_true_spec _ Hany) as [Hat _].
  set (i := first_true (cand_tests o d cc valid)) in *.
  assert (Hi : i < 8) by (apply lookup_lt_Some in Hat; lia).
  unfold cand_tests in Hat. rewrite lookup_zip_with in Hat.
  destruct (map (cand_inside o d) cc !! i) as [b|]; [|discriminate Hat]. cbn in Hat.
  destruct (valid !! i) as [v|] eqn:Hv; [|discriminate Hat]. cbn in Hat.
  injection Hat as Hat. apply andb_true_iff in Hat as [_ ->].
  destruct (lookup_lt_is_Some_2 col i) as [face Hface]; [lia|].
  destruct (Hhas i face Hface Hv) as (f & Hf & Hv').
  exists face, f. split; [|now split].
  rewrite Hhits. do 2 f_equal. now apply nth_lookup_Some with (d := 0) in Hface.
Qed.

End RefineTouch.

(** * The theorems above at concrete inputs *)

Section Examples.
Import XicsrtOpticMesh XicsrtOpticMeshSetup GeometryObject.

Lemma epsilon_small : (@epsilon R _ < 1)%R.
Proof.
  unfold epsilon. cbn [s_1em15 real_scalar].
  lra.
Qed.

Lemma triangle_exact_triangles : mesh_triangles triangle_mesh_exact = Ok [triangle_exact].
Proof. reflexivity. Defined.

Lemma ray_inside_exact_wf : rays_wf ray_inside_exact.
Proof. split; reflexivity. Defined.

Lemma ray_inside_exact_shape : mask_shape_ok (rays_mask ray_inside_exact).
Proof. left. reflexivity. Defined.

Lemma triangle_exact_accepts :
  accepts (V3 (1/5) (1/5) 1)%R (V3 0 0 (-1))%R triangle_exact = true.
Proof.
  pose proof epsilon_pos as He. pose proof epsilon_small as He1.
  unfold accepts, accepts_h, near_parallel, u_outside, v_outside,
    mt_u, mt_v, mt_f, mt_h, mt_q, mt_s, mt_edge1, mt_edge2, triangle_exact.
  cbn [t_p0 t_p1 t_p2]. cbv [vsub cross dot sum3 vget vx vy vz].
  set (e := @epsilon R _) in *. clearbody e.
  cbn [s_add s_sub s_mul s_div s_opp s_one s_zero s_ltb real_scalar].
  rewrite !andb_true_iff, !negb_true_iff, andb_false_iff, !orb_false_iff, !Rltb_false.
  repeat split; lra.
Qed.

Lemma exhaustive_hits_inside_faces_witness :
  exists X hits rays' k tri P u v,
    mesh_intersect_1 ray_inside_exact triangle_mesh_exact = (Ok (X, hits), rays') /\
    rays_mask rays' !! 0 = Some true /\
    hits !! 0 = Some (Some k) /\ X !! 0 = Some P /\
    P = vadd (t_p0 tri) (vadd (vscale u (mt_edge1 tri)) (vscale v (mt_edge2 tri))) /\
    (0 <= u)%R /\ (0 <= v)%R /\ (u + v <= 1)%R.
Proof.
  destruct (intersect_1_per_ray ray_inside_exact triangle_mesh_exact [triangle_exact]
              ray_inside_exact_wf triangle_exact_triangles ray_inside_exact_shape)
    as (X & hits & m' & Hrun & _ & _ & _ & Hrays).
  destruct (Hrays 0 (V3 (1/5) (1/5) 1)%R (V3 0 0 (-1))%R true eq_refl eq_refl eq_refl)
    as [Hm _].
  cbn [existsb] in Hm. rewrite triangle_exact_accepts in Hm. cbn [andb orb] in Hm.
  destruct (exhaustive_hits_inside_faces ray_inside_exact (set_mask ray_inside_exact m')
              triangle_mesh_exact X hits ray_inside_exact_wf Hrun) as (tris & _ & Hall).
  destruct (Hall 0 (V3 (1/5) (1/5) 1)%R (V3 0 0 (-1))%R eq_refl eq_refl Hm)
    as (k & tri & P & u & v & t & Hhit & _ & HX & _ & _ & HP & Hu & Hv & Huv).
  exists X, hits, (set_mask ray_inside_exact m'), k, tri, P, u, v.
  split; [exact Hrun|]. split; [exact Hm|]. split; [exact Hhit|]. split; [exact HX|].
  split; [exact HP|]. split; [exact Hu|]. split; [exact Hv|exact Huv].
Defined.

Lemma parallel_ray_rejected_witness :
  accepts (V3 (1/5) (1/5) 1)%R (V3 1 0 0)%R triangle_exact = false.
Proof.
  apply (parallel_ray_rejected (V3 (1/5) (1/5) 1)%R (V3 1 0 0)%R triangle_exact).
  unfold triangle_exact, mt_edge1, mt_edge2. cbn [t_p0 t_p1 t_p2].
  cbv [vsub cross dot sum3 vget vx vy vz]. cbn [s_add s_sub s_mul real_scalar]. ring.
Defined.

Lemma candidates_exact_wf :
  candidates_wf ray_inside_exact 8 [vertex0_faces] [vertex0_valid].
Proof.
  unfold candidates_wf. split; [exact ray_inside_exact_wf|].
  split; [reflexivity|]. split; [reflexivity|]. split; [lia|].
  split; repeat constructor.
Defined.

Lemma candidate_hits_ahead_on_plane_witness :
  exists X hits m',
    mesh_intersect_2 ray_inside_exact triangle_mesh_exact [vertex0_faces] [vertex0_valid]
    = (Ok (X, hits), set_mask ray_inside_exact m') /\
    forall ci, [vertex0_faces] !! 0 = Some ci -> m' !! 0 = Some true ->
      exists face c P,
        In face ci /\ gather_candidate triangle_mesh_exact face = Ok c /\
        hits !! 0 = Some (Some face) /\ X !! 0 = Some P /\
        (0 <= cand_dist (V3 (1/5) (1/5) 1)%R (V3 0 0 (-1))%R c)%R.
Proof.
  destruct (candidate_hits_ahead_on_plane ray_inside_exact triangle_mesh_exact 8
              [vertex0_faces] [vertex0_valid] [replicate 8 candidate_exact]
              candidates_exact_wf eq_refl) as (X & hits & m' & Hrun & Hall).
  exists X, hits, m'. split; [exact Hrun|].
  intros ci Hci Hm.
  destruct (Hall 0 (V3 (1/5) (1/5) 1)%R (V3 0 0 (-1))%R ci eq_refl eq_refl Hci Hm)
    as (face & c & P & Hin & Hg & Hh & HX & _ & Hd & _).
  exists face, c, P. repeat (split; [assumption|]). exact Hd.
Defined.

Lemma area_test_accepts_face_points_witness :
  cand_diff (V3 (1/5) (1/5) 1)%R (V3 0 0 (-1))%R candidate_exact = 0%R.
Proof.
  apply (area_test_accepts_face_points (V3 (1/5) (1/5) 1)%R (V3 0 0 (-1))%R candidate_exact
           (3/5)%R (1/5)%R (1/5)%R); try lra.
  unfold cand_intersect, cand_dist, vscale_r, candidate_exact. cbn [c_p0 c_p1 c_p2 c_n].
  cbv [vadd vscale vsub dot sum3 vget vx vy vz].
  cbn [s_add s_sub s_mul s_div real_scalar]. f_equal; field.
Defined.

Lemma adjacency_invariant_witness :
  exists tbl,
    find_point_faces (seq 0 3) [(0, 1, 2)] None = Ok tbl /\
    length tbl.1 = 3 /\ length tbl.2 = 3.
Proof.
  eexists. split; [reflexivity|].
  destruct (adjacency_invariant 3 [(0, 1, 2)] _ eq_refl) as (H1 & H2 & _).
  split; [exact H1|exact H2].
Defined.

Lemma mesh_precalc_wellformed_witness :
  mesh_tables_wf triangle_mesh 8 /\
  length (p_faces_idx triangle_mesh) = 3.
Proof.
  destruct (mesh_precalc_wellformed false triangle_points None [(0, 1, 2)] triangle_mesh)
    as (Hwf & Hlen & _).
  - vm_compute. reflexivity.
  - discriminate.
  - intros x. apply (nearest_point_bound triangle_points x). discriminate.
  - split; [exact Hwf|exact Hlen].
Defined.

Lemma face_normals_unit_witness :
  exists mesh n,
    @_mesh_precalc R _ first_point_scipy false [V3 0 0 0; V3 1 0 0; V3 0 1 0]%R None
      [(0, 1, 2)] = Ok mesh /\
    faces_normal mesh !! 0 = Some n /\ dot n n = 1%R.
Proof.
  eexists. 
  destruct (@face_normals_unit first_point_scipy false [V3 0 0 0; V3 1 0 0; V3 0 1 0]%R None
              [(0, 1, 2)] _ eq_refl 0 (0, 1, 2) eq_refl)
    as (p0 & p1 & p2 & n & H0 & H1 & H2 & Hn & _ & Hunit).
  exists n. split; [reflexivity|]. split; [exact Hn|].
  cbn in H0, H1, H2. injection H0 as <-. injection H1 as <-. injection H2 as <-.
  apply Hunit.
  cbv [vsub cross vzero vx vy vz]. cbn [s_sub s_mul s_zero real_scalar].
  intros [= _ _ E]. lra.
Defined.


End Examples.

Section Examples2.
Import GeometryObject XicsrtSourceGeneric XicsrtOpticMesh.

Lemma transform_side_effects_witness :
  let out := GeometryStore.point_to_external frame_quarter_turn_f (GeometryStore.ByRef 0)
               two_arrays in
  out.1 = Ok 2 /\
  GeometryStore.cell out.2 2 = Arr2 [V3 (-1) 3 6; V3 1 2 4]%float /\
  GeometryStore.cell out.2 0 = Arr2 [V3 (-2) 1 3; V3 0 0 1]%float.
Proof.
  cbv zeta.
  destruct (transform_side_effects frame_quarter_turn_f two_arrays 0)
    as (rot & ext & loc & Hrot & Hext & _ & _ & (Hr & Hnew & Hold & _) & _).
  - cbn. lia.
  - right. reflexivity.
  - split; [exact Hr|]. split.
    + transitivity ext; [exact Hnew|].
      vm_compute in Hext. now injection Hext as <-.
    + transitivity rot; [exact Hold|].
      vm_compute in Hrot. now injection Hrot as <-.
Defined.

Lemma ray_transform_copy_witness :
  let out := GeometryStore.ray_to_external frame_quarter_turn_f ray_dict true two_arrays in
  out.1.2 = ray_dict /\
  GeometryStore.cell out.2 0 = GeometryStore.cell two_arrays 0 /\
  GeometryStore.cell out.2 1 = GeometryStore.cell two_arrays 1.
Proof.
  cbv zeta.
  destruct (ray_transform_copy frame_quarter_turn_f ray_dict two_arrays)
    as ((Hcaller & _ & Hkept) & _).
  - cbn. lia.
  - cbn. lia.
  - split; [exact Hcaller|]. split; apply Hkept; cbn; lia.
Defined.

Lemma ray_roundtrip_in_place_witness :
  exists ray1 h1 ray2 h2,
    GeometryStore.ray_to_external frame_quarter_turn ray_dict false two_arrays_exact
    = (Ok ray1, ray1, h1) /\
    GeometryStore.ray_to_local frame_quarter_turn ray1 false h1 = (Ok ray2, ray2, h2) /\
    GeometryStore.cell h2 (GeometryStore.rd_origin ray2) = Arr2 [V3 1 2 3; V3 0 0 1]%R /\
    GeometryStore.cell h2 (GeometryStore.rd_direction ray2) = Arr2 [V3 0 0 (-1); V3 0 1 0]%R.
Proof.
  destruct (ray_roundtrip_in_place frame_quarter_turn ray_dict two_arrays_exact
              frame_quarter_turn_orthonormal)
    as (ray1 & h1 & ray2 & h2 & Hext & _ & _ & Hloc & Ho & Hd & _).
  - cbn. lia.
  - cbn. lia.
  - cbn. lia.
  - right. reflexivity.
  - right. reflexivity.
  - exists ray1, h1, ray2, h2. split; [exact Hext|]. split; [exact Hloc|].
    split; [exact Ho|exact Hd].
Defined.

Lemma generate_origin_local_offsets_witness :
  exists origin,
    @generate_origin R _ unit midpoint_random frame_quarter_turn source_exact tt
    = (Ok origin, tt) /\
    length origin = 3.
Proof.
  destruct (@generate_origin_local_offsets unit midpoint_random frame_quarter_turn
              source_exact tt frame_quarter_turn_orthonormal)
    as (origin & Hrun & Hlen & _).
  - apply length_replicate.
  - apply length_replicate.
  - apply length_replicate.
  - exists origin. split; [exact Hrun|exact Hlen].
Defined.

Lemma generate_direction_cone_witness :
  exists direction,
    @generate_direction R _ unit midpoint_random source_exact [] tt = (Ok direction, tt) /\
    length direction = 3 /\
    exists dv, direction !! 0 = Some dv /\ dot dv dv = dot (V3 0 0 1)%R (V3 0 0 1)%R.
Proof.
  destruct (@generate_direction_cone unit midpoint_random source_exact [] tt)
    as (direction & Hrun & Hlen & Hrows).
  - cbn. intros Hc. injection Hc. intros. lra.
  - right. cbn. lra.
  - apply length_replicate.
  - exists direction. split; [exact Hrun|]. split; [exact Hlen|].
    destruct (Hrows 0 (V3 0 0 1)%R eq_refl) as (dv & Hdv & Hnorm & _).
    exists dv. split; [exact Hdv|exact Hnorm].
Defined.


Lemma generate_direction_degenerate_witness :
  exists direction dv,
    @generate_direction float _ unit midpoint_random_f source_diagonal [] tt
    = (Ok direction, tt) /\
    direction !! 0 = Some dv /\ PrimFloat.is_nan (vx dv) = true.
Proof.
  destruct (@generate_direction_degenerate unit midpoint_random_f source_diagonal [] tt
              eq_refl) as (direction & Hrun & Hlen & Hnan).
  - apply length_replicate.
  - destruct (lookup_lt_is_Some_2 direction 0) as [dv Hdv]; [rewrite Hlen; cbn; lia|].
    exists direction, dv. split; [exact Hrun|]. split; [exact Hdv|].
    exact (proj1 (Hnan 0 dv Hdv)).
Defined.

End Examples2.

Section Examples3.
Import XicsrtOpticMesh.

Lemma refinement_hits_touch_nearest_vertex_witness :
  exists face f,
    find_near_faces [V3 0.2 0.2 0]%float triangle_mesh = Ok ([vertex0_faces], [vertex0_valid]) /\
    mesh_intersect_2 ray_inside triangle_mesh [vertex0_faces] [vertex0_valid]
    = (Ok ([V3 0.2 0.2 0]%float, [Some 0]), set_mask ray_inside [true]) /\
    mesh_faces triangle_mesh !! face = Some f /\
    face_has f (points_tree triangle_mesh (V3 0.2 0.2 0)%float).
Proof.
  assert (Hnear : find_near_faces [V3 0.2 0.2 0]%float triangle_mesh
                  = Ok ([vertex0_faces], [vertex0_valid])) by (vm_compute; reflexivity).
  assert (Hrun : mesh_intersect_2 ray_inside triangle_mesh [vertex0_faces] [vertex0_valid]
                 = (Ok ([V3 0.2 0.2 0]%float, [Some 0]), set_mask ray_inside [true]))
    by (vm_compute; reflexivity).
  destruct (refinement_hits_touch_nearest_vertex ray_inside (set_mask ray_inside [true])
              triangle_mesh [V3 0.2 0.2 0]%float [V3 0.2 0.2 0]%float
              [vertex0_faces] [vertex0_valid] [Some 0])
    with (j := 0) (x_c := (V3 0.2 0.2 0)%float) as (face & f & _ & Hf & Hhas).
  - vm_compute. reflexivity.
  - split; reflexivity.
  - reflexivity.
  - exact Hnear.
  - exact Hrun.
  - reflexivity.
  - reflexivity.
  - exists face, f. split; [exact Hnear|]. split; [exact Hrun|]. split; [exact Hf|exact Hhas].
Defined.

End Examples3.
